(** * Connector geometry and fold toggling of the list-lines feature

    A shallow embedding of [src/features/LinesFeature.ts]
    (class [ListLinesViewPluginValue]) and the properties its specification
    states about it.

    Conventions of the embedding.
    - Document offsets and line numbers are JavaScript numbers that only
      ever hold integers: they are [Z].
    - Pixel quantities ([top], [bottom], [left], [height]) are JavaScript
      numbers that may be fractional ([spaceSize] is 4.5): a finite double
      is the rational [Q] it denotes.  The [height] of a connector is a
      difference of two such numbers and is rounded as the engine rounds it
      ([numSub]).  The comparator of [sort] only hands the sign of a
      difference to [sort], which the rounding of a difference of two
      doubles keeps, and the indent is a whole number of units times 4.5,
      which is exact: these two are written without rounding.
    - [List] objects live in an object store ([Heap]); a reference to a
      [List] is its index in the store ([ListId]), so that [getParent],
      reference identity ([indexOf]) and the [list] field of a [LineData]
      are what they are in the code.
    - A thrown [TypeError] (reading a property of [null]/[undefined]) is
      the [Fail TypeError] result; the two loops over the tree take fuel,
      and running out of it is [Fail OutOfFuel]. *)

From Stdlib Require Import ZArith QArith Qround Qabs Qpower Bool Lia String
  Ascii Sorted.
From stdpp Require Import base option list gmap strings.

Local Open Scope Z_scope.

(** ** Results of code that may throw *)

Inductive Failure := TypeError | OutOfFuel.

Inductive Result (A : Type) :=
| Ok (a : A)
| Fail (e : Failure).
Arguments Ok {A} a.
Arguments Fail {A} e.

Definition bind {A B : Type} (r : Result A) (k : A -> Result B) : Result B :=
  match r with
  | Ok a => k a
  | Fail e => Fail e
  end.

Notation "x <-- r ;; k" := (bind r (fun x => k))
  (at level 100, r at next level, right associativity).

(** A property read through a reference that may be [null]/[undefined]. *)
Definition deref {A : Type} (o : option A) : Result A :=
  match o with
  | Some a => Ok a
  | None => Fail TypeError
  end.

(** [for (const x of xs) { body }] over an accumulator, stopping at the
    first exception. *)
Fixpoint forOf {A S : Type} (xs : list A) (body : A -> S -> Result S) (s : S)
  : Result S :=
  match xs with
  | [] => Ok s
  | x :: xs' => s' <-- body x s ;; forOf xs' body s'
  end.

(** ** The outline tree ([List] of [../root]) *)

Record Pos := mkPos { line : Z; ch : Z }.

Abbreviation ListId := nat.

(** Modelled from the spec: the [List] class of [../root] is not part of
    the sources at hand.  The fields are those of the specification's
    ListItem: [firstLineContentStart], [firstLineIndent], [range],
    [children], [parent] (null for a root-level item), [folded], which is
    what [isFolded()] returns (true if the host editor currently hides this
    item's descendants), and [empty], which is what [isEmpty()] returns.
    The roots that [parseRange] returns are items of this kind too:
    [calculate] only reads their range and their children. *)
Record ListItem := mkListItem {
  parent : option ListId;
  children : list ListId;
  firstLineContentStart : Pos;
  firstLineIndent : string;
  range : Pos * Pos;
  folded : bool;
  empty : bool
}.

(** The object store: the [List] objects created by one [parseRange]. *)
Abbreviation Heap := (list ListItem).

(** Following a reference.  A reference that points outside the store has
    no counterpart in the code; it is treated as a [null]. *)
Definition getItem (h : Heap) (l : ListId) : Result ListItem := deref (h !! l).

(** Modelled from the spec: [getNextSiblingOf(child)] is the child that
    follows [child] among the children, null if [child] is the last of its
    siblings.  [child] is located by reference identity, first occurrence. *)
Fixpoint nextAfter (child : ListId) (cs : list ListId) : option ListId :=
  match cs with
  | [] => None
  | c :: rest => if decide (c = child) then head rest else nextAfter child rest
  end.

Definition getNextSiblingOf (p : ListItem) (child : ListId) : option ListId :=
  nextAfter child (children p).

(** ** Host editor, view and settings *)

Module BlockInfo.
Record t := mk { top : Q; bottom : Q }.
End BlockInfo.

(** Modelled from the spec: [MyEditor] (the coordinate bridge) is not part
    of the sources at hand: [offsetToPos], [posToOffset] and the optional
    zoom range [{from, to}]. *)
Record MyEditor := mkMyEditor {
  offsetToPos : Z -> Pos;
  posToOffset : Pos -> Z;
  getZoomRange : option (Pos * Pos)
}.

(** [settings.listLineAction]: ["zoom-in"], ["toggle-folding"], or any
    other value, for which [onClick] does nothing. *)
Inductive ListLineAction := ZoomIn | ToggleFolding | NoAction.

(** What the code reads from [settings], [obsidian], [parser] and [view]:
    the [listLines] and [listLineAction] settings, the theme test, the tab
    width of [getObsidianTabsSettings()], the view's line blocks, visible
    ranges, viewport and [lineBlockAt], the parser (as a function of the two
    line numbers it is given), and the four measurements that [updateDom]
    reads from the editor's DOM. *)
Record Env := mkEnv {
  listLines : bool;
  listLineAction : ListLineAction;
  isDefaultThemeEnabled : bool;
  tabSize : Z;
  viewportLineBlocks : list BlockInfo.t;
  visibleRanges : list (Z * Z);
  viewport : Z * Z;
  lineBlockAt : Z -> BlockInfo.t;
  parseRange : Z -> Z -> Heap * list ListId;
  cmScroll_offsetTop : Q;
  cmContent_clientHeight : Q;
  cmContentContainer_offsetLeft : Q;
  cmContent_firstElementChild_offsetTop : Q
}.

(** ** Connector descriptors and the rendered elements *)

(** A CSS length as the code builds it: [n + "px"] or the template
    [calc(${height}px ${margin})]. *)
Inductive Css :=
| Px (n : Q)
| Calc (height : Q) (margin : string).

Module LineData.
Record t := mk { top : Q; left : Q; height : Css; list : ListId }.
End LineData.

Record Element := mkElement {
  style_top : Css;
  style_left : Css;
  style_height : Css;
  style_display : string;
  dataset_index : nat
}.

(** ** [getIndentSize] *)

Definition spaceSize : Q := 4.5.

Definition tab : ascii := Ascii.ascii_of_nat 9.

(** The loop [for (const char of indent)]. *)
Fixpoint countSpaces (tabSize : Z) (indent : string) (spaces : Z) : Z :=
  match indent with
  | EmptyString => spaces
  | String char rest =>
      if Ascii.eqb char tab
      then countSpaces tabSize rest (spaces + tabSize)
      else countSpaces tabSize rest (spaces + 1)
  end.

(** [spaces] is a whole number, so [spaces * spaceSize] is a multiple of
    one half and needs no rounding. *)
Definition getIndentSize (env : Env) (item : ListItem) : Q :=
  let indent := firstLineIndent item in
  let spaces := countSpaces (tabSize env) indent 0 in
  (inject_Z spaces * spaceSize)%Q.

(** ** [getNextSibling] and [recursive] *)

(** [x < y] on pixel quantities. *)
Definition Qlt_bool (x y : Q) : bool := negb (Qle_bool y x).

(** ** Subtraction of numbers

    [x - y] on JavaScript numbers is the exact difference rounded to the
    nearest double (IEEE 754 binary64: 53 significant bits, the smallest
    exponent -1074, ties to the even significand).  Pixel values are far
    from the largest double, past which the engine answers [Infinity]; that
    case has no counterpart here. *)

(** The [k] with [2 ^ k <= a < 2 ^ (k + 1)], for [a] positive. *)
Definition floorLog2 (a : Q) : Z :=
  let k := Z.log2 (Qnum a) - Z.log2 (Zpos (Qden a)) in
  if Qle_bool (2 ^ k) a then k else k - 1.

(** The integer nearest to [s], the even one of two that are equally
    near. *)
Definition roundHalfEven (s : Q) : Z :=
  let f := Qfloor s in
  match (s - inject_Z f ?= 1 # 2)%Q with
  | Lt => f
  | Gt => f + 1
  | Eq => if Z.even f then f else f + 1
  end.

(** The double nearest to [x]; a number that is a double already is
    returned as it is. *)
Definition roundDouble (x : Q) : Q :=
  if Qeq_bool x 0 then x
  else
    let a := Qabs x in
    let q := Z.max (floorLog2 a - 52) (-1074) in
    let m := roundHalfEven (a / 2 ^ q) in
    let r := Qred (inject_Z (Z.sgn (Qnum x) * m) * 2 ^ q) in
    if Qeq_bool r x then x else r.

Definition numSub (x y : Q) : Q := roundDouble (x - y).

Section Geometry.
Variable env : Env.
Variable editor : option MyEditor.
Variable h : Heap.

(** The loop [while (p) { ... }] of [getNextSibling]. *)
Fixpoint getNextSibling_loop (fuel : nat) (listTmp : ListId)
    (p : option ListId) : Result (option ListId) :=
  match p with
  | None => Ok None
  | Some pid =>
      match fuel with
      | O => Fail OutOfFuel
      | S fuel' =>
          pitem <-- getItem h pid ;;
          match getNextSiblingOf pitem listTmp with
          | Some nextSibling => Ok (Some nextSibling)
          | None => getNextSibling_loop fuel' pid (parent pitem)
          end
      end
  end.

Definition getNextSibling (lid : ListId) : Result (option ListId) :=
  item <-- getItem h lid ;;
  getNextSibling_loop (length h) lid (parent item).

(** [fromOffset]. *)
Definition fromOffsetOf (ed : MyEditor) (item : ListItem) : Z :=
  posToOffset ed
    {| line := line (firstLineContentStart item);
       ch := Z.of_nat (String.length (firstLineIndent item)) |}.

(** [tillOffset], given the result of [getNextSibling]. *)
Definition tillOffsetOf (ed : MyEditor) (lastLine : Z)
    (nextSibling : option ListId) : Result Z :=
  match nextSibling with
  | Some s =>
      sitem <-- getItem h s ;;
      Ok (posToOffset ed
            {| line := line (firstLineContentStart sitem) - 1; ch := 0 |})
  | None => Ok (posToOffset ed {| line := lastLine; ch := 0 |})
  end.

Definition tillOffset (ed : MyEditor) (lastLine : Z) (lid : ListId)
  : Result Z :=
  nextSibling <-- getNextSibling lid ;;
  tillOffsetOf ed lastLine nextSibling.

(** [visibleFrom] and [visibleTo], after the zoom range is applied. *)
Definition visibleBounds (ed : MyEditor) : Result (Z * Z) :=
  first <-- deref (head (visibleRanges env)) ;;
  final <-- deref (last (visibleRanges env)) ;;
  let visibleFrom := fst first in
  let visibleTo := snd final in
  match getZoomRange ed with
  | Some (zfrom, zto) =>
      Ok (Z.max visibleFrom (posToOffset ed zfrom),
          Z.min visibleTo (posToOffset ed zto))
  | None => Ok (visibleFrom, visibleTo)
  end.

Definition topOf (visibleFrom fromOffset : Z) : Q :=
  if (visibleFrom >? 0) && (fromOffset <=? visibleFrom)
  then (-20)%Q
  else BlockInfo.top (lineBlockAt env fromOffset).

Definition bottomOf (visibleTo tillOffset : Z) : Q :=
  if tillOffset >? visibleTo
  then BlockInfo.bottom (lineBlockAt env (visibleTo - 1))
  else BlockInfo.bottom (lineBlockAt env tillOffset).

(** [hasNextSibling], evaluated when a line is pushed. *)
Definition hasNextSiblingOf (ed : MyEditor) (item : ListItem)
    (lid : ListId) (visibleTo : Z) : Result bool :=
  pid <-- deref (parent item) ;;
  pitem <-- getItem h pid ;;
  match getNextSiblingOf pitem lid with
  | Some s =>
      sitem <-- getItem h s ;;
      Ok (posToOffset ed (firstLineContentStart sitem) <=? visibleTo)
  | None => Ok false
  end.

Definition margin (hasNextSibling : bool) : string :=
  if hasNextSibling then "- 1em"%string else "- 1.8em"%string.

(** Lines 147-198 of [recursive]: what is done for [list] once its
    children have been visited. *)
Definition connect (lastLine : Z) (lid : ListId) (item : ListItem)
    (lines : list LineData.t) : Result (list LineData.t) :=
  ed <-- deref editor ;;
  let fromOffset := fromOffsetOf ed item in
  tillOffset <-- tillOffset ed lastLine lid ;;
  bounds <-- visibleBounds ed ;;
  let '(visibleFrom, visibleTo) := bounds in
  if (fromOffset >? visibleTo) || (tillOffset <? visibleFrom)
  then Ok lines
  else
    let top := topOf visibleFrom fromOffset in
    let bottom := bottomOf visibleTo tillOffset in
    let height := numSub bottom top in
    if Qlt_bool 0 height && negb (folded item)
    then
      hasNextSibling <-- hasNextSiblingOf ed item lid visibleTo ;;
      Ok (lines ++
          [LineData.mk top (getIndentSize env item)
             (Calc height (margin hasNextSibling)) lid])
    else Ok lines.

Fixpoint recursive (fuel : nat) (lastLine : Z) (lid : ListId)
    (lines : list LineData.t) : Result (list LineData.t) :=
  match fuel with
  | O => Fail OutOfFuel
  | S fuel' =>
      item <-- getItem h lid ;;
      if (length (children item) =? 0)%nat
      then Ok lines
      else
        lines' <-- forOf (children item)
                    (fun child lines =>
                       citem <-- getItem h child ;;
                       if negb (empty citem)
                       then recursive fuel' lastLine child lines
                       else Ok lines)
                    lines ;;
        connect lastLine lid item lines'
  end.
End Geometry.

(** ** The plugin value and [calculate] *)

Module This.
(** The fields of [ListLinesViewPluginValue] the computation touches.
    [editor] is undefined until [waitForEditor] has found the host
    editor; [heap] holds the [List] objects that [lines] refer to; the
    last four fields are the styles of [scroller] and
    [contentContainer]. *)
Record t := mk {
  editor : option MyEditor;
  heap : Heap;
  lastLine : Z;
  lines : list LineData.t;
  lineElements : list Element;
  scroller_top : option Css;
  contentContainer_height : option Css;
  contentContainer_marginLeft : option Css;
  contentContainer_marginTop : option Css
}.

Definition set_heap (h : Heap) (this : t) : t :=
  mk (editor this) h (lastLine this) (lines this) (lineElements this)
     (scroller_top this) (contentContainer_height this)
     (contentContainer_marginLeft this) (contentContainer_marginTop this).

Definition set_lastLine (n : Z) (this : t) : t :=
  mk (editor this) (heap this) n (lines this) (lineElements this)
     (scroller_top this) (contentContainer_height this)
     (contentContainer_marginLeft this) (contentContainer_marginTop this).

Definition set_lines (ls : list LineData.t) (this : t) : t :=
  mk (editor this) (heap this) (lastLine this) ls (lineElements this)
     (scroller_top this) (contentContainer_height this)
     (contentContainer_marginLeft this) (contentContainer_marginTop this).

Definition set_lineElements (es : list Element) (this : t) : t :=
  mk (editor this) (heap this) (lastLine this) (lines this) es
     (scroller_top this) (contentContainer_height this)
     (contentContainer_marginLeft this) (contentContainer_marginTop this).

Definition set_container (a b c d : Css) (this : t) : t :=
  mk (editor this) (heap this) (lastLine this) (lines this)
     (lineElements this) (Some a) (Some b) (Some c) (Some d).
End This.

(** The comparator handed to [sort].  [sort] reads only the sign of the
    result, and the rounded difference of two doubles has the sign of the
    exact one: the two differences are written without rounding. *)
Definition compareLines (a b : LineData.t) : Q :=
  if Qeq_bool (LineData.top a) (LineData.top b)
  then (LineData.left a - LineData.left b)%Q
  else (LineData.top a - LineData.top b)%Q.

(** [Array.prototype.sort(compare)]: a stable sort that puts [a] before
    [b] when [compare(a, b) <= 0], as a straight insertion sort. *)
Fixpoint insertSorted {A : Type} (compare : A -> A -> Q) (x : A) (l : list A)
  : list A :=
  match l with
  | [] => [x]
  | y :: l' =>
      if Qle_bool (compare x y) 0
      then x :: y :: l'
      else y :: insertSorted compare x l'
  end.

(** [l.sort(compare)]. *)
Definition sort {A : Type} (compare : A -> A -> Q) (l : list A) : list A :=
  foldr (insertSorted compare) [] l.

(** [document.createElement("div")] with [dataset.index] set; its styles
    are assigned right after the creation. *)
Definition createElement (i : nat) : Element :=
  mkElement (Px 0) (Px 0) (Px 0) "" i.

Definition showElement (l : LineData.t) (e : Element) : Element :=
  mkElement (Px (LineData.top l)) (Px (LineData.left l)) (LineData.height l)
    "block" (dataset_index e).

Definition hideElement (e : Element) : Element :=
  mkElement (Px 0) (Px 0) (Px 0) "none" (dataset_index e).

Definition updateDom (env : Env) (this : This.t) : Result This.t :=
  let this :=
    This.set_container
      (Px (cmScroll_offsetTop env))
      (Px (cmContent_clientHeight env))
      (Px (cmContentContainer_offsetLeft env))
      (Px (numSub (cmContent_firstElementChild_offsetTop env) 24))
      this in
  this <-- forOf (seq 0 (length (This.lines this)))
             (fun i this =>
                let this :=
                  if (length (This.lineElements this) =? i)%nat
                  then This.set_lineElements
                         (This.lineElements this ++ [createElement i]) this
                  else this in
                l <-- deref (This.lines this !! i) ;;
                e <-- deref (This.lineElements this !! i) ;;
                Ok (This.set_lineElements
                      (<[i := showElement l e]> (This.lineElements this)) this))
             this ;;
  forOf (seq (length (This.lines this))
             (length (This.lineElements this) - length (This.lines this)))
    (fun i this =>
       e <-- deref (This.lineElements this !! i) ;;
       Ok (This.set_lineElements
             (<[i := hideElement e]> (This.lineElements this)) this))
    this.

(** The guard of [calculate]. *)
Definition enabled (env : Env) : bool :=
  listLines env && isDefaultThemeEnabled env
  && (0 <? length (viewportLineBlocks env))%nat
  && (0 <? length (visibleRanges env))%nat.

Definition calculate (env : Env) (this : This.t) : Result This.t :=
  let this := This.set_lines [] this in
  this <--
    (if enabled env
     then
       ed <-- deref (This.editor this) ;;
       let fromLine := line (offsetToPos ed (fst (viewport env))) in
       let toLine := line (offsetToPos ed (snd (viewport env))) in
       let '(h, lists) := parseRange env fromLine toLine in
       let this := This.set_heap h this in
       this <-- forOf lists
                  (fun root this =>
                     ritem <-- getItem h root ;;
                     let this :=
                       This.set_lastLine (line (snd (range ritem))) this in
                     forOf (children ritem)
                       (fun c this =>
                          ls <-- recursive env (This.editor this) h (length h)
                                   (This.lastLine this) c (This.lines this) ;;
                          Ok (This.set_lines ls this))
                       this)
                  this ;;
       Ok (This.set_lines (sort compareLines (This.lines this)) this)
     else Ok this) ;;
  updateDom env this.

(** ** Pointer actions: [zoomIn], [toggleFolding], [onClick] *)

Module Host.
(** Modelled from the spec: the host editor behind [MyEditor.fold],
    [MyEditor.unfold] and [MyEditor.zoomIn] is not part of the sources at
    hand.  Its state is the set of folded lines and the line of the
    focused view, if any; folding a line adds it to the set, unfolding
    removes it, zooming in sets the focused line. *)
Record t := mk { foldedLines : gset Z; zoomedLine : option Z }.

Definition fold (l : Z) (s : t) : t :=
  mk ({[l]} ∪ foldedLines s) (zoomedLine s).

Definition unfold (l : Z) (s : t) : t :=
  mk (foldedLines s ∖ {[l]}) (zoomedLine s).

Definition zoomIn (l : Z) (s : t) : t :=
  mk (foldedLines s) (Some l).

Definition isFolded (l : Z) (s : t) : bool :=
  bool_decide (l ∈ foldedLines s).
End Host.

Definition zoomIn (h : Heap) (line_ : LineData.t) (host : Host.t)
  : Result Host.t :=
  item <-- getItem h (LineData.list line_) ;;
  Ok (Host.zoomIn (line (firstLineContentStart item)) host).

(** The first loop of [toggleFolding]: the pair is
    [(needToUnfold, linesToToggle)]. *)
Definition collectStep (h : Heap) (c : ListId) (acc : bool * list Z)
  : Result (bool * list Z) :=
  citem <-- getItem h c ;;
  if empty citem
  then Ok acc
  else
    let needToUnfold := if negb (folded citem) then false else fst acc in
    Ok (needToUnfold, snd acc ++ [line (firstLineContentStart citem)]).

Definition collectToggles (h : Heap) (cs : list ListId)
  : Result (bool * list Z) :=
  forOf cs (collectStep h) (true, []).

Definition toggleFolding (h : Heap) (line_ : LineData.t) (host : Host.t)
  : Result Host.t :=
  item <-- getItem h (LineData.list line_) ;;
  if empty item
  then Ok host
  else
    acc <-- collectToggles h (children item) ;;
    let '(needToUnfold, linesToToggle) := acc in
    forOf linesToToggle
      (fun l host =>
         if needToUnfold
         then Ok (Host.unfold l host)
         else Ok (Host.fold l host))
      host.

Definition onClick (env : Env) (this : This.t) (index : nat) (host : Host.t)
  : Result Host.t :=
  match listLineAction env with
  | ZoomIn =>
      line_ <-- deref (This.lines this !! index) ;;
      zoomIn (This.heap this) line_ host
  | ToggleFolding =>
      line_ <-- deref (This.lines this !! index) ;;
      toggleFolding (This.heap this) line_ host
  | NoAction => Ok host
  end.

(** Modelled from the spec: the parser is not part of the sources at hand.
    The tree is rebuilt, not patched, after every change, and an item's
    [folded] flag tells whether the host editor currently folds it: when
    only the fold state has changed, the rebuilt tree is the old one with
    every flag read again from the host. *)
Definition refold (item : ListItem) (host : Host.t) : ListItem :=
  mkListItem (parent item) (children item) (firstLineContentStart item)
    (firstLineIndent item) (range item)
    (Host.isFolded (line (firstLineContentStart item)) host)
    (empty item).

Definition reparse (host : Host.t) (h : Heap) : Heap :=
  (fun item => refold item host) <$> h.

(** ** A plain host for concrete documents

    A document is its list of lines; offsets count the characters of the
    lines before a position plus one line break each; every displayed line
    is one block, [lineHeight] pixels high.  A fold [(f, t)] hides the lines
    after [f] up to [t]: their offsets belong to the block of line [f], and
    the lines below move up. *)

Module Doc.
Definition lineHeight : Z := 20.

Fixpoint posToOffset (doc : list string) (ln : nat) (c : Z) : Z :=
  match ln, doc with
  | O, _ => c
  | S ln', l :: doc' => Z.of_nat (String.length l) + 1 + posToOffset doc' ln' c
  | S _, [] => c
  end.

(** The line that holds offset [off]; offsets past the end belong to the
    last line. *)
Fixpoint lineAt (doc : list string) (off : Z) (ln : Z) : Z * Z :=
  match doc with
  | [] => (ln, off)
  | l :: doc' =>
      if (off <=? Z.of_nat (String.length l)) || (length doc' =? 0)%nat
      then (ln, off)
      else lineAt doc' (off - Z.of_nat (String.length l) - 1) (ln + 1)
  end.

Definition editor (doc : list string) (zoom : option (Pos * Pos)) : MyEditor :=
  mkMyEditor
    (fun off => let '(l, c) := lineAt doc off 0 in mkPos l c)
    (fun p => posToOffset doc (Z.to_nat (line p)) (ch p))
    zoom.

Definition displayedLine (fold : option (Z * Z)) (l : Z) : Z :=
  match fold with
  | None => l
  | Some (f, t) =>
      if l <=? f then l else if l <=? t then f else l - (t - f)
  end.

Definition lineBlockAt (doc : list string) (fold : option (Z * Z)) (off : Z)
  : BlockInfo.t :=
  let l := displayedLine fold (fst (lineAt doc off 0)) in
  BlockInfo.mk (inject_Z (lineHeight * l)) (inject_Z (lineHeight * (l + 1))).

Definition size (doc : list string) : Z :=
  posToOffset doc (length doc) 0 - 1.

(** Everything visible, feature on, default theme, tab width 4. *)
Definition env (doc : list string) (fold : option (Z * Z))
    (forest : Heap * list ListId) : Env :=
  mkEnv true ToggleFolding true 4
    ((fun l => lineBlockAt doc fold (posToOffset doc l 0))
       <$> seq 0 (length doc))
    [(0, size doc)] (0, size doc)
    (lineBlockAt doc fold) (fun _ _ => forest)
    0 (inject_Z (lineHeight * Z.of_nat (length doc))) 0 24.

Definition this (ed : option MyEditor) : This.t :=
  This.mk ed [] 0 [] [] None None None None.
End Doc.

(** The document [- a / (indent) - b / (indent) - c / - d]: object 0 is the
    root, 1 is [a], 2 is [b], 3 is [c], 4 is [d]. *)
Module Abcd.
Definition doc : list string := ["- a"; "  - b"; "  - c"; "- d"]%string.

Definition heap (aFolded : bool) : Heap :=
  [ mkListItem None [1; 4]%nat (mkPos 0 0) "" (mkPos 0 0, mkPos 3 3) false true;
    mkListItem (Some 0%nat) [2; 3]%nat (mkPos 0 2) "" (mkPos 0 0, mkPos 2 5)
      aFolded false;
    mkListItem (Some 1%nat) [] (mkPos 1 4) "  " (mkPos 1 0, mkPos 1 5) false false;
    mkListItem (Some 1%nat) [] (mkPos 2 4) "  " (mkPos 2 0, mkPos 2 5) false false;
    mkListItem (Some 0%nat) [] (mkPos 3 2) "" (mkPos 3 0, mkPos 3 3) false false ].

Definition forest (aFolded : bool) : Heap * list ListId := (heap aFolded, [0%nat]).

(** The zoom range that covers the lines of [b] and [c] only. *)
Definition zoomBC : Pos * Pos := (mkPos 1 0, mkPos 2 5).
End Abcd.

(** The document [- a / (2) - b / (4) - c / - d]: object 0 is the root,
    1 is [a] with the only child 2, [b], whose only child is 3, [c];
    4 is [d].  When the host folds [a] it hides [b] and [c]: the descendants
    of [a] are hidden, and so is the descendant of [b]. *)
Module Nested.
Definition doc : list string := ["- a"; "  - b"; "    - c"; "- d"]%string.

Definition heap (aFolded : bool) : Heap :=
  [ mkListItem None [1; 4]%nat (mkPos 0 0) "" (mkPos 0 0, mkPos 3 3) false true;
    mkListItem (Some 0%nat) [2]%nat (mkPos 0 2) "" (mkPos 0 0, mkPos 2 7)
      aFolded false;
    mkListItem (Some 1%nat) [3]%nat (mkPos 1 4) "  " (mkPos 1 0, mkPos 2 7)
      aFolded false;
    mkListItem (Some 2%nat) [] (mkPos 2 6) "    " (mkPos 2 0, mkPos 2 7)
      false false;
    mkListItem (Some 0%nat) [] (mkPos 3 2) "" (mkPos 3 0, mkPos 3 3) false false ].

Definition forest (aFolded : bool) : Heap * list ListId := (heap aFolded, [0%nat]).

(** [a] folded: lines 1 and 2 are hidden behind line 0. *)
Definition foldA : option (Z * Z) := Some (0, 2).
End Nested.

(** The document [- a / (2) - b / (4) - c / - d / (2) - e] with [a]
    folded by the host, which hides lines 1 and 2: object 0 is the root,
    1 is [a], 2 is [b], 3 is [c], 4 is [d] with the only child 5, [e].  The
    host hides the descendants of [a] and with them the descendant of [b]:
    both report folded. *)
Module Grove.
Definition doc : list string :=
  ["- a"; "  - b"; "    - c"; "- d"; "  - e"]%string.

Definition heap : Heap :=
  [ mkListItem None [1; 4]%nat (mkPos 0 0) "" (mkPos 0 0, mkPos 4 5) false true;
    mkListItem (Some 0%nat) [2]%nat (mkPos 0 2) "" (mkPos 0 0, mkPos 2 7)
      true false;
    mkListItem (Some 1%nat) [3]%nat (mkPos 1 4) "  " (mkPos 1 0, mkPos 2 7)
      true false;
    mkListItem (Some 2%nat) [] (mkPos 2 6) "    " (mkPos 2 0, mkPos 2 7)
      false false;
    mkListItem (Some 0%nat) [5]%nat (mkPos 3 2) "" (mkPos 3 0, mkPos 4 5)
      false false;
    mkListItem (Some 4%nat) [] (mkPos 4 4) "  " (mkPos 4 0, mkPos 4 5)
      false false ].

Definition forest : Heap * list ListId := (heap, [0%nat]).

Definition foldA : option (Z * Z) := Some (0, 2).
End Grove.

(** The document [- a / (2) - b / (4) - x / (2) - c / (4) - y / - d]:
    object 1 is [a] with the children 2, [b], and 4, [c]. *)
Module Family.
Definition doc : list string :=
  ["- a"; "  - b"; "    - x"; "  - c"; "    - y"; "- d"]%string.

Definition heap : Heap :=
  [ mkListItem None [1; 6]%nat (mkPos 0 0) "" (mkPos 0 0, mkPos 5 3) false true;
    mkListItem (Some 0%nat) [2; 4]%nat (mkPos 0 2) "" (mkPos 0 0, mkPos 4 7)
      false false;
    mkListItem (Some 1%nat) [3]%nat (mkPos 1 4) "  " (mkPos 1 0, mkPos 2 7)
      false false;
    mkListItem (Some 2%nat) [] (mkPos 2 6) "    " (mkPos 2 0, mkPos 2 7)
      false false;
    mkListItem (Some 1%nat) [5]%nat (mkPos 3 4) "  " (mkPos 3 0, mkPos 4 7)
      false false;
    mkListItem (Some 4%nat) [] (mkPos 4 6) "    " (mkPos 4 0, mkPos 4 7)
      false false;
    mkListItem (Some 0%nat) [] (mkPos 5 2) "" (mkPos 5 0, mkPos 5 3) false false ].

(** A descriptor whose source item is [a]. *)
Definition lineA : LineData.t := LineData.mk 0 0 (Calc 100 "- 1em") 1%nat.

(** [b] (line 1) folded, [c] (line 3) not. *)
Definition onlyB : Host.t := Host.mk {[ 1 ]} None.

Definition none : Host.t := Host.mk ∅ None.
End Family.

(** The document [- / (2) - b / (4) - c], whose first item has no text:
    object 1 is the empty item, 2 is [b], 3 is [c]. *)
Module EmptyParent.
Definition doc : list string := ["- "; "  - b"; "    - c"]%string.

Definition heap : Heap :=
  [ mkListItem None [1]%nat (mkPos 0 0) "" (mkPos 0 0, mkPos 2 7) false true;
    mkListItem (Some 0%nat) [2]%nat (mkPos 0 2) "" (mkPos 0 0, mkPos 2 7)
      false true;
    mkListItem (Some 1%nat) [3]%nat (mkPos 1 4) "  " (mkPos 1 0, mkPos 2 7)
      false false;
    mkListItem (Some 2%nat) [] (mkPos 2 6) "    " (mkPos 2 0, mkPos 2 7)
      false false ].

Definition forest : Heap * list ListId := (heap, [0%nat]).
End EmptyParent.

(** The document [- a / (2) - b / (2) - c] on a host whose pixel values
    are not whole numbers: line [l] is the block from [76.8 + 57.6 * l] to
    [76.8 + 57.6 * (l + 1)], each the double nearest to it.  Object 0 is the
    root, 1 is [a], 2 is [b], 3 is [c]. *)
Module Abc.
Definition doc : list string := ["- a"; "  - b"; "  - c"]%string.

Definition heap : Heap :=
  [ mkListItem None [1]%nat (mkPos 0 0) "" (mkPos 0 0, mkPos 2 5) false true;
    mkListItem (Some 0%nat) [2; 3]%nat (mkPos 0 2) "" (mkPos 0 0, mkPos 2 5)
      false false;
    mkListItem (Some 1%nat) [] (mkPos 1 4) "  " (mkPos 1 0, mkPos 1 5) false false;
    mkListItem (Some 1%nat) [] (mkPos 2 4) "  " (mkPos 2 0, mkPos 2 5) false false ].

Definition lineBlockAt (off : Z) : BlockInfo.t :=
  let l := inject_Z (fst (Doc.lineAt doc off 0)) in
  BlockInfo.mk (roundDouble (76.8 + 57.6 * l))
    (roundDouble (76.8 + 57.6 * (l + 1))).

Definition env : Env :=
  mkEnv true ToggleFolding true 4
    ((fun l => lineBlockAt (Doc.posToOffset doc l 0)) <$> seq 0 (length doc))
    [(0, Doc.size doc)] (0, Doc.size doc)
    lineBlockAt (fun _ _ => (heap, [0%nat]))
    0 (roundDouble (57.6 * 3)) 0 24.
End Abc.

(** The state after a pass that does not throw. *)
Definition after (r : Result This.t) : This.t :=
  match r with
  | Ok this => this
  | Fail _ => Doc.this None
  end.

(** Two clicks in a row: before each the tree is rebuilt from the fold
    state of the host. *)
Definition toggleTwice (h : Heap) (line_ : LineData.t) (host : Host.t)
  : Result Host.t :=
  host1 <-- toggleFolding (reparse host h) line_ host ;;
  toggleFolding (reparse host1 h) line_ host1.

(** * Vocabulary of the properties *)

(** [Reach h a d]: [d] is [a] or is reached from [a] through [children]. *)
Inductive Reach (h : Heap) : ListId -> ListId -> Prop :=
| reach_here (a : ListId) : Reach h a a
| reach_child (a c d : ListId) (item : ListItem) :
    h !! a = Some item -> c ∈ children item -> Reach h c d -> Reach h a d.

(** [d] is a proper descendant of [a]. *)
Definition Descendant (h : Heap) (a d : ListId) : Prop :=
  exists item c, h !! a = Some item /\ c ∈ children item /\ Reach h c d.

(** [Emitted env ed h lastLine l]: [l] is the descriptor that [recursive]
    pushes for some item of [h] with children, under editor [ed], while the
    root that ends at [lastLine] is processed. *)
Inductive Emitted (env : Env) (ed : MyEditor) (h : Heap) (lastLine : Z)
  : LineData.t -> Prop :=
| emitted (lid : ListId) (item : ListItem) (till vf vt : Z) (has : bool) :
    h !! lid = Some item ->
    children item <> [] ->
    tillOffset h ed lastLine lid = Ok till ->
    visibleBounds env ed = Ok (vf, vt) ->
    fromOffsetOf ed item <= vt ->
    vf <= till ->
    (0 < numSub (bottomOf env vt till)
           (topOf env vf (fromOffsetOf ed item)))%Q ->
    folded item = false ->
    hasNextSiblingOf h ed item lid vt = Ok has ->
    Emitted env ed h lastLine
      (LineData.mk (topOf env vf (fromOffsetOf ed item))
         (getIndentSize env item)
         (Calc (numSub (bottomOf env vt till)
                     (topOf env vf (fromOffsetOf ed item)))
            (margin has))
         lid).

(** The lines added on the way from [lines] to [lines'] are descriptors of
    items at or below [top]. *)
Definition extends (env : Env) (editor : option MyEditor) (h : Heap)
    (lastLine : Z) (top : ListId) (lines lines' : list LineData.t) : Prop :=
  exists new,
    lines' = lines ++ new /\
    Forall (fun l => Reach h top (LineData.list l) /\
                     exists ed, editor = Some ed /\
                                Emitted env ed h lastLine l)
      new.

(** The fields [updateDom] does not write. *)
Definition sameModel (this this' : This.t) : Prop :=
  This.editor this' = This.editor this /\
  This.heap this' = This.heap this /\
  This.lastLine this' = This.lastLine this /\
  This.lines this' = This.lines this.

(** [l] was pushed for an item below some root of [lists], while that
    root was processed. *)
Definition EmittedIn (env : Env) (ed : MyEditor) (h : Heap)
    (lists : list ListId) (l : LineData.t) : Prop :=
  exists root ritem,
    root ∈ lists /\ h !! root = Some ritem /\
    Descendant h root (LineData.list l) /\
    Emitted env ed h (line (snd (range ritem))) l.

(** The forest [calculate] parses. *)
Definition parsed (env : Env) (ed : MyEditor) : Heap * list ListId :=
  parseRange env (line (offsetToPos ed (fst (viewport env))))
    (line (offsetToPos ed (snd (viewport env)))).

(** The fold flags are those of the data model: given the items that the
    host editor currently hides, an item that has descendants reports
    folded exactly when the host hides its descendants. *)
Definition foldedMeansHidden (hidden : ListId -> Prop) (h : Heap) : Prop :=
  forall lid item,
    h !! lid = Some item -> children item <> [] ->
    (folded item = true <-> forall d, Descendant h lid d -> hidden d).

(** Every child with children of an item that reports folded reports
    folded too. *)
Definition foldInherited (h : Heap) : Prop :=
  forall pid pitem cid citem,
    h !! pid = Some pitem -> cid ∈ children pitem -> h !! cid = Some citem ->
    folded pitem = true -> children citem <> [] -> folded citem = true.

(** [Following h lid r]: [r] is the next sibling of [lid] or, when [lid] is
    the last of its siblings, the next sibling of the nearest ancestor that
    has one; [None] when no item from [lid] up to the root has one. *)
Inductive Following (h : Heap) : ListId -> option ListId -> Prop :=
| following_none (lid : ListId) (item : ListItem) :
    h !! lid = Some item -> parent item = None ->
    Following h lid None
| following_sibling (lid pid s : ListId) (item pitem : ListItem) :
    h !! lid = Some item -> parent item = Some pid ->
    h !! pid = Some pitem -> getNextSiblingOf pitem lid = Some s ->
    Following h lid (Some s)
| following_parent (lid pid : ListId) (item pitem : ListItem)
    (r : option ListId) :
    h !! lid = Some item -> parent item = Some pid ->
    h !! pid = Some pitem -> getNextSiblingOf pitem lid = None ->
    Following h pid r ->
    Following h lid r.

(** The pixel height inside a CSS length. *)
Definition heightPx (c : Css) : Q :=
  match c with
  | Px n => n
  | Calc height _ => height
  end.

(** [a] comes before [b]: smaller [top], or equal [top] and [left] not
    larger. *)
Definition lineLe (a b : LineData.t) : Prop :=
  (LineData.top a < LineData.top b)%Q \/
  ((LineData.top a == LineData.top b)%Q /\
   (LineData.left a <= LineData.left b)%Q).

(** The indent in character units, in the specification's words: a tab
    counts for the tab width, any other character for 1. *)
Fixpoint indentUnits (tabSize : Z) (indent : string) : Z :=
  match indent with
  | EmptyString => 0
  | String char rest =>
      (if Ascii.eqb char tab then tabSize else 1) + indentUnits tabSize rest
  end.

(** The children of [item] that are not empty. *)
Definition nonEmptyChildren (h : Heap) (item : ListItem) : list ListItem :=
  filter (fun c => empty c = false) (omap (fun c => h !! c) (children item)).

(** Their content-start lines and whether all of them are folded. *)
Definition toggledLines (h : Heap) (item : ListItem) : list Z :=
  (fun c => line (firstLineContentStart c)) <$> nonEmptyChildren h item.

Definition allFolded (h : Heap) (item : ListItem) : bool :=
  forallb folded (nonEmptyChildren h item).

(** All references among the children of [item] point into the store. *)
Definition childrenAlive (h : Heap) (item : ListItem) : Prop :=
  Forall (fun c => is_Some (h !! c)) (children item).

(** What the second loop of [toggleFolding] does to the host. *)
Definition applyToggle (needToUnfold : bool) (ls : list Z) (host : Host.t)
  : Host.t :=
  Host.mk
    (if needToUnfold
     then Host.foldedLines host ∖ list_to_set ls
     else list_to_set ls ∪ Host.foldedLines host)
    (Host.zoomedLine host).

(** A store is well formed when objects are numbered parents first: every
    child of an item is in the store, has a larger number and names the
    item as its parent, and a parent has a smaller number. *)
Definition wfChild (h : Heap) (lid c : ListId) : bool :=
  (lid <? c)%nat &&
  match h !! c with
  | Some citem => bool_decide (parent citem = Some lid)
  | None => false
  end.

Definition wfParent (lid : ListId) (p : option ListId) : bool :=
  match p with
  | Some pid => (pid <? lid)%nat
  | None => true
  end.

Definition wfItem (h : Heap) (lid : ListId) (item : ListItem) : bool :=
  forallb (wfChild h lid) (children item) && wfParent lid (parent item).

Definition wfHeap (h : Heap) : bool :=
  forallb
    (fun lid =>
       match h !! lid with
       | Some item => wfItem h lid item
       | None => true
       end)
    (seq 0 (length h)).

(** * The state a pass leaves behind when it throws

    An exception that leaves [calculate] is caught by no one: the plugin
    value stays as it is at the throw, with the descriptors pushed so far
    in [lines], and the host goes on calling it. *)

(** The two loop bodies of [calculate], by name. *)
Definition childStep (env : Env) (h : Heap) (c : ListId) (this : This.t)
  : Result This.t :=
  ls <-- recursive env (This.editor this) h (length h)
           (This.lastLine this) c (This.lines this) ;;
  Ok (This.set_lines ls this).

Definition rootStep (env : Env) (h : Heap) (root : ListId) (this : This.t)
  : Result This.t :=
  ritem <-- getItem h root ;;
  let this := This.set_lastLine (line (snd (range ritem))) this in
  forOf (children ritem) (childStep env h) this.

(** The accumulator at the point where the loop [forOf xs body s] comes to
    its end or throws; [thrown x s] is the accumulator at the point where
    [body x s] throws. *)
Fixpoint forOfThrown {A S : Type} (xs : list A) (body : A -> S -> Result S)
    (thrown : A -> S -> S) (s : S) : S :=
  match xs with
  | [] => s
  | x :: xs' =>
      match body x s with
      | Ok s' => forOfThrown xs' body thrown s'
      | Fail _ => thrown x s
      end
  end.

(** [this.lines] at the point where [recursive] throws: what the calls for
    the children have pushed; [connect] pushes last, so when it throws it
    has pushed nothing. *)
Fixpoint recursiveThrown (env : Env) (editor : option MyEditor) (h : Heap)
    (fuel : nat) (lastLine : Z) (lid : ListId) (lines : list LineData.t)
  : list LineData.t :=
  match fuel with
  | O => lines
  | S fuel' =>
      match getItem h lid with
      | Fail _ => lines
      | Ok item =>
          if (length (children item) =? 0)%nat
          then lines
          else
            forOfThrown (children item)
              (fun child lines =>
                 citem <-- getItem h child ;;
                 if negb (empty citem)
                 then recursive env editor h fuel' lastLine child lines
                 else Ok lines)
              (fun child lines =>
                 match getItem h child with
                 | Ok citem =>
                     if negb (empty citem)
                     then recursiveThrown env editor h fuel' lastLine child lines
                     else lines
                 | Fail _ => lines
                 end)
              lines
      end
  end.

Definition childStepThrown (env : Env) (h : Heap) (c : ListId)
    (this : This.t) : This.t :=
  This.set_lines
    (recursiveThrown env (This.editor this) h (length h) (This.lastLine this)
       c (This.lines this))
    this.

Definition rootStepThrown (env : Env) (h : Heap) (root : ListId)
    (this : This.t) : This.t :=
  match getItem h root with
  | Fail _ => this
  | Ok ritem =>
      let this := This.set_lastLine (line (snd (range ritem))) this in
      forOfThrown (children ritem) (childStep env h) (childStepThrown env h) this
  end.

(** The plugin value at the point where [calculate] throws: in line 100
    when there is no editor yet, or in one of the two loops; [sort] and
    [updateDom] do not throw. *)
Definition calculateThrown (env : Env) (this : This.t) : This.t :=
  let this := This.set_lines [] this in
  if enabled env
  then
    match This.editor this with
    | None => this
    | Some ed =>
        let '(h, lists) := parsed env ed in
        let this := This.set_heap h this in
        forOfThrown lists (rootStep env h) (rootStepThrown env h) this
    end
  else this.

(** * The plugin value in the event loop of the host

    The rest of [ListLinesViewPluginValue]: the constructor, [prepareDom],
    [waitForEditor], [onScroll], [scheduleRecalculate], [update] and
    [destroy], and the host's timers that run [calculate] and
    [waitForEditor] later. *)

Module Timers.
(** The host's timers, as far as the plugin value uses them: the pending
    [setImmediate] callbacks, which all are [this.calculate], and the
    pending [setTimeout] callbacks, which all are [this.waitForEditor], each
    under the handle it was given; [fresh] is the next handle. *)
Record t := mk { fresh : nat; immediates : list nat; timeouts : list nat }.

Definition setImmediate (q : t) : nat * t :=
  (fresh q, mk (S (fresh q)) (immediates q ++ [fresh q]) (timeouts q)).

(** [clearImmediate(undefined)] and clearing a callback that has run
    already do nothing. *)
Definition clearImmediate (handle : option nat) (q : t) : t :=
  match handle with
  | Some n => mk (fresh q) (filter (fun m => m <> n) (immediates q)) (timeouts q)
  | None => q
  end.

Definition setTimeout (q : t) : t :=
  mk (S (fresh q)) (immediates q) (timeouts q ++ [fresh q]).
End Timers.

(** The flags of a [ViewUpdate] that [update] reads; [transactions] holds
    the [reconfigured] flag of every transaction. *)
Record ViewUpdate := mkViewUpdate {
  docChanged : bool;
  viewportChanged : bool;
  geometryChanged : bool;
  transactions : list bool
}.

Module Plugin.
(** The plugin value with what it has registered at the host: [this] holds
    the fields of the computation, [scheduled] the handle of the last
    [setImmediate]; [scrollListener] tells whether [onScroll] listens on
    the scroll element of the view, [settingsCallback] whether
    [scheduleRecalculate] is registered for the [listLines] setting,
    [scrollerAttached] whether the scroller is a child of the view's
    element; [scrollerScroll] is the scroll position of the scroller. *)
Record t := mk {
  this : This.t;
  scheduled : option nat;
  timers : Timers.t;
  scrollListener : bool;
  settingsCallback : bool;
  scrollerAttached : bool;
  scrollerScroll : Q * Q
}.

Definition set_this (th : This.t) (p : t) : t :=
  mk th (scheduled p) (timers p) (scrollListener p) (settingsCallback p)
     (scrollerAttached p) (scrollerScroll p).

Definition set_timers (q : Timers.t) (p : t) : t :=
  mk (this p) (scheduled p) q (scrollListener p) (settingsCallback p)
     (scrollerAttached p) (scrollerScroll p).
End Plugin.

Definition scheduleRecalculate (p : Plugin.t) : Plugin.t :=
  let q := Timers.clearImmediate (Plugin.scheduled p) (Plugin.timers p) in
  let '(handle, q) := Timers.setImmediate q in
  Plugin.mk (Plugin.this p) (Some handle) q (Plugin.scrollListener p)
    (Plugin.settingsCallback p) (Plugin.scrollerAttached p)
    (Plugin.scrollerScroll p).

Definition update (u : ViewUpdate) (p : Plugin.t) : Plugin.t :=
  if docChanged u || viewportChanged u || geometryChanged u
     || existsb (fun reconfigured => reconfigured) (transactions u)
  then scheduleRecalculate p
  else p.

(** [oe] is the editor the host holds for the view, if it has one yet. *)
Definition waitForEditor (oe : option MyEditor) (p : Plugin.t) : Plugin.t :=
  match oe with
  | None => Plugin.set_timers (Timers.setTimeout (Plugin.timers p)) p
  | Some ed =>
      let this := Plugin.this p in
      let this :=
        This.mk (Some ed) (This.heap this) (This.lastLine this)
          (This.lines this) (This.lineElements this) (This.scroller_top this)
          (This.contentContainer_height this)
          (This.contentContainer_marginLeft this)
          (This.contentContainer_marginTop this) in
      scheduleRecalculate (Plugin.set_this this p)
  end.

Definition onScroll (scrollLeft scrollTop : Q) (p : Plugin.t) : Plugin.t :=
  Plugin.mk (Plugin.this p) (Plugin.scheduled p) (Plugin.timers p)
    (Plugin.scrollListener p) (Plugin.settingsCallback p)
    (Plugin.scrollerAttached p) (scrollLeft, scrollTop).

(** The constructor: it registers [onScroll] and [scheduleRecalculate],
    builds and attaches the scroller ([prepareDom]) and calls
    [waitForEditor].  No timer of this value is pending before; [lines],
    which is undefined until the first pass, is shown as the empty list. *)
Definition construct (oe : option MyEditor) : Plugin.t :=
  waitForEditor oe
    (Plugin.mk (This.mk None [] 0 [] [] None None None None) None
       (Timers.mk 0 [] []) true true true (0, 0)%Q).

(** How a call that may throw half way ends: with the state it returns
    with, or with the state it has reached when it throws. *)
Inductive Ending (A : Type) :=
| Returned (a : A)
| Threw (a : A).
Arguments Returned {A} a.
Arguments Threw {A} a.

(** [destroy]: [removeChild] throws when the scroller is not a child of the
    view's element, and then [clearImmediate] is not reached. *)
Definition destroy (p : Plugin.t) : Ending Plugin.t :=
  let p :=
    Plugin.mk (Plugin.this p) (Plugin.scheduled p) (Plugin.timers p)
      false false (Plugin.scrollerAttached p) (Plugin.scrollerScroll p) in
  if Plugin.scrollerAttached p
  then
    Returned
      (Plugin.mk (Plugin.this p) (Plugin.scheduled p)
         (Timers.clearImmediate (Plugin.scheduled p) (Plugin.timers p))
         false false false (Plugin.scrollerScroll p))
  else Threw p.

(** What the host may do next with the plugin value. *)
Inductive Event :=
| ViewUpdated (u : ViewUpdate)
| SettingChanged
| Scrolled (scrollLeft scrollTop : Q)
| ImmediateFired (env : Env)
| TimeoutFired (oe : option MyEditor)
| Destroyed.

(** The state a call ends in, returned or thrown. *)
Definition state {A : Type} (e : Ending A) : A :=
  match e with
  | Returned a => a
  | Threw a => a
  end.

(** One turn of the event loop.  A listener that is no longer registered is
    not called, and a timer fires only when one is pending, the oldest
    first.  A pass that runs out of fuel is taken for one that throws: the
    engine ends a runaway recursion with a [RangeError]. *)
Definition handle (e : Event) (p : Plugin.t) : Ending Plugin.t :=
  match e with
  | ViewUpdated u => Returned (update u p)
  | SettingChanged =>
      Returned (if Plugin.settingsCallback p then scheduleRecalculate p else p)
  | Scrolled scrollLeft scrollTop =>
      Returned
        (if Plugin.scrollListener p
         then onScroll scrollLeft scrollTop p
         else p)
  | ImmediateFired env =>
      match Timers.immediates (Plugin.timers p) with
      | [] => Returned p
      | _ :: rest =>
          let q := Plugin.timers p in
          let p :=
            Plugin.set_timers
              (Timers.mk (Timers.fresh q) rest (Timers.timeouts q)) p in
          match calculate env (Plugin.this p) with
          | Ok this => Returned (Plugin.set_this this p)
          | Fail _ =>
              Threw (Plugin.set_this (calculateThrown env (Plugin.this p)) p)
          end
      end
  | TimeoutFired oe =>
      match Timers.timeouts (Plugin.timers p) with
      | [] => Returned p
      | _ :: rest =>
          let q := Plugin.timers p in
          Returned
            (waitForEditor oe
               (Plugin.set_timers
                  (Timers.mk (Timers.fresh q) (Timers.immediates q) rest) p))
      end
  | Destroyed => destroy p
  end.

(** A run of events from the state [p]: the host goes on with the next
    event whether the callback returned or threw. *)
Fixpoint run (events : list Event) (p : Plugin.t) : Plugin.t :=
  match events with
  | [] => p
  | e :: events' => run events' (state (handle e p))
  end.

(** * Further vocabulary: what the tree walk visits *)

(** [Visits h a d]: the walk that starts at [a] comes to [d]: [d] is [a],
    or is reached from [a] through children that are not empty. *)
Inductive Visits (h : Heap) : ListId -> ListId -> Prop :=
| visits_here (a : ListId) : Visits h a a
| visits_child (a c d : ListId) (item citem : ListItem) :
    h !! a = Some item -> c ∈ children item ->
    h !! c = Some citem -> empty citem = false ->
    Visits h c d -> Visits h a d.

(** [Wanted env ed h lastLine lid]: the item [lid] passes every test of
    [recursive]: it has children, its interval meets the visible range, its
    height is positive and it is not folded. *)
Definition Wanted (env : Env) (ed : MyEditor) (h : Heap) (lastLine : Z)
    (lid : ListId) : Prop :=
  exists item till vf vt,
    h !! lid = Some item /\
    children item <> [] /\
    tillOffset h ed lastLine lid = Ok till /\
    visibleBounds env ed = Ok (vf, vt) /\
    fromOffsetOf ed item <= vt /\
    vf <= till /\
    (0 < numSub (bottomOf env vt till)
           (topOf env vf (fromOffsetOf ed item)))%Q /\
    folded item = false.

(** The lines pushed from [lines] to [lines'] are descriptors of items the
    walk from [top] visits. *)
Definition visited (h : Heap) (top : ListId) (lines lines' : list LineData.t)
  : Prop :=
  exists new,
    lines' = lines ++ new /\
    Forall (fun l => Visits h top (LineData.list l)) new.

(** The margin the code puts into the height of the connector of [lid],
    whose parent is [pitem]. *)
Definition marginOf (ed : MyEditor) (h : Heap) (pitem : ListItem)
    (lid : ListId) (visibleTo : Z) : string :=
  match getNextSiblingOf pitem lid with
  | Some s =>
      match h !! s with
      | Some sitem =>
          if posToOffset ed (firstLineContentStart sitem) <=? visibleTo
          then "- 1em"%string
          else "- 1.8em"%string
      | None => "- 1.8em"%string
      end
  | None => "- 1.8em"%string
  end.

(** * Further vocabulary: the rendered elements *)

(** The elements that show the lines [ls], the first of them at index [k]:
    the element that is there is used again, a missing one is created. *)
Fixpoint showAll (k : nat) (ls : list LineData.t) (old : list Element)
  : list Element :=
  match ls with
  | [] => []
  | l :: ls' =>
      showElement l (default (createElement k) (head old))
      :: showAll (S k) ls' (tail old)
  end.

(** The elements after [updateDom]: one shown element per line, then the
    old elements beyond the lines, hidden. *)
Definition rendered (ls : list LineData.t) (old : list Element) : list Element :=
  showAll 0 ls old ++ (hideElement <$> drop (length ls) old).

(** Every element carries its own position in [dataset.index]. *)
Definition indexed (els : list Element) : Prop :=
  forall i e, els !! i = Some e -> dataset_index e = i.

(** The element [e] draws the line [l]. *)
Definition shows (e : Element) (l : LineData.t) : Prop :=
  style_top e = Px (LineData.top l) /\
  style_left e = Px (LineData.left l) /\
  style_height e = LineData.height l /\
  style_display e = "block"%string.

(** The element [e] is hidden. *)
Definition hidden (e : Element) : Prop :=
  style_top e = Px 0 /\ style_left e = Px 0 /\ style_height e = Px 0 /\
  style_display e = "none"%string.

(** The bodies of the two loops of [updateDom]. *)
Definition showStep (i : nat) (this : This.t) : Result This.t :=
  let this :=
    if (length (This.lineElements this) =? i)%nat
    then This.set_lineElements
           (This.lineElements this ++ [createElement i]) this
    else this in
  l <-- deref (This.lines this !! i) ;;
  e <-- deref (This.lineElements this !! i) ;;
  Ok (This.set_lineElements
        (<[i := showElement l e]> (This.lineElements this)) this).

Definition hideStep (i : nat) (this : This.t) : Result This.t :=
  e <-- deref (This.lineElements this !! i) ;;
  Ok (This.set_lineElements
        (<[i := hideElement e]> (This.lineElements this)) this).

(** * Further vocabulary: the scheduler *)

(** At most one recomputation is pending, and it is the one whose handle
    is kept in [scheduled]. *)
Definition Coalesced (p : Plugin.t) : Prop :=
  Timers.immediates (Plugin.timers p) = [] \/
  exists handle,
    Plugin.scheduled p = Some handle /\
    Timers.immediates (Plugin.timers p) = [handle].

(** Exactly one poll for the editor is pending while there is no editor,
    and none once there is one. *)
Definition Polling (p : Plugin.t) : Prop :=
  match This.editor (Plugin.this p) with
  | None => length (Timers.timeouts (Plugin.timers p)) = 1%nat
  | Some _ => Timers.timeouts (Plugin.timers p) = []
  end.

(** Some events of a session: the setting changes before the host has an
    editor and the pass that this schedules runs and throws; the document is
    edited, the poll fires once in vain and once with the editor of the
    nested document, and the pending pass runs. *)
Definition session : list Event :=
  [ SettingChanged;
    ImmediateFired (Doc.env Nested.doc None (Nested.forest false));
    ViewUpdated (mkViewUpdate true false false []);
    TimeoutFired None;
    ViewUpdated (mkViewUpdate false false false [false; true]);
    TimeoutFired (Some (Doc.editor Nested.doc None));
    ImmediateFired (Doc.env Nested.doc None (Nested.forest false)) ].

(** * Further vocabulary: forests *)

(** A forest as a parser builds it: a well-formed store in which no item
    lists a child twice, with distinct roots that have no parent. *)
Definition wfForest (h : Heap) (roots : list ListId) : Prop :=
  wfHeap h = true /\
  Forall (fun item => NoDup (children item)) h /\
  NoDup roots /\
  Forall (fun root => exists ritem,
            h !! root = Some ritem /\ parent ritem = None) roots.

(** The source items of some descriptors. *)
Definition sources (lines : list LineData.t) : list ListId :=
  LineData.list <$> lines.

(** * Further vocabulary: what a pass reads and writes *)

(** [this.lines] as the two loops of [calculate] leave it, before it is
    sorted: the descriptors in the order in which [recursive] pushed
    them. *)
Definition pushedLines (env : Env) (this : This.t)
  : Result (list LineData.t) :=
  if enabled env
  then
    ed <-- deref (This.editor this) ;;
    let '(h, lists) := parsed env ed in
    looped <-- forOf lists (rootStep env h)
                 (This.set_heap h (This.set_lines [] this)) ;;
    Ok (This.lines looped)
  else Ok [].

(** The fields the loops of [calculate] read and write, and those they
    leave alone. *)
Definition sameComputed (t1 t2 : This.t) : Prop :=
  This.editor t1 = This.editor t2 /\
  This.lines t1 = This.lines t2 /\
  This.lastLine t1 = This.lastLine t2.

Definition sameRest (t1 t2 : This.t) : Prop :=
  This.heap t1 = This.heap t2 /\
  This.lineElements t1 = This.lineElements t2 /\
  This.scroller_top t1 = This.scroller_top t2 /\
  This.contentContainer_height t1 = This.contentContainer_height t2 /\
  This.contentContainer_marginLeft t1 = This.contentContainer_marginLeft t2 /\
  This.contentContainer_marginTop t1 = This.contentContainer_marginTop t2.

(** * Properties *)

(** ** Reasoning about results and loops *)

Lemma bind_Ok {A B : Type} (r : Result A) (k : A -> Result B) (b : B) :
  bind r k = Ok b -> exists a, r = Ok a /\ k a = Ok b.
Proof. destruct r as [a|e]; simpl; [eauto | discriminate]. Qed.

Lemma deref_Ok {A : Type} (o : option A) (a : A) : deref o = Ok a -> o = Some a.
Proof. destruct o; simpl; congruence. Qed.

Lemma getItem_Ok (h : Heap) (lid : ListId) (item : ListItem) :
  getItem h lid = Ok item -> h !! lid = Some item.
Proof. apply deref_Ok. Qed.

(** Splits a hypothesis [x <-- r ;; k = Ok b] into its two steps. *)
Ltac bind_inv H :=
  let a := fresh "a" in
  let Ha := fresh "Ha" in
  apply bind_Ok in H; destruct H as (a & Ha & H).

Lemma forOf_cons {A S : Type} (x : A) (xs : list A)
    (body : A -> S -> Result S) (s : S) :
  forOf (x :: xs) body s = (s' <-- body x s ;; forOf xs body s').
Proof. reflexivity. Qed.

(** A loop that succeeds keeps every invariant its body keeps. *)
Lemma forOf_invariant {A S : Type} (I : S -> Prop) (body : A -> S -> Result S) :
  forall xs s s',
    (forall x t t', x ∈ xs -> I t -> body x t = Ok t' -> I t') ->
    I s -> forOf xs body s = Ok s' -> I s'.
Proof.
  induction xs as [|x xs IH]; intros s s' Hbody Hs Hrun; simpl in Hrun.
  - congruence.
  - bind_inv Hrun. apply (IH a s'); trivial.
    + intros y t t' Hy. apply Hbody. by right.
    + apply (Hbody x s a); trivial. by left.
Qed.

(** ** What [recursive] pushes *)

Lemma Qlt_bool_iff (x y : Q) : Qlt_bool x y = true <-> (x < y)%Q.
Proof.
  unfold Qlt_bool. rewrite negb_true_iff, <- not_true_iff_false, Qle_bool_iff.
  split; [apply Qnot_le_lt | apply Qlt_not_le].
Qed.

(** ** The rounding of a difference *)

(** [roundDouble] on some numbers whose doubles are known: one tenth; the
    tie between [2 ^ 53] and [2 ^ 53 + 2], which goes to the even
    significand; half of the smallest double, which goes to zero; and the
    difference of the doubles of 249.6 and 76.8, which is the double of
    172.8 and is larger than the exact difference. *)
Example roundDouble_known_values :
  roundDouble (1 # 10) = (3602879701896397 # 36028797018963968)%Q /\
  roundDouble (inject_Z (2 ^ 53 + 1)) = inject_Z (2 ^ 53) /\
  (roundDouble (2 ^ (-1075)) == 0)%Q /\
  numSub (roundDouble 249.6) (roundDouble 76.8) = roundDouble 172.8 /\
  (roundDouble 249.6 - roundDouble 76.8
     < numSub (roundDouble 249.6) (roundDouble 76.8))%Q.
Proof. repeat split; vm_compute; reflexivity. Qed.

Lemma roundHalfEven_nonneg (s : Q) : (0 <= s)%Q -> 0 <= roundHalfEven s.
Proof.
  intros Hs. apply Qfloor_resp_le in Hs. change (Qfloor 0) with 0 in Hs.
  unfold roundHalfEven. destruct (_ ?= _)%Q; [destruct (Z.even _)| |]; lia.
Qed.

(** Rounding keeps the sign: a number that rounds to a positive double is
    positive. *)
Lemma roundDouble_pos (x : Q) : (0 < roundDouble x)%Q -> (0 < x)%Q.
Proof.
  unfold roundDouble. destruct (Qeq_bool x 0); [done|].
  set (q := Z.max _ _). set (m := roundHalfEven _).
  destruct (Qeq_bool _ x); [done|]. rewrite Qred_correct. intros Hr.
  assert (Hq : (0 < 2 ^ q)%Q) by (by apply Qpower_0_lt).
  assert (Hm : 0 <= m).
  { apply roundHalfEven_nonneg. apply Qle_shift_div_l; [exact Hq|].
    rewrite Qmult_0_l. apply Qabs_nonneg. }
  assert (Hk : 0 < Z.sgn (Qnum x) * m).
  { apply Z.nle_gt. intros Hle. apply (Qlt_not_le _ _ Hr).
    rewrite <- (Qmult_0_l (2 ^ q)).
    apply Qmult_le_compat_r; [|by apply Qlt_le_weak].
    by rewrite <- (Zle_Qle _ 0). }
  unfold Qlt. simpl. nia.
Qed.

Lemma numSub_pos (x y : Q) : (0 < numSub x y)%Q -> (y < x)%Q.
Proof.
  intros H. apply roundDouble_pos in H.
  apply (Qplus_lt_l _ _ (- y)). by rewrite Qplus_opp_r.
Qed.

Section Pushed.
Variable env : Env.
Variable editor : option MyEditor.
Variable h : Heap.
Variable lastLine : Z.

Local Abbreviation extends := (extends env editor h lastLine).

Lemma extends_refl top lines : extends top lines lines.
Proof. exists []. split; [by rewrite app_nil_r | constructor]. Qed.

Lemma extends_trans top l1 l2 l3 :
  extends top l1 l2 -> extends top l2 l3 -> extends top l1 l3.
Proof.
  intros (n1 & -> & F1) (n2 & -> & F2). exists (n1 ++ n2).
  split; [by rewrite app_assoc | by apply Forall_app].
Qed.

Lemma extends_below top item c l1 l2 :
  h !! top = Some item -> c ∈ children item ->
  extends c l1 l2 -> extends top l1 l2.
Proof.
  intros Htop Hc (new & -> & F). exists new. split; [done|].
  eapply Forall_impl; [exact F|]. simpl. intros l [Hr Hem].
  split; [by eapply reach_child | exact Hem].
Qed.

Lemma connect_extends lid item lines lines' :
  h !! lid = Some item ->
  children item <> [] ->
  connect env editor h lastLine lid item lines = Ok lines' ->
  extends lid lines lines'.
Proof.
  intros Hitem Hch H. unfold connect in H.
  bind_inv H. apply deref_Ok in Ha. rename a into ed.
  bind_inv H. rename a into till, Ha0 into Htill.
  bind_inv H. destruct a as [vf vt]. rename Ha0 into Hbounds.
  destruct (_ || _) eqn:Hskip.
  { injection H as <-. apply extends_refl. }
  apply orb_false_iff in Hskip as [Hfrom Hto].
  destruct (_ && _) eqn:Hpush.
  2:{ injection H as <-. apply extends_refl. }
  apply andb_true_iff in Hpush as [Hheight Hfolded].
  bind_inv H. rename a into has, Ha0 into Hhas.
  injection H as <-.
  exists [LineData.mk (topOf env vf (fromOffsetOf ed item))
            (getIndentSize env item)
            (Calc (numSub (bottomOf env vt till)
                     (topOf env vf (fromOffsetOf ed item)))
               (margin has)) lid].
  split; [reflexivity|]. constructor; [|constructor].
  split; [apply reach_here|].
  exists ed. split; [assumption|].
  eapply emitted; eauto.
  - lia.
  - lia.
  - by apply Qlt_bool_iff.
  - by apply negb_true_iff.
Qed.

Lemma recursive_extends fuel :
  forall lid lines lines',
    recursive env editor h fuel lastLine lid lines = Ok lines' ->
    extends lid lines lines'.
Proof.
  induction fuel as [|fuel IH]; intros lid lines lines' H; simpl in H.
  - discriminate.
  - bind_inv H. apply getItem_Ok in Ha. rename a into item.
    destruct (length (children item) =? 0)%nat eqn:Hlen.
    + inversion H; subst. apply extends_refl.
    + bind_inv H. rename a into mid, Ha0 into Hloop.
      apply extends_trans with mid.
      * revert Hloop. apply (forOf_invariant (extends lid lines)).
        -- intros child t t' Hchild Ht Hbody.
           bind_inv Hbody. destruct (negb (empty a)).
           ++ apply extends_trans with t; [assumption|].
              eapply extends_below; eauto.
           ++ congruence.
        -- apply extends_refl.
      * eapply connect_extends; eauto.
        apply Nat.eqb_neq in Hlen. by destruct (children item).
Qed.
End Pushed.

(** ** [sort] permutes and [updateDom] leaves the lines alone *)

Lemma insertSorted_perm {A : Type} (compare : A -> A -> Q) (x : A) (l : list A) :
  insertSorted compare x l ≡ₚ x :: l.
Proof.
  induction l as [|y l IH]; simpl; [done|].
  destruct (Qle_bool _ _); [done|]. rewrite IH. apply Permutation_swap.
Qed.

Lemma sort_perm {A : Type} (compare : A -> A -> Q) (l : list A) :
  sort compare l ≡ₚ l.
Proof.
  induction l as [|x l IH]; simpl; [done|].
  unfold sort in *. simpl. by rewrite insertSorted_perm, IH.
Qed.

Lemma updateDom_sameModel (env : Env) (this this' : This.t) :
  updateDom env this = Ok this' -> sameModel this this'.
Proof.
  unfold updateDom. intros H. bind_inv H. rename a into mid.
  assert (Hmid : sameModel this mid).
  { revert Ha. apply forOf_invariant.
    - intros i t t' _ Ht Hbody. bind_inv Hbody. bind_inv Hbody.
      inversion Hbody; subst; clear Hbody.
      destruct (_ =? _)%nat; exact Ht.
    - by repeat split. }
  revert H. apply forOf_invariant.
  - intros i t t' _ Ht Hbody. bind_inv Hbody.
    inversion Hbody; subst; clear Hbody. exact Ht.
  - exact Hmid.
Qed.

(** ** What a recomputation pass produces *)

Lemma calculate_disabled (env : Env) (this this' : This.t) :
  enabled env = false ->
  calculate env this = Ok this' ->
  This.lines this' = [].
Proof.
  unfold calculate. intros Hoff H. rewrite Hoff in H. simpl in H.
  apply updateDom_sameModel in H. by destruct H as (_ & _ & _ & ->).
Qed.

Lemma calculate_enabled (env : Env) (this this' : This.t) :
  enabled env = true ->
  calculate env this = Ok this' ->
  exists ed unsorted,
    This.editor this = Some ed /\
    This.heap this' = fst (parsed env ed) /\
    This.lines this' = sort compareLines unsorted /\
    Forall (EmittedIn env ed (fst (parsed env ed)) (snd (parsed env ed)))
      unsorted.
Proof.
  unfold calculate. intros Hon H. rewrite Hon in H.
  bind_inv H. rename a into final, Ha into Hrun.
  apply updateDom_sameModel in H. destruct H as (_ & Hheap & _ & Hlines).
  bind_inv Hrun. apply deref_Ok in Ha. simpl in Ha. rename a into ed.
  fold (parsed env ed) in Hrun.
  destruct (parsed env ed) as [h lists] eqn:Hparsed.
  bind_inv Hrun. rename a into looped, Ha0 into Hloop.
  inversion Hrun; subst final; clear Hrun. simpl in *.
  exists ed, (This.lines looped).
  set (I := fun t : This.t =>
              This.editor t = Some ed /\ This.heap t = h /\
              Forall (EmittedIn env ed h lists) (This.lines t)).
  assert (HI : I looped).
  { revert Hloop. apply (forOf_invariant I).
    - intros root t t' Hroot Ht Hbody. bind_inv Hbody.
      apply getItem_Ok in Ha0. rename a into ritem.
      cut (I t' /\ This.lastLine t' = line (snd (range ritem))); [tauto|].
      revert Hbody.
      apply (forOf_invariant
               (fun u => I u /\ This.lastLine u = line (snd (range ritem)))).
      + intros c u u' Hchild [(Hed & Hh & Hall) Hlast] Hc.
        bind_inv Hc. inversion Hc; subst u'; clear Hc. simpl.
        rewrite Hed, Hlast in Ha1.
        apply recursive_extends in Ha1. destruct Ha1 as (new & -> & Hnew).
        repeat split; trivial.
        apply Forall_app. split; [assumption|].
        eapply Forall_impl; [exact Hnew|]. simpl.
        intros l (Hreach & ed' & Heq & Hem). inversion Heq; subst ed'.
        exists root, ritem. repeat split; trivial. by exists ritem, c.
      + destruct Ht as (Hed & Hh & Hall). by repeat split.
    - repeat split; simpl; trivial. }
  destruct HI as (Hed & Hh & Hall).
  rewrite Hheap, Hlines, Hparsed. by repeat split.
Qed.

(** Every descriptor a pass leaves in [lines] was pushed by [recursive]
    for an item of the forest parsed in that pass. *)
Lemma calculate_lines (env : Env) (this this' : This.t) (l : LineData.t) :
  calculate env this = Ok this' ->
  l ∈ This.lines this' ->
  exists ed,
    This.editor this = Some ed /\
    This.heap this' = fst (parsed env ed) /\
    EmittedIn env ed (fst (parsed env ed)) (snd (parsed env ed)) l.
Proof.
  intros Hcalc Hl. destruct (enabled env) eqn:Hen.
  - destruct (calculate_enabled _ _ _ Hen Hcalc)
      as (ed & unsorted & Hed & Hheap & Hlines & Hall).
    exists ed. repeat split; trivial.
    rewrite Hlines, sort_perm in Hl.
    by apply (proj1 (Forall_forall _ _) Hall).
  - rewrite (calculate_disabled _ _ _ Hen Hcalc) in Hl.
    by apply not_elem_of_nil in Hl.
Qed.

(** ** The scenarios of the specification *)

(** [- a / (2) - b / (2) - c / - d], everything visible, nothing folded, no
    zoom: exactly one connector, for [a], from the top of line 0 to the
    bottom of line 2, the line before [d]. *)
Example abcd_one_connector :
  This.lines
    (after (calculate (Doc.env Abcd.doc None (Abcd.forest false))
              (Doc.this (Some (Doc.editor Abcd.doc None)))))
  = [LineData.mk 0 (inject_Z 0 * spaceSize) (Calc (60 - 0) "- 1em") 1%nat].
Proof. vm_compute. reflexivity. Qed.

(** The same document with [a] folded: no connector. *)
Example abcd_folded_no_connector :
  This.lines
    (after (calculate (Doc.env Abcd.doc (Some (0, 2)) (Abcd.forest true))
              (Doc.this (Some (Doc.editor Abcd.doc None)))))
  = [].
Proof. vm_compute. reflexivity. Qed.

(** [- a / (2) - b / (4) - c / - d] with [a] folded: [b] and [c] are
    hidden, [a] and [b] report folded, and there is no connector. *)
Example nested_folded_no_connector :
  This.lines
    (after (calculate (Doc.env Nested.doc Nested.foldA (Nested.forest true))
              (Doc.this (Some (Doc.editor Nested.doc None)))))
  = [].
Proof. vm_compute. reflexivity. Qed.

(** The stores of the concrete documents are well formed. *)
Example fixtures_well_formed :
  wfHeap (Abcd.heap false) = true /\ wfHeap (Nested.heap true) = true /\
  wfHeap Grove.heap = true /\ wfHeap Abc.heap = true /\
  wfHeap Family.heap = true /\ wfHeap EmptyParent.heap = true.
Proof. repeat split; vm_compute; reflexivity. Qed.

(** ** C1: folded items *)

(** Below an item that reports folded, every item with children reports
    folded. *)
Lemma Reach_folded (h : Heap) (a d : ListId) :
  foldInherited h ->
  Reach h a d ->
  forall aitem ditem,
    h !! a = Some aitem -> folded aitem = true ->
    h !! d = Some ditem -> children ditem <> [] ->
    folded ditem = true.
Proof.
  intros Hinh Hreach.
  induction Hreach as [a | a c d item Ha Hc Hreach IH];
    intros aitem ditem Haitem Hfolded Hditem Hch.
  - congruence.
  - assert (item = aitem) by congruence. subst item.
    destruct (h !! c) as [citem|] eqn:Hcitem.
    + apply (IH citem ditem); trivial.
      apply (Hinh a aitem c citem); trivial.
      inversion Hreach as [|? c' ? citem' Hcitem' Hc' _]; subst.
      * congruence.
      * assert (citem' = citem) by congruence. subst citem'.
        intros Hnil. rewrite Hnil in Hc'. by apply not_elem_of_nil in Hc'.
    + inversion Hreach; subst; congruence.
Qed.

(** With the flags of the data model, what the host hides below an item
    it hides below each child of the item. *)
Lemma foldedMeansHidden_inherited (hidden : ListId -> Prop) (h : Heap) :
  foldedMeansHidden hidden h -> foldInherited h.
Proof.
  intros Hmodel pid pitem cid citem Hp Hc Hci Hf Hch.
  apply (Hmodel cid citem Hci Hch).
  intros d (citem' & c & Hci' & Hc' & Hreach).
  assert (Hpch : children pitem <> []).
  { intros Hnil. rewrite Hnil in Hc. by apply not_elem_of_nil in Hc. }
  apply (proj1 (Hmodel pid pitem Hp Hpch) Hf).
  exists pitem, cid. repeat split; trivial. by eapply reach_child.
Qed.

(** C1: a pass emits no descriptor whose source item reports folded, so a
    folded item [L] yields no connector; and on a forest whose fold flags
    are those of the data model ([folded] tells that the host hides the
    descendants of the item), neither does any proper descendant of [L],
    whether or not the host folds that descendant itself: what is below it
    is hidden together with what is below [L]. *)
Theorem folded_item_gets_no_connector
    (env : Env) (this this' : This.t) (lid : ListId) (item : ListItem)
    (hidden : ListId -> Prop) :
  calculate env this = Ok this' ->
  This.heap this' !! lid = Some item ->
  folded item = true ->
  Forall (fun l => LineData.list l <> lid) (This.lines this') /\
  (foldedMeansHidden hidden (This.heap this') ->
   Forall (fun l => ~ Descendant (This.heap this') lid (LineData.list l))
     (This.lines this')).
Proof.
  intros Hcalc Hitem Hfolded.
  assert (Hunfolded :
    forall l, l ∈ This.lines this' ->
      exists litem,
        This.heap this' !! LineData.list l = Some litem /\
        children litem <> [] /\
        folded litem = false).
  { intros l Hl.
    destruct (calculate_lines _ _ _ _ Hcalc Hl) as (ed & _ & Hheap & Hem).
    destruct Hem as (root & ritem & _ & _ & _ & Hem).
    rewrite <- Hheap in Hem. destruct Hem. simpl. eauto. }
  split.
  - apply Forall_forall. intros l Hl Heq.
    destruct (Hunfolded l Hl) as (litem & Hlitem & _ & Hl'). congruence.
  - intros Hmodel. apply foldedMeansHidden_inherited in Hmodel.
    apply Forall_forall.
    intros l Hl (item' & c & Hitem' & Hc & Hreach).
    destruct (Hunfolded l Hl) as (litem & Hlitem & Hch & Hl').
    assert (item' = item) by congruence. subst item'.
    assert (folded litem = true); [|congruence].
    apply (Reach_folded (This.heap this') lid (LineData.list l) Hmodel
             (reach_child _ _ _ _ _ Hitem Hc Hreach) item litem);
      assumption.
Qed.

(** In the grove the host hides [b] and [c], and the flags are those of the
    data model. *)
Lemma Grove_foldedMeansHidden :
  foldedMeansHidden (fun d => d = 2%nat \/ d = 3%nat) Grove.heap.
Proof.
  assert (Hleaf : forall a d, (a = 3 \/ a = 5)%nat ->
                    Reach Grove.heap a d -> d = a).
  { intros a d Ha Hr. inversion Hr as [|? c ? aitem Haitem Hc _]; subst; [done|].
    destruct Ha as [-> | ->]; simpl in Haitem; simplify_eq;
      by apply not_elem_of_nil in Hc. }
  assert (Hb : forall d, Reach Grove.heap 2%nat d -> d = 2%nat \/ d = 3%nat).
  { intros d Hr. inversion Hr as [|? c ? bitem Hbitem Hc Hr']; subst; [by left|].
    simpl in Hbitem. simplify_eq. apply list_elem_of_singleton in Hc. subst c.
    right. apply (Hleaf 3%nat); [by left | done]. }
  intros lid item Hitem Hch.
  destruct lid as [|[|[|[|[|[|lid]]]]]]; simpl in Hitem; simplify_eq;
    simpl in *.
  - split; [discriminate|]. intros Hall.
    destruct (Hall 1%nat) as [? | ?]; [|lia..].
    eexists _, 1%nat. split; [reflexivity|].
    split; [apply elem_of_cons; by left | apply reach_here].
  - split; [|done]. intros _ d (aitem & c & Haitem & Hc & Hr).
    simpl in Haitem. simplify_eq. apply list_elem_of_singleton in Hc.
    subst c. by apply Hb.
  - split; [|done]. intros _ d (bitem & c & Hbitem & Hc & Hr).
    simpl in Hbitem. simplify_eq. apply list_elem_of_singleton in Hc.
    subst c. right. apply (Hleaf 3%nat); [by left | done].
  - split; [discriminate|]. intros Hall.
    destruct (Hall 5%nat) as [? | ?]; [|lia..].
    eexists _, 5%nat. split; [reflexivity|].
    split; [apply list_elem_of_singleton; reflexivity | apply reach_here].
Qed.

Lemma folded_item_gets_no_connector_witness :
  This.lines
    (after (calculate (Doc.env Grove.doc Grove.foldA Grove.forest)
              (Doc.this (Some (Doc.editor Grove.doc None)))))
  = [LineData.mk 20 (inject_Z 0 * spaceSize) (Calc 40 "- 1.8em") 4%nat] /\
  Forall (fun l => LineData.list l <> 1%nat)
    (This.lines
       (after (calculate (Doc.env Grove.doc Grove.foldA Grove.forest)
                 (Doc.this (Some (Doc.editor Grove.doc None)))))) /\
  Forall (fun l => ~ Descendant Grove.heap 1%nat (LineData.list l))
    (This.lines
       (after (calculate (Doc.env Grove.doc Grove.foldA Grove.forest)
                 (Doc.this (Some (Doc.editor Grove.doc None)))))).
Proof.
  split; [vm_compute; reflexivity|].
  destruct (folded_item_gets_no_connector
              (Doc.env Grove.doc Grove.foldA Grove.forest)
              (Doc.this (Some (Doc.editor Grove.doc None)))
              (after (calculate (Doc.env Grove.doc Grove.foldA Grove.forest)
                        (Doc.this (Some (Doc.editor Grove.doc None)))))
              1%nat
              (mkListItem (Some 0%nat) [2]%nat (mkPos 0 2) ""
                 (mkPos 0 0, mkPos 2 7) true false)
              (fun d => d = 2%nat \/ d = 3%nat))
    as [Hself Hbelow].
  - vm_compute. reflexivity.
  - reflexivity.
  - reflexivity.
  - split; [exact Hself|]. apply Hbelow. exact Grove_foldedMeansHidden.
Defined.

(** ** C6: the lower document bound [tillOffset] *)

Lemma Following_unique (h : Heap) (lid : ListId) (r1 r2 : option ListId) :
  Following h lid r1 -> Following h lid r2 -> r1 = r2.
Proof.
  intros Hr1. revert r2.
  induction Hr1; intros r2 Hr2; destruct Hr2; simplify_eq; eauto.
Qed.

Lemma getNextSibling_loop_Following (h : Heap) (fuel : nat) :
  forall listTmp item r,
    h !! listTmp = Some item ->
    getNextSibling_loop h fuel listTmp (parent item) = Ok r ->
    Following h listTmp r.
Proof.
  induction fuel as [|fuel IH]; intros listTmp item r Hitem H.
  - destruct (parent item) eqn:Hp; simpl in H; [discriminate|].
    inversion H; subst. by eapply following_none.
  - destruct (parent item) as [pid|] eqn:Hp; simpl in H.
    + bind_inv H. apply getItem_Ok in Ha. rename a into pitem.
      destruct (getNextSiblingOf pitem listTmp) as [s|] eqn:Hs.
      * inversion H; subst. by eapply following_sibling.
      * eapply following_parent; eauto.
    + inversion H; subst. by eapply following_none.
Qed.

Lemma getNextSibling_Following (h : Heap) (lid : ListId) (r : option ListId) :
  getNextSibling h lid = Ok r -> Following h lid r.
Proof.
  unfold getNextSibling. intros H. bind_inv H. apply getItem_Ok in Ha.
  by eapply getNextSibling_loop_Following.
Qed.

(** C6, the claim as stated fails: in [- a / (2) - b / (4) - c / - d] the
    item [b] receives a connector and has no following sibling, yet its
    lower bound is not the offset of the last line of the root (line 3,
    offset 18) but the offset of line 2, the line before [d], the sibling
    that follows its parent [a]; the connector ends with line 2. *)
Lemma till_of_last_child_is_not_range_end :
  exists this' l item pitem,
    calculate (Doc.env Nested.doc None (Nested.forest false))
      (Doc.this (Some (Doc.editor Nested.doc None))) = Ok this' /\
    l ∈ This.lines this' /\ LineData.list l = 2%nat /\
    This.heap this' !! 2%nat = Some item /\ parent item = Some 1%nat /\
    This.heap this' !! 1%nat = Some pitem /\
    getNextSiblingOf pitem 2%nat = None /\
    This.lastLine this' = 3 /\
    tillOffset (This.heap this') (Doc.editor Nested.doc None) 3 2%nat = Ok 10 /\
    posToOffset (Doc.editor Nested.doc None) (mkPos 3 0) = 18 /\
    (LineData.top l + heightPx (LineData.height l) == 60)%Q.
Proof.
  eexists _, _, _, _. split; [vm_compute; reflexivity|].
  split; [apply elem_of_cons; right; apply list_elem_of_singleton; reflexivity|].
  repeat (split; [reflexivity|]). reflexivity.
Qed.

(** C6, amended: for every item that receives a connector, [tillOffset] is
    the offset of the line before the content start of the item that
    follows it, where the following item is its next sibling or, when it
    has none, the next sibling of its nearest ancestor that has one; only
    when no item up to the root has a next sibling is it the offset of the
    last line of the root being processed.  The connector's bottom is the
    block bottom taken at that bound (or at the visible end). *)
Theorem tillOffset_follows_nearest_sibling
    (env : Env) (this this' : This.t) (l : LineData.t) :
  calculate env this = Ok this' ->
  l ∈ This.lines this' ->
  exists ed root ritem following till vf vt,
    This.editor this = Some ed /\
    root ∈ snd (parsed env ed) /\
    This.heap this' !! root = Some ritem /\
    Descendant (This.heap this') root (LineData.list l) /\
    Following (This.heap this') (LineData.list l) following /\
    tillOffset (This.heap this') ed (line (snd (range ritem))) (LineData.list l)
      = Ok till /\
    match following with
    | Some s =>
        exists sitem,
          This.heap this' !! s = Some sitem /\
          till = posToOffset ed
                   {| line := line (firstLineContentStart sitem) - 1; ch := 0 |}
    | None =>
        till = posToOffset ed {| line := line (snd (range ritem)); ch := 0 |}
    end /\
    visibleBounds env ed = Ok (vf, vt) /\
    heightPx (LineData.height l) = numSub (bottomOf env vt till) (LineData.top l).
Proof.
  intros Hcalc Hl.
  destruct (calculate_lines _ _ _ _ Hcalc Hl) as (ed & Hed & Hheap & Hem).
  destruct Hem as (root & ritem & Hroot & Hritem & Hdesc & Hem).
  rewrite <- Hheap in *. clear Hheap.
  destruct Hem as [lid item till vf vt has Hitem _ Htill Hbounds _ _ _ _ _].
  simpl. pose proof Htill as Htill'. unfold tillOffset in Htill'.
  bind_inv Htill'. rename a into following.
  apply getNextSibling_Following in Ha.
  exists ed, root, ritem, following, till, vf, vt.
  repeat split; trivial.
  destruct following as [s|]; simpl in Htill'.
  - bind_inv Htill'. apply getItem_Ok in Ha0. exists a.
    split; [assumption | congruence].
  - congruence.
Qed.

Lemma tillOffset_follows_nearest_sibling_witness :
  exists ed root ritem following till vf vt,
    Some (Doc.editor Nested.doc None) = Some ed /\
    root ∈ snd (parsed (Doc.env Nested.doc None (Nested.forest false)) ed) /\
    Nested.heap false !! root = Some ritem /\
    Descendant (Nested.heap false) root 2%nat /\
    Following (Nested.heap false) 2%nat following /\
    tillOffset (Nested.heap false) ed (line (snd (range ritem))) 2%nat = Ok till /\
    match following with
    | Some s =>
        exists sitem,
          Nested.heap false !! s = Some sitem /\
          till = posToOffset ed
                   {| line := line (firstLineContentStart sitem) - 1; ch := 0 |}
    | None =>
        till = posToOffset ed {| line := line (snd (range ritem)); ch := 0 |}
    end /\
    visibleBounds (Doc.env Nested.doc None (Nested.forest false)) ed
      = Ok (vf, vt) /\
    heightPx (Calc 40 "- 1.8em")
    = numSub (bottomOf (Doc.env Nested.doc None (Nested.forest false)) vt till)
        20.
Proof.
  apply (tillOffset_follows_nearest_sibling
           (Doc.env Nested.doc None (Nested.forest false))
           (Doc.this (Some (Doc.editor Nested.doc None)))
           (after (calculate (Doc.env Nested.doc None (Nested.forest false))
                     (Doc.this (Some (Doc.editor Nested.doc None)))))
           (LineData.mk 20 (inject_Z 2 * spaceSize) (Calc 40 "- 1.8em") 2%nat)).
  - vm_compute. reflexivity.
  - apply elem_of_cons. right. apply list_elem_of_singleton.
    vm_compute. reflexivity.
Defined.

(** ** C2: the zoom range *)




(** ** C5: the pixel interval of a connector *)

(** The blocks of the plain host, without folds, go down the screen as
    offsets grow. *)
Lemma Doc_lineAt_ge (doc : list string) :
  forall off ln, ln <= fst (Doc.lineAt doc off ln).
Proof.
  induction doc as [|s doc IH]; intros off ln; simpl; [lia|].
  destruct (_ || _); simpl; [lia|].
  specialize (IH (off - Z.of_nat (String.length s) - 1) (ln + 1)). lia.
Qed.

Lemma Doc_lineAt_mono (doc : list string) :
  forall x y ln, x <= y -> fst (Doc.lineAt doc x ln) <= fst (Doc.lineAt doc y ln).
Proof.
  induction doc as [|s doc IH]; intros x y ln Hxy; simpl; [lia|].
  destruct (length doc =? 0)%nat eqn:Hlast.
  - rewrite !orb_true_r. simpl. lia.
  - rewrite !orb_false_r.
    destruct (x <=? _) eqn:Hx; destruct (y <=? _) eqn:Hy; simpl.
    + lia.
    + pose proof (Doc_lineAt_ge doc (y - Z.of_nat (String.length s) - 1) (ln + 1)).
      lia.
    + lia.
    + apply IH. lia.
Qed.

Lemma Doc_lineBlockAt_mono (doc : list string) (x y : Z) :
  x <= y ->
  (BlockInfo.top (Doc.lineBlockAt doc None x)
     <= BlockInfo.top (Doc.lineBlockAt doc None y))%Q /\
  (BlockInfo.bottom (Doc.lineBlockAt doc None x)
     <= BlockInfo.bottom (Doc.lineBlockAt doc None y))%Q.
Proof.
  intros Hxy. pose proof (Doc_lineAt_mono doc x y 0 Hxy) as Hm.
  unfold Doc.lineBlockAt, Doc.displayedLine, Doc.lineHeight. simpl.
  rewrite <- !Zle_Qle. lia.
Qed.

(** C5, the claim as stated fails: in the scenario zoomed on [b] and [c]
    the visible range starts at offset 4, whose block has its top at 20,
    while the connector of [a] has its top at -20, above it. *)
Lemma overscan_top_is_above_visible_range :
  exists this' l vf vt,
    calculate (Doc.env Abcd.doc None (Abcd.forest false))
      (Doc.this (Some (Doc.editor Abcd.doc (Some Abcd.zoomBC)))) = Ok this' /\
    l ∈ This.lines this' /\
    visibleBounds (Doc.env Abcd.doc None (Abcd.forest false))
      (Doc.editor Abcd.doc (Some Abcd.zoomBC)) = Ok (vf, vt) /\
    (LineData.top l
       < BlockInfo.top
           (lineBlockAt (Doc.env Abcd.doc None (Abcd.forest false)) vf))%Q.
Proof.
  eexists _, _, _, _. split; [vm_compute; reflexivity|].
  split; [apply list_elem_of_singleton; reflexivity|].
  split; [vm_compute; reflexivity|]. reflexivity.
Qed.

(** C5, the bottom half fails too, by the rounding of [bottom - top]: in
    [- a / (2) - b / (2) - c] on a host whose blocks are 57.6 pixels high
    and start at 76.8, the connector of [a] has the top of line 0 and the
    height that the engine computes from the bottom of line 2, the end of
    the visible range; top plus height comes out above that bottom. *)
Lemma rounded_height_passes_visible_bottom :
  exists this' l vf vt,
    calculate Abc.env (Doc.this (Some (Doc.editor Abc.doc None))) = Ok this' /\
    This.lines this' = [l] /\
    visibleBounds Abc.env (Doc.editor Abc.doc None) = Ok (vf, vt) /\
    (BlockInfo.bottom (lineBlockAt Abc.env vt)
       < LineData.top l + heightPx (LineData.height l))%Q.
Proof.
  eexists _, _, _, _. split; [vm_compute; reflexivity|].
  split; [reflexivity|]. split; [vm_compute; reflexivity|].
  vm_compute. reflexivity.
Qed.

(** C5, amended: on a host whose line blocks go down the screen as offsets
    grow, and whose item offsets are not negative, the top pixel of every
    emitted connector is never above the top of the block at the start of
    the visible range (restricted by the zoom range when present), except
    when that start is positive and the item's content starts at or before
    it: then the top is the fixed value -20.  Its height is the difference,
    as the engine rounds it, between that top and a bottom pixel that lies
    below the top and is never below the bottom of the block at the end of
    the range; so top plus height is never below the bottom of the range
    where that difference is exact, and otherwise is off that bottom pixel
    by the rounding of one subtraction. *)
Theorem connector_within_visible_range
    (env : Env) (this this' : This.t) (ed : MyEditor) (l : LineData.t) :
  (forall x y, x <= y ->
     (BlockInfo.top (lineBlockAt env x) <= BlockInfo.top (lineBlockAt env y))%Q /\
     (BlockInfo.bottom (lineBlockAt env x)
        <= BlockInfo.bottom (lineBlockAt env y))%Q) ->
  Forall (fun item => 0 <= fromOffsetOf ed item) (This.heap this') ->
  calculate env this = Ok this' ->
  This.editor this = Some ed ->
  l ∈ This.lines this' ->
  exists vf vt item bottom,
    visibleBounds env ed = Ok (vf, vt) /\
    This.heap this' !! LineData.list l = Some item /\
    heightPx (LineData.height l) = numSub bottom (LineData.top l) /\
    (LineData.top l < bottom)%Q /\
    (bottom <= BlockInfo.bottom (lineBlockAt env vt))%Q /\
    ((numSub bottom (LineData.top l) == bottom - LineData.top l)%Q ->
     (LineData.top l + heightPx (LineData.height l)
        <= BlockInfo.bottom (lineBlockAt env vt))%Q) /\
    ((0 < vf /\ fromOffsetOf ed item <= vf /\ LineData.top l = (-20)%Q) \/
     (BlockInfo.top (lineBlockAt env vf) <= LineData.top l)%Q).
Proof.
  intros Hmono Hnonneg Hcalc Hed Hl.
  destruct (calculate_lines _ _ _ _ Hcalc Hl) as (ed' & Hed' & Hheap & Hem).
  assert (ed' = ed) by congruence. subst ed'.
  destruct Hem as (root & ritem & _ & _ & _ & Hem).
  rewrite <- Hheap in *. clear Hheap.
  destruct Hem
    as [lid item till vf vt has Hitem _ _ Hbounds Hfrom Hto Hpos _ _].
  simpl. exists vf, vt, item, (bottomOf env vt till).
  apply numSub_pos in Hpos.
  assert (Hbottom :
    (bottomOf env vt till <= BlockInfo.bottom (lineBlockAt env vt))%Q).
  { unfold bottomOf. destruct (till >? vt) eqn:Hcmp; apply Hmono; lia. }
  repeat split; trivial.
  - intros Hexact. rewrite Hexact.
    assert (Hsum :
      (topOf env vf (fromOffsetOf ed item) +
         (bottomOf env vt till - topOf env vf (fromOffsetOf ed item))
       == bottomOf env vt till)%Q) by ring.
    by rewrite Hsum.
  - assert (Hfrom0 : 0 <= fromOffsetOf ed item).
    { apply (proj1 (Forall_forall _ _) Hnonneg).
      apply list_elem_of_lookup. by exists lid. }
    unfold topOf.
    destruct ((vf >? 0) && (fromOffsetOf ed item <=? vf)) eqn:Hover.
    + left. apply andb_true_iff in Hover as [H1 H2]. repeat split; lia.
    + right. apply Hmono. apply andb_false_iff in Hover as [H1|H1]; lia.
Qed.

Lemma connector_within_visible_range_witness :
  exists vf vt item bottom,
    visibleBounds (Doc.env Abcd.doc None (Abcd.forest false))
      (Doc.editor Abcd.doc (Some Abcd.zoomBC)) = Ok (vf, vt) /\
    Abcd.heap false !! 1%nat = Some item /\
    80%Q = numSub bottom (-20) /\
    (-20 < bottom)%Q /\
    (bottom <= BlockInfo.bottom (Doc.lineBlockAt Abcd.doc None vt))%Q /\
    ((numSub bottom (-20) == bottom - -20)%Q ->
     (-20 + 80 <= BlockInfo.bottom (Doc.lineBlockAt Abcd.doc None vt))%Q) /\
    ((0 < vf /\
      fromOffsetOf (Doc.editor Abcd.doc (Some Abcd.zoomBC)) item <= vf /\
      (-20)%Q = (-20)%Q) \/
     (BlockInfo.top (Doc.lineBlockAt Abcd.doc None vf) <= -20)%Q).
Proof.
  apply (connector_within_visible_range
           (Doc.env Abcd.doc None (Abcd.forest false))
           (Doc.this (Some (Doc.editor Abcd.doc (Some Abcd.zoomBC))))
           (after (calculate (Doc.env Abcd.doc None (Abcd.forest false))
                     (Doc.this (Some (Doc.editor Abcd.doc (Some Abcd.zoomBC))))))
           (Doc.editor Abcd.doc (Some Abcd.zoomBC))
           (LineData.mk (-20) (inject_Z 0 * spaceSize) (Calc 80 "- 1.8em") 1%nat)).
  - intros x y Hxy. apply (Doc_lineBlockAt_mono Abcd.doc x y Hxy).
  - repeat constructor; vm_compute; discriminate.
  - vm_compute. reflexivity.
  - reflexivity.
  - apply list_elem_of_singleton. vm_compute. reflexivity.
Defined.

(** ** C8: the order of the descriptors *)

Lemma Qminus_le_0 (x y : Q) : (x - y <= 0)%Q <-> (x <= y)%Q.
Proof.
  split; intros H.
  - apply (Qplus_le_l _ _ (- y)). by rewrite Qplus_opp_r.
  - apply (Qplus_le_l _ _ (- y)) in H. by rewrite Qplus_opp_r in H.
Qed.

Lemma compareLines_le (a b : LineData.t) :
  Qle_bool (compareLines a b) 0 = true <-> lineLe a b.
Proof.
  unfold compareLines, lineLe. rewrite Qle_bool_iff.
  destruct (Qeq_bool (LineData.top a) (LineData.top b)) eqn:Heq.
  - apply Qeq_bool_iff in Heq. rewrite Qminus_le_0. split.
    + intros H. right. by split.
    + intros [H|[_ H]]; [|done]. rewrite Heq in H. by apply Qlt_irrefl in H.
  - apply Qeq_bool_neq in Heq. rewrite Qminus_le_0. split.
    + intros H. left. apply Qle_lteq in H as [H|H]; [done | by destruct Heq].
    + intros [H|[H _]]; [by apply Qlt_le_weak | by destruct Heq].
Qed.

Lemma lineLe_total (a b : LineData.t) :
  Qle_bool (compareLines a b) 0 = false -> lineLe b a.
Proof.
  intros H. apply not_true_iff_false in H. rewrite compareLines_le in H.
  unfold lineLe in *.
  destruct (Q_dec (LineData.top a) (LineData.top b)) as [[Hlt|Hgt]|Heq].
  - destruct H. by left.
  - by left.
  - right. split; [by symmetry|].
    destruct (Qlt_le_dec (LineData.left a) (LineData.left b)) as [Hl|Hl];
      [|done].
    destruct H. right. split; [done | by apply Qlt_le_weak].
Qed.

Lemma lineLe_trans (a b c : LineData.t) : lineLe a b -> lineLe b c -> lineLe a c.
Proof.
  unfold lineLe. intros [H1|[H1 H1']] [H2|[H2 H2']].
  - left. by eapply Qlt_trans.
  - left. by rewrite <- H2.
  - left. by rewrite H1.
  - right. split; [by rewrite H1 | by eapply Qle_trans].
Qed.

Lemma insertSorted_sorted (x : LineData.t) (l : list LineData.t) :
  StronglySorted lineLe l -> StronglySorted lineLe (insertSorted compareLines x l).
Proof.
  induction 1 as [|y l Hl IH Hy]; simpl.
  - repeat constructor.
  - destruct (Qle_bool (compareLines x y) 0) eqn:Hxy.
    + apply compareLines_le in Hxy. constructor; [by constructor|].
      constructor; [done|].
      eapply Forall_impl; [exact Hy|]. intros z. by apply lineLe_trans.
    + apply lineLe_total in Hxy. constructor; [done|].
      rewrite insertSorted_perm. by constructor.
Qed.

Lemma sort_sorted (l : list LineData.t) :
  StronglySorted lineLe (sort compareLines l).
Proof.
  induction l as [|x l IH]; simpl; [constructor|].
  by apply insertSorted_sorted.
Qed.

(** C8: the descriptors a pass produces are the descriptors that
    [recursive] pushed, each as often as it was pushed, in ascending order
    of [top] and among equal [top]s in ascending order of [left]. *)
Theorem lines_sorted_by_top_then_left (env : Env) (this this' : This.t) :
  calculate env this = Ok this' ->
  exists pushed,
    pushedLines env this = Ok pushed /\
    This.lines this' ≡ₚ pushed /\
    StronglySorted lineLe (This.lines this').
Proof.
  intros Hcalc. unfold calculate, pushedLines in *.
  bind_inv Hcalc. rename a into final, Ha into Hrun.
  apply updateDom_sameModel in Hcalc. destruct Hcalc as (_ & _ & _ & ->).
  destruct (enabled env).
  - bind_inv Hrun. rename a into ed.
    cbn [This.editor This.set_lines] in Ha. rewrite Ha. cbn [bind].
    fold (parsed env ed) in Hrun.
    destruct (parsed env ed) as [h lists].
    bind_inv Hrun. rename a into looped, Ha0 into Hloop.
    injection Hrun as <-.
    change (forOf lists (rootStep env h)
              (This.set_heap h (This.set_lines [] this)) = Ok looped) in Hloop.
    rewrite Hloop. cbn [bind].
    exists (This.lines looped). split; [reflexivity|]. simpl.
    split; [apply sort_perm | apply sort_sorted].
  - injection Hrun as <-. exists []. repeat split; constructor.
Qed.

Lemma lines_sorted_by_top_then_left_witness :
  exists pushed,
    pushedLines (Doc.env Nested.doc None (Nested.forest false))
      (Doc.this (Some (Doc.editor Nested.doc None))) = Ok pushed /\
    [LineData.mk 0 (inject_Z 0 * spaceSize) (Calc 60 "- 1em") 1%nat;
     LineData.mk 20 (inject_Z 2 * spaceSize) (Calc 40 "- 1.8em") 2%nat]
      ≡ₚ pushed /\
    StronglySorted lineLe
      [LineData.mk 0 (inject_Z 0 * spaceSize) (Calc 60 "- 1em") 1%nat;
       LineData.mk 20 (inject_Z 2 * spaceSize) (Calc 40 "- 1.8em") 2%nat].
Proof.
  apply (lines_sorted_by_top_then_left
           (Doc.env Nested.doc None (Nested.forest false))
           (Doc.this (Some (Doc.editor Nested.doc None)))
           (after (calculate (Doc.env Nested.doc None (Nested.forest false))
                     (Doc.this (Some (Doc.editor Nested.doc None)))))).
  vm_compute. reflexivity.
Defined.

(** ** C9: the horizontal offset *)

Lemma countSpaces_indentUnits (tabSize : Z) (indent : string) :
  forall spaces,
    countSpaces tabSize indent spaces = spaces + indentUnits tabSize indent.
Proof.
  induction indent as [|char rest IH]; intros spaces; simpl; [lia|].
  destruct (Ascii.eqb char tab); rewrite IH; lia.
Qed.

Lemma getIndentSize_units (env : Env) (item : ListItem) :
  getIndentSize env item
  = (inject_Z (indentUnits (tabSize env) (firstLineIndent item)) * spaceSize)%Q.
Proof. unfold getIndentSize. by rewrite countSpaces_indentUnits. Qed.

(** C9: the [left] of every connector is the indent of its item in
    character units times the fixed width 4.5 of a character, a tab counting
    for the configured tab width and any other character for 1; with tab
    width 4 an indent of one tab is 4 units. *)
Theorem left_is_indent_units_times_width
    (env : Env) (this this' : This.t) (l : LineData.t) :
  calculate env this = Ok this' ->
  l ∈ This.lines this' ->
  (spaceSize == 9 # 2)%Q /\
  (exists item,
     This.heap this' !! LineData.list l = Some item /\
     LineData.left l
     = (inject_Z (indentUnits (tabSize env) (firstLineIndent item))
        * spaceSize)%Q) /\
  (forall item,
     tabSize env = 4 -> firstLineIndent item = String tab EmptyString ->
     indentUnits (tabSize env) (firstLineIndent item) = 4 /\
     getIndentSize env item = (inject_Z 4 * spaceSize)%Q).
Proof.
  intros Hcalc Hl. split; [reflexivity|]. split.
  - destruct (calculate_lines _ _ _ _ Hcalc Hl) as (ed & _ & Hheap & Hem).
    destruct Hem as (root & ritem & _ & _ & _ & Hem).
    rewrite <- Hheap in *. destruct Hem. simpl.
    eexists. split; [eassumption|]. apply getIndentSize_units.
  - intros item Htab Hindent.
    rewrite getIndentSize_units, Htab, Hindent. split; reflexivity.
Qed.

Lemma left_is_indent_units_times_width_witness :
  (spaceSize == 9 # 2)%Q /\
  (exists item,
     Nested.heap false !! 2%nat = Some item /\
     (inject_Z 2 * spaceSize)%Q
     = (inject_Z (indentUnits 4 (firstLineIndent item)) * spaceSize)%Q) /\
  (forall item,
     4 = 4 -> firstLineIndent item = String tab EmptyString ->
     indentUnits 4 (firstLineIndent item) = 4 /\
     getIndentSize (Doc.env Nested.doc None (Nested.forest false)) item
     = (inject_Z 4 * spaceSize)%Q).
Proof.
  apply (left_is_indent_units_times_width
           (Doc.env Nested.doc None (Nested.forest false))
           (Doc.this (Some (Doc.editor Nested.doc None)))
           (after (calculate (Doc.env Nested.doc None (Nested.forest false))
                     (Doc.this (Some (Doc.editor Nested.doc None)))))
           (LineData.mk 20 (inject_Z 2 * spaceSize) (Calc 40 "- 1.8em") 2%nat)).
  - vm_compute. reflexivity.
  - apply elem_of_cons. right. apply list_elem_of_singleton.
    vm_compute. reflexivity.
Defined.

(** ** C7: the pass when the overlay is off *)

Lemma hide_loop (this : This.t) :
  forall todo done,
    This.lineElements this = done ++ todo ->
    forOf (seq (length done) (length todo))
      (fun i this =>
         e <-- deref (This.lineElements this !! i) ;;
         Ok (This.set_lineElements
               (<[i := hideElement e]> (This.lineElements this)) this))
      this
    = Ok (This.set_lineElements (done ++ (hideElement <$> todo)) this).
Proof.
  intros todo. revert this.
  induction todo as [|e todo IH]; intros this done Hels; simpl.
  - rewrite app_nil_r, <- (app_nil_r done), <- Hels. by destruct this.
  - rewrite Hels. rewrite list_lookup_middle by done. simpl.
    rewrite insert_app_r_alt by done. rewrite Nat.sub_diag. simpl.
    specialize (IH (This.set_lineElements (done ++ hideElement e :: todo) this)
                  (done ++ [hideElement e])).
    rewrite length_app in IH. simpl in IH. rewrite Nat.add_1_r in IH.
    rewrite IH.
    + by rewrite <- app_assoc.
    + by rewrite <- app_assoc.
Qed.

(** C7: when the feature is disabled, or the default theme is not enabled,
    or the view has no viewport line blocks or no visible ranges, the pass
    does not fail, leaves no descriptor, and hides every element rendered
    before. *)
Theorem disabled_pass_clears_connectors (env : Env) (this : This.t) :
  listLines env = false \/ isDefaultThemeEnabled env = false \/
  viewportLineBlocks env = [] \/ visibleRanges env = [] ->
  exists this',
    calculate env this = Ok this' /\
    This.lines this' = [] /\
    This.lineElements this' = hideElement <$> This.lineElements this /\
    Forall (fun e => style_display e = "none"%string /\
                     style_height e = Px 0 /\
                     style_top e = Px 0 /\ style_left e = Px 0)
      (This.lineElements this').
Proof.
  intros Hoff.
  assert (Hen : enabled env = false).
  { unfold enabled.
    destruct Hoff as [-> | [-> | [-> | ->]]]; simpl;
      rewrite ?andb_false_r; reflexivity. }
  unfold calculate. rewrite Hen. simpl. unfold updateDom. simpl.
  rewrite Nat.sub_0_r.
  match goal with
  | |- context [forOf _ _ ?t] =>
      pose proof (hide_loop t (This.lineElements this) [] eq_refl) as Hloop
  end.
  simpl in Hloop. rewrite Hloop.
  eexists. split; [reflexivity|]. simpl.
  split; [reflexivity|]. split; [reflexivity|].
  apply Forall_fmap, Forall_true. by intros e.
Qed.

Lemma disabled_pass_clears_connectors_witness :
  exists this',
    calculate
      (mkEnv false ToggleFolding true 4 [] [(0, 19)] (0, 19)
         (Doc.lineBlockAt Abcd.doc None) (fun _ _ => Abcd.forest false)
         0 80 0 24)
      (This.mk None [] 0
         [LineData.mk 0 0 (Calc 60 "- 1em") 1%nat]
         [mkElement (Px 0) (Px 0) (Calc 60 "- 1em") "block" 0]
         None None None None)
    = Ok this' /\
    This.lines this' = [] /\
    This.lineElements this'
    = hideElement <$> [mkElement (Px 0) (Px 0) (Calc 60 "- 1em") "block" 0] /\
    Forall (fun e => style_display e = "none"%string /\
                     style_height e = Px 0 /\
                     style_top e = Px 0 /\ style_left e = Px 0)
      (This.lineElements this').
Proof.
  apply (disabled_pass_clears_connectors
           (mkEnv false ToggleFolding true 4 [] [(0, 19)] (0, 19)
              (Doc.lineBlockAt Abcd.doc None) (fun _ _ => Abcd.forest false)
              0 80 0 24)
           (This.mk None [] 0
              [LineData.mk 0 0 (Calc 60 "- 1em") 1%nat]
              [mkElement (Px 0) (Px 0) (Calc 60 "- 1em") "block" 0]
              None None None None)).
  left. reflexivity.
Defined.

(** ** C3, C4, C10: toggle-folding *)

Lemma toggle_loop (needToUnfold : bool) (ls : list Z) :
  forall host,
    forOf ls
      (fun l host =>
         if needToUnfold then Ok (Host.unfold l host) else Ok (Host.fold l host))
      host
    = Ok (applyToggle needToUnfold ls host).
Proof.
  induction ls as [|l ls IH]; intros [F z].
  - unfold applyToggle. cbn [forOf Host.foldedLines Host.zoomedLine].
    f_equal. f_equal. rewrite list_to_set_nil.
    destruct needToUnfold; apply leibniz_equiv; intros x;
      rewrite ?elem_of_difference, ?elem_of_union, elem_of_empty; tauto.
  - rewrite forOf_cons.
    destruct needToUnfold; cbn [bind]; rewrite IH; unfold applyToggle;
      cbn [Host.foldedLines Host.zoomedLine Host.unfold Host.fold];
      f_equal; f_equal; rewrite list_to_set_cons;
      apply leibniz_equiv; intros x;
      rewrite ?elem_of_difference, ?elem_of_union, ?elem_of_difference,
        ?elem_of_union, ?elem_of_singleton; tauto.
Qed.

Lemma nonEmptyChildren_elem (h : Heap) (item c : ListItem) :
  c ∈ nonEmptyChildren h item <->
  exists cid, cid ∈ children item /\ h !! cid = Some c /\ empty c = false.
Proof.
  unfold nonEmptyChildren. rewrite list_elem_of_filter, list_elem_of_omap.
  split.
  - intros (Hc & cid & Hcid & Hlook). by exists cid.
  - intros (cid & Hcid & Hlook & Hc). split; [done|]. by exists cid.
Qed.

Lemma collectToggles_loop (h : Heap) :
  forall cs acc,
    Forall (fun c => is_Some (h !! c)) cs ->
    forOf cs (collectStep h) acc
    = Ok (fst acc
          && forallb folded
               (filter (fun c => empty c = false) (omap (fun c => h !! c) cs)),
          snd acc
          ++ ((fun c => line (firstLineContentStart c))
                <$> filter (fun c => empty c = false)
                      (omap (fun c => h !! c) cs))).
Proof.
  induction cs as [|c cs IH]; intros [b ls] Halive.
  - simpl. by rewrite andb_true_r, app_nil_r.
  - inversion Halive as [|? ? [citem Hc] Hrest]; subst.
    rewrite forOf_cons. unfold collectStep at 1, getItem.
    cbn [omap list_omap]. rewrite Hc. cbn [deref bind fst snd].
    destruct (empty citem) eqn:Hempty; cbn [bind].
    + rewrite IH by done.
      rewrite filter_cons_False by (rewrite Hempty; done). done.
    + rewrite IH by done.
      rewrite filter_cons_True by done. cbn [fst snd fmap list_fmap forallb].
      rewrite <- app_assoc. cbn [app].
      destruct (folded citem); cbn [negb andb]; [done|].
      by rewrite andb_false_r.
Qed.

Lemma toggleFolding_effect (h : Heap) (line_ : LineData.t) (host : Host.t)
    (item : ListItem) :
  h !! LineData.list line_ = Some item ->
  empty item = false ->
  childrenAlive h item ->
  toggleFolding h line_ host
  = Ok (applyToggle (allFolded h item) (toggledLines h item) host).
Proof.
  intros Hitem Hempty Halive. unfold toggleFolding, getItem.
  rewrite Hitem. simpl. rewrite Hempty.
  unfold collectToggles. rewrite collectToggles_loop by done. simpl.
  apply toggle_loop.
Qed.

Lemma allFolded_true (h : Heap) (item : ListItem) :
  allFolded h item = true <->
  forall cid c,
    cid ∈ children item -> h !! cid = Some c -> empty c = false ->
    folded c = true.
Proof.
  unfold allFolded. rewrite forallb_forall. split.
  - intros H cid c Hcid Hc Hempty. apply H, list_elem_of_In.
    apply nonEmptyChildren_elem. eauto.
  - intros H c Hin. apply list_elem_of_In, nonEmptyChildren_elem in Hin.
    destruct Hin as (cid & ? & ? & ?). eauto.
Qed.

Lemma toggledLines_elem (h : Heap) (item : ListItem) (ln : Z) :
  ln ∈ toggledLines h item <->
  exists cid c,
    cid ∈ children item /\ h !! cid = Some c /\ empty c = false /\
    line (firstLineContentStart c) = ln.
Proof.
  unfold toggledLines. rewrite list_elem_of_fmap. split.
  - intros (c & -> & Hc). apply nonEmptyChildren_elem in Hc.
    destruct Hc as (cid & ? & ? & ?). eauto 10.
  - intros (cid & c & ? & ? & ? & <-). exists c. split; [done|].
    apply nonEmptyChildren_elem. eauto.
Qed.

(** C10: when the item a toggle-folding click resolves to is empty, the
    click changes nothing in the host, whatever children the item has. *)
Theorem toggle_on_empty_item_changes_nothing
    (env : Env) (this : This.t) (index : nat) (host : Host.t)
    (line_ : LineData.t) (item : ListItem) :
  listLineAction env = ToggleFolding ->
  This.lines this !! index = Some line_ ->
  This.heap this !! LineData.list line_ = Some item ->
  empty item = true ->
  onClick env this index host = Ok host /\
  toggleFolding (This.heap this) line_ host = Ok host.
Proof.
  intros Haction Hline Hitem Hempty.
  assert (Htoggle : toggleFolding (This.heap this) line_ host = Ok host).
  { unfold toggleFolding, getItem. rewrite Hitem. simpl. by rewrite Hempty. }
  split; [|exact Htoggle].
  unfold onClick. rewrite Haction, Hline. simpl. exact Htoggle.
Qed.

Lemma toggle_on_empty_item_changes_nothing_witness :
  onClick (Doc.env EmptyParent.doc None EmptyParent.forest)
    (after (calculate (Doc.env EmptyParent.doc None EmptyParent.forest)
              (Doc.this (Some (Doc.editor EmptyParent.doc None)))))
    0 Family.none
  = Ok Family.none /\
  toggleFolding EmptyParent.heap
    (LineData.mk 0 (inject_Z 0 * spaceSize) (Calc 60 "- 1.8em") 1%nat)
    Family.none
  = Ok Family.none.
Proof.
  apply (toggle_on_empty_item_changes_nothing
           (Doc.env EmptyParent.doc None EmptyParent.forest)
           (after (calculate (Doc.env EmptyParent.doc None EmptyParent.forest)
                     (Doc.this (Some (Doc.editor EmptyParent.doc None)))))
           0 Family.none
           (LineData.mk 0 (inject_Z 0 * spaceSize) (Calc 60 "- 1.8em") 1%nat)
           (mkListItem (Some 0%nat) [2]%nat (mkPos 0 2) ""
              (mkPos 0 0, mkPos 2 7) false true)).
  - reflexivity.
  - vm_compute. reflexivity.
  - reflexivity.
  - reflexivity.
Defined.

(** C3, the claim as stated fails: in [- / (2) - b / (4) - c] the first
    item is empty and its only child [b] is not empty and not folded; the
    click on the connector of the first item leaves [b] unfolded. *)
Lemma toggle_on_empty_item_folds_no_child :
  exists this' line_ item citem,
    calculate (Doc.env EmptyParent.doc None EmptyParent.forest)
      (Doc.this (Some (Doc.editor EmptyParent.doc None))) = Ok this' /\
    This.lines this' !! 0%nat = Some line_ /\
    This.heap this' !! LineData.list line_ = Some item /\
    2%nat ∈ children item /\
    This.heap this' !! 2%nat = Some citem /\
    empty citem = false /\ folded citem = false /\
    onClick (Doc.env EmptyParent.doc None EmptyParent.forest) this' 0
      Family.none = Ok Family.none /\
    Host.isFolded (line (firstLineContentStart citem)) Family.none = false.
Proof.
  eexists _, _, _, _. split; [vm_compute; reflexivity|].
  split; [reflexivity|]. split; [reflexivity|].
  split; [apply list_elem_of_singleton; reflexivity|].
  repeat (split; [reflexivity|]). reflexivity.
Qed.

(** C3, amended: for every item that is not itself empty, toggle-folding
    looks at the direct non-empty children only: if all of them are folded
    every one of them is unfolded, otherwise every one of them is folded, so
    every unfolded one becomes folded; no other line, and so no empty
    child, is folded or unfolded; without non-empty children nothing
    changes. *)
Theorem toggle_is_all_or_nothing
    (h : Heap) (line_ : LineData.t) (host : Host.t) (item : ListItem) :
  h !! LineData.list line_ = Some item ->
  empty item = false ->
  childrenAlive h item ->
  exists host',
    toggleFolding h line_ host = Ok host' /\
    ((forall cid c,
        cid ∈ children item -> h !! cid = Some c -> empty c = false ->
        folded c = true) ->
     forall cid c,
       cid ∈ children item -> h !! cid = Some c -> empty c = false ->
       Host.isFolded (line (firstLineContentStart c)) host' = false) /\
    (~ (forall cid c,
          cid ∈ children item -> h !! cid = Some c -> empty c = false ->
          folded c = true) ->
     forall cid c,
       cid ∈ children item -> h !! cid = Some c -> empty c = false ->
       Host.isFolded (line (firstLineContentStart c)) host' = true) /\
    (forall ln,
       (forall cid c,
          cid ∈ children item -> h !! cid = Some c -> empty c = false ->
          line (firstLineContentStart c) <> ln) ->
       Host.isFolded ln host' = Host.isFolded ln host) /\
    Host.zoomedLine host' = Host.zoomedLine host /\
    ((forall cid c, cid ∈ children item -> h !! cid = Some c -> empty c = true) ->
     host' = host).
Proof.
  intros Hitem Hempty Halive.
  exists (applyToggle (allFolded h item) (toggledLines h item) host).
  split; [by apply toggleFolding_effect|].
  pose proof (allFolded_true h item) as Hall.
  pose proof (toggledLines_elem h item) as Hlines.
  unfold applyToggle, Host.isFolded. simpl.
  split; [|split; [|split; [|split]]].
  - intros Hfolded cid c Hcid Hc Hc'. apply Hall in Hfolded. rewrite Hfolded.
    apply bool_decide_eq_false. rewrite elem_of_difference, elem_of_list_to_set.
    intros [_ Hnot]. apply Hnot, Hlines. eauto 10.
  - intros Hfolded cid c Hcid Hc Hc'.
    destruct (allFolded h item); [by destruct Hfolded; apply Hall|].
    apply bool_decide_eq_true. rewrite elem_of_union, elem_of_list_to_set.
    left. apply Hlines. eauto 10.
  - intros ln Hother.
    assert (Hnot : ln ∉ toggledLines h item).
    { rewrite Hlines. intros (cid & c & ? & ? & ? & ?). by eapply Hother. }
    apply bool_decide_ext. destruct (allFolded h item).
    + rewrite elem_of_difference, elem_of_list_to_set. tauto.
    + rewrite elem_of_union, elem_of_list_to_set. tauto.
  - reflexivity.
  - intros Hnone.
    assert (Hnil : toggledLines h item = []).
    { destruct (toggledLines h item) as [|ln ls] eqn:Hls; [done|].
      assert (Hin : ln ∈ ln :: ls) by (by left).
      apply Hlines in Hin. destruct Hin as (cid & c & Hcid & Hc & Hc' & _).
      rewrite (Hnone cid c Hcid Hc) in Hc'. discriminate. }
    rewrite Hnil, list_to_set_nil. destruct host as [F z].
    cbn [Host.foldedLines Host.zoomedLine]. f_equal.
    destruct (allFolded h item); apply leibniz_equiv; intros x;
      rewrite ?elem_of_difference, ?elem_of_union, elem_of_empty; tauto.
Qed.

Lemma toggle_is_all_or_nothing_witness :
  exists host',
    toggleFolding Family.heap Family.lineA Family.none = Ok host' /\
    Host.isFolded 1 host' = true /\ Host.isFolded 3 host' = true /\
    Host.isFolded 2 host' = false.
Proof.
  destruct (toggle_is_all_or_nothing Family.heap Family.lineA Family.none
              (mkListItem (Some 0%nat) [2; 4]%nat (mkPos 0 2) ""
                 (mkPos 0 0, mkPos 4 7) false false))
    as (host' & Hrun & _ & Hfold & Hother & _).
  - reflexivity.
  - reflexivity.
  - repeat constructor; eexists; reflexivity.
  - exists host'. split; [exact Hrun|].
    assert (Hmixed :
      ~ (forall cid c,
           cid ∈ [2; 4]%nat -> Family.heap !! cid = Some c -> empty c = false ->
           folded c = true)).
    { intros Hall.
      specialize (Hall 2%nat _ ltac:(by left) eq_refl eq_refl). discriminate. }
    split; [|split].
    + apply (Hfold Hmixed 2%nat _ ltac:(by left) eq_refl eq_refl).
    + apply (Hfold Hmixed 4%nat _ ltac:(by right; left) eq_refl eq_refl).
    + rewrite Hother; [reflexivity|].
      intros cid c Hcid Hc _. simpl in Hcid.
      apply elem_of_cons in Hcid as [->|Hcid].
      * inversion Hc. discriminate.
      * apply list_elem_of_singleton in Hcid as ->. inversion Hc. discriminate.
Defined.

Lemma reparse_lookup (host : Host.t) (h : Heap) (lid : ListId) :
  reparse host h !! lid = (fun item => refold item host) <$> h !! lid.
Proof. apply list_lookup_fmap. Qed.

Lemma nonEmptyChildren_reparse (host : Host.t) (h : Heap) (item : ListItem) :
  nonEmptyChildren (reparse host h) (refold item host)
  = (fun c => refold c host) <$> nonEmptyChildren h item.
Proof.
  unfold nonEmptyChildren. simpl.
  induction (children item) as [|cid cs IH]; [done|].
  cbn [omap list_omap]. rewrite reparse_lookup.
  destruct (h !! cid) as [c|]; simpl; [|exact IH].
  destruct (empty c) eqn:Hc.
  - rewrite !filter_cons_False by (simpl; rewrite ?Hc; done). exact IH.
  - rewrite !filter_cons_True by done. simpl. by rewrite IH.
Qed.

Lemma toggledLines_reparse (host : Host.t) (h : Heap) (item : ListItem) :
  toggledLines (reparse host h) (refold item host) = toggledLines h item.
Proof.
  unfold toggledLines. rewrite nonEmptyChildren_reparse, <- list_fmap_compose.
  done.
Qed.

Lemma allFolded_reparse (host : Host.t) (h : Heap) (item : ListItem) :
  allFolded (reparse host h) (refold item host)
  = forallb (fun ln => Host.isFolded ln host) (toggledLines h item).
Proof.
  unfold allFolded, toggledLines. rewrite nonEmptyChildren_reparse.
  induction (nonEmptyChildren h item) as [|c cs IH]; [done|].
  simpl. f_equal. exact IH.
Qed.

Lemma childrenAlive_reparse (host : Host.t) (h : Heap) (item : ListItem) :
  childrenAlive h item -> childrenAlive (reparse host h) (refold item host).
Proof.
  unfold childrenAlive. simpl. intros Halive.
  eapply Forall_impl; [exact Halive|]. simpl. intros cid [c Hc].
  rewrite reparse_lookup, Hc. by eexists.
Qed.

Lemma toggleFolding_reparse (host0 host : Host.t) (h : Heap)
    (line_ : LineData.t) (item : ListItem) :
  h !! LineData.list line_ = Some item ->
  empty item = false ->
  childrenAlive h item ->
  toggleFolding (reparse host0 h) line_ host
  = Ok (applyToggle
          (forallb (fun ln => Host.isFolded ln host0) (toggledLines h item))
          (toggledLines h item) host).
Proof.
  intros Hitem Hempty Halive.
  rewrite (toggleFolding_effect _ _ _ (refold item host0)).
  - by rewrite allFolded_reparse, toggledLines_reparse.
  - by rewrite reparse_lookup, Hitem.
  - done.
  - by apply childrenAlive_reparse.
Qed.

Lemma forallb_isFolded (host : Host.t) (ls : list Z) :
  forallb (fun ln => Host.isFolded ln host) ls = true <->
  forall ln, ln ∈ ls -> ln ∈ Host.foldedLines host.
Proof.
  rewrite forallb_forall. unfold Host.isFolded. split.
  - intros H ln Hln. apply list_elem_of_In, H in Hln.
    by apply bool_decide_eq_true in Hln.
  - intros H ln Hln. apply bool_decide_eq_true, H. by apply list_elem_of_In.
Qed.

(** C4, the claim as stated fails: in
    [- a / (2) - b / (4) - x / (2) - c / (4) - y / - d] with [b] folded and
    [c] not, two clicks on the connector of [a] leave [b] unfolded. *)
Lemma toggle_twice_from_mixed_state_unfolds :
  exists host2 b,
    toggleTwice Family.heap Family.lineA Family.onlyB = Ok host2 /\
    Family.heap !! 2%nat = Some b /\ empty b = false /\
    Host.isFolded (line (firstLineContentStart b)) Family.onlyB = true /\
    Host.isFolded (line (firstLineContentStart b)) host2 = false.
Proof.
  eexists _, _. split; [vm_compute; reflexivity|].
  repeat (split; [reflexivity|]). reflexivity.
Qed.

(** Without the rebuild in between, on the same stale tree, the second
    click repeats the first: from the state with nothing folded both [b]
    and [c] stay folded. *)
Example toggle_twice_on_stale_tree :
  (host1 <-- toggleFolding Family.heap Family.lineA Family.none ;;
   toggleFolding Family.heap Family.lineA host1)
  = Ok (Host.mk {[ 1; 3 ]} None).
Proof. vm_compute. reflexivity. Qed.

(** C4, amended: when the direct non-empty children of an item are all
    folded or all unfolded, two applications of toggle-folding in a row,
    the tree being rebuilt from the fold state of the host before each,
    bring the host back to the fold state it had, for every child. *)
Theorem toggle_twice_restores_uniform_state
    (h : Heap) (line_ : LineData.t) (host : Host.t) (item : ListItem) :
  h !! LineData.list line_ = Some item ->
  childrenAlive h item ->
  (forall cid c,
     cid ∈ children item -> h !! cid = Some c -> empty c = false ->
     Host.isFolded (line (firstLineContentStart c)) host = true) \/
  (forall cid c,
     cid ∈ children item -> h !! cid = Some c -> empty c = false ->
     Host.isFolded (line (firstLineContentStart c)) host = false) ->
  toggleTwice h line_ host = Ok host.
Proof.
  intros Hitem Halive Huniform. unfold toggleTwice.
  destruct (empty item) eqn:Hempty.
  { assert (Hnoop : forall host0 host1,
              toggleFolding (reparse host0 h) line_ host1 = Ok host1).
    { intros host0 host1. unfold toggleFolding, getItem.
      rewrite reparse_lookup, Hitem. simpl. by rewrite Hempty. }
    rewrite Hnoop. simpl. apply Hnoop. }
  rewrite (toggleFolding_reparse _ _ _ _ item) by done. simpl.
  rewrite (toggleFolding_reparse _ _ _ _ item) by done.
  pose proof (toggledLines_elem h item) as Hlines.
  pose proof (forallb_isFolded host (toggledLines h item)) as Hb1.
  set (ls := toggledLines h item) in *.
  set (b1 := forallb (fun ln => Host.isFolded ln host) ls) in *.
  pose proof (forallb_isFolded (applyToggle b1 ls host) ls) as Hb2.
  set (b2 := forallb (fun ln => Host.isFolded ln (applyToggle b1 ls host)) ls)
    in *.
  assert (Hcases :
    (forall ln, ln ∈ ls -> ln ∈ Host.foldedLines host) \/
    (forall ln, ln ∈ ls -> ln ∉ Host.foldedLines host)).
  { destruct Huniform as [Hall|Hnone]; [left|right]; intros ln Hln;
      apply Hlines in Hln; destruct Hln as (cid & c & Hcid & Hc & Hc' & <-).
    - specialize (Hall cid c Hcid Hc Hc'). unfold Host.isFolded in Hall.
      by apply bool_decide_eq_true in Hall.
    - specialize (Hnone cid c Hcid Hc Hc'). unfold Host.isFolded in Hnone.
      by apply bool_decide_eq_false in Hnone. }
  clearbody b1 b2. clear Hlines Huniform.
  destruct host as [F z]. unfold applyToggle in *. simpl in *.
  f_equal. f_equal. apply leibniz_equiv. intros x.
  destruct b1, b2; simpl in *.
  - pose proof (proj1 Hb2 eq_refl) as H2.
    rewrite elem_of_difference, elem_of_difference, elem_of_list_to_set.
    split; [tauto|]. intros Hx. repeat split; trivial;
      intros Hin; specialize (H2 x Hin);
      rewrite elem_of_difference, elem_of_list_to_set in H2; tauto.
  - pose proof (proj1 Hb1 eq_refl) as H1.
    rewrite elem_of_union, elem_of_difference, elem_of_list_to_set.
    split; [intros [Hx|[Hx _]]; auto|].
    intros Hx. destruct (decide (x ∈ ls)); auto.
  - rewrite elem_of_difference, elem_of_union, elem_of_list_to_set.
    destruct Hcases as [Hall|Hnone].
    + apply Hb1 in Hall. discriminate.
    + split; [tauto|]. intros Hx. split; [by right|].
      intros Hin. by apply (Hnone x Hin).
  - assert (Htrue : false = true); [|discriminate].
    apply Hb2. intros ln Hln.
    rewrite elem_of_union, elem_of_list_to_set. by left.
Qed.

Lemma toggle_twice_restores_uniform_state_witness :
  toggleTwice Family.heap Family.lineA Family.none = Ok Family.none.
Proof.
  apply (toggle_twice_restores_uniform_state Family.heap Family.lineA Family.none
           (mkListItem (Some 0%nat) [2; 4]%nat (mkPos 0 2) ""
              (mkPos 0 0, mkPos 4 7) false false)).
  - reflexivity.
  - repeat constructor; eexists; reflexivity.
  - right. intros cid c _ _ _. reflexivity.
Defined.

(** ** Well-formed stores: the pass runs to its end *)

Lemma wfHeap_item (h : Heap) (lid : ListId) (item : ListItem) :
  wfHeap h = true -> h !! lid = Some item -> wfItem h lid item = true.
Proof.
  unfold wfHeap. rewrite forallb_forall. intros Hwf Hitem.
  specialize (Hwf lid). rewrite Hitem in Hwf. apply Hwf.
  apply in_seq. apply lookup_lt_Some in Hitem. lia.
Qed.

Lemma wfHeap_child (h : Heap) (lid c : ListId) (item : ListItem) :
  wfHeap h = true -> h !! lid = Some item -> c ∈ children item ->
  (lid < c)%nat /\ exists citem, h !! c = Some citem /\ parent citem = Some lid.
Proof.
  intros Hwf Hitem Hc. pose proof (wfHeap_item _ _ _ Hwf Hitem) as Hi.
  unfold wfItem in Hi. apply andb_true_iff in Hi as [Hi _].
  rewrite forallb_forall in Hi. apply list_elem_of_In, Hi in Hc.
  unfold wfChild in Hc. apply andb_true_iff in Hc as [Hlt Hc].
  apply Nat.ltb_lt in Hlt. split; [done|].
  destruct (h !! c) as [citem|]; [|discriminate].
  exists citem. split; [done|]. by apply bool_decide_eq_true in Hc.
Qed.

Lemma wfHeap_parent (h : Heap) (lid pid : ListId) (item : ListItem) :
  wfHeap h = true -> h !! lid = Some item -> parent item = Some pid ->
  (pid < lid)%nat /\ is_Some (h !! pid).
Proof.
  intros Hwf Hitem Hp. pose proof (wfHeap_item _ _ _ Hwf Hitem) as Hi.
  unfold wfItem in Hi. apply andb_true_iff in Hi as [_ Hi].
  rewrite Hp in Hi. simpl in Hi. apply Nat.ltb_lt in Hi. split; [done|].
  apply lookup_lt_is_Some. apply lookup_lt_Some in Hitem. lia.
Qed.

Lemma nextAfter_elem (child s : ListId) (cs : list ListId) :
  nextAfter child cs = Some s -> s ∈ cs.
Proof.
  induction cs as [|c cs IH]; simpl; [discriminate|].
  destruct (decide (c = child)).
  - destruct cs; simpl; [discriminate|]. intros [= ->]. right. by left.
  - intros H. right. by apply IH.
Qed.

Lemma Following_alive (h : Heap) (lid s : ListId) :
  wfHeap h = true -> Following h lid (Some s) -> is_Some (h !! s).
Proof.
  intros Hwf H. remember (Some s) as r eqn:Hr.
  induction H as [| lid pid s' item pitem Hitem Hp Hpitem Hs | ]; subst.
  - discriminate.
  - inversion Hr; subst. apply nextAfter_elem in Hs.
    destruct (wfHeap_child _ _ _ _ Hwf Hpitem Hs) as (_ & citem & -> & _).
    by eexists.
  - by apply IHFollowing.
Qed.

(** A loop whose body never throws never throws. *)
Lemma forOf_total {A S : Type} (I : S -> Prop) (body : A -> S -> Result S) :
  forall xs s,
    (forall x t, x ∈ xs -> I t -> exists t', body x t = Ok t' /\ I t') ->
    I s -> exists s', forOf xs body s = Ok s' /\ I s'.
Proof.
  induction xs as [|x xs IH]; intros s Hbody Hs; simpl.
  - by exists s.
  - destruct (Hbody x s) as (t & -> & Ht); [by left | done |]. simpl.
    apply IH; [|done]. intros y u Hy. apply Hbody. by right.
Qed.

Section Total.
Variable env : Env.
Variable ed : MyEditor.
Variable h : Heap.
Hypothesis Hwf : wfHeap h = true.
Hypothesis Hranges : visibleRanges env <> [].

Lemma getNextSibling_loop_total (fuel : nat) :
  forall listTmp p,
    match p with
    | Some pid => (pid < fuel)%nat /\ is_Some (h !! pid)
    | None => True
    end ->
    exists r, getNextSibling_loop h fuel listTmp p = Ok r.
Proof.
  induction fuel as [|fuel IH]; intros listTmp [pid|] Hp;
    cbn [getNextSibling_loop]; try (by eexists).
  - destruct Hp as [Hp _]. lia.
  - destruct Hp as [Hlt [pitem Hpitem]]. unfold getItem. rewrite Hpitem.
    cbn [deref bind].
    destruct (getNextSiblingOf pitem listTmp); [by eexists|].
    apply IH. destruct (parent pitem) as [ppid|] eqn:Hpp; [|done].
    destruct (wfHeap_parent _ _ _ _ Hwf Hpitem Hpp). split; [lia | done].
Qed.

Lemma getNextSibling_total (lid : ListId) :
  is_Some (h !! lid) -> exists r, getNextSibling h lid = Ok r.
Proof.
  intros [item Hitem]. unfold getNextSibling, getItem. rewrite Hitem. simpl.
  apply getNextSibling_loop_total.
  destruct (parent item) as [pid|] eqn:Hp; [|done].
  destruct (wfHeap_parent _ _ _ _ Hwf Hitem Hp) as [Hlt Hsome].
  split; [|done]. apply lookup_lt_Some in Hitem. lia.
Qed.

Lemma tillOffset_total (lastLine : Z) (lid : ListId) :
  is_Some (h !! lid) -> exists till, tillOffset h ed lastLine lid = Ok till.
Proof.
  intros Hlid. destruct (getNextSibling_total lid Hlid) as [r Hr].
  unfold tillOffset. rewrite Hr. simpl.
  destruct r as [s|]; simpl; [|by eexists].
  apply getNextSibling_Following in Hr.
  destruct (Following_alive _ _ _ Hwf Hr) as [sitem Hs].
  unfold getItem. rewrite Hs. simpl. by eexists.
Qed.

Lemma visibleBounds_total : exists vf vt, visibleBounds env ed = Ok (vf, vt).
Proof.
  unfold visibleBounds.
  destruct (visibleRanges env) as [|r rs] eqn:Hvr; [done|]. simpl.
  assert (Hlast : is_Some (last (r :: rs))).
  { apply last_is_Some. done. }
  destruct Hlast as [final ->]. simpl.
  destruct (getZoomRange ed) as [[zfrom zto]|]; by eexists _, _.
Qed.

Lemma connect_total (lastLine : Z) (lid : ListId) (item : ListItem)
    (lines : list LineData.t) :
  h !! lid = Some item -> parent item <> None ->
  exists lines', connect env (Some ed) h lastLine lid item lines = Ok lines'.
Proof.
  intros Hitem Hparent. unfold connect. simpl.
  destruct (tillOffset_total lastLine lid) as [till ->]; [by eexists|]. simpl.
  destruct visibleBounds_total as (vf & vt & ->). simpl.
  destruct (_ || _); [by eexists|].
  destruct (_ && _); [|by eexists].
  unfold hasNextSiblingOf.
  destruct (parent item) as [pid|] eqn:Hp; [|done]. simpl.
  destruct (wfHeap_parent _ _ _ _ Hwf Hitem Hp) as [_ [pitem Hpitem]].
  unfold getItem. rewrite Hpitem. simpl.
  destruct (getNextSiblingOf pitem lid) as [s|] eqn:Hs; simpl; [|by eexists].
  apply nextAfter_elem in Hs.
  destruct (wfHeap_child _ _ _ _ Hwf Hpitem Hs) as (_ & sitem & -> & _).
  simpl. by eexists.
Qed.

Lemma recursive_total (lastLine : Z) (fuel : nat) :
  forall lid item lines,
    h !! lid = Some item -> parent item <> None ->
    (length h - lid <= fuel)%nat ->
    exists lines', recursive env (Some ed) h fuel lastLine lid lines = Ok lines'.
Proof.
  induction fuel as [|fuel IH]; intros lid item lines Hitem Hparent Hfuel.
  - apply lookup_lt_Some in Hitem. lia.
  - simpl. unfold getItem at 1. rewrite Hitem. simpl.
    destruct (length (children item) =? 0)%nat; [by eexists|].
    destruct (forOf_total (fun _ => True)
                (fun child lines =>
                   citem <-- getItem h child ;;
                   if negb (empty citem)
                   then recursive env (Some ed) h fuel lastLine child lines
                   else Ok lines)
                (children item) lines) as (mid & -> & _); [|done|].
    + intros c t Hc _.
      destruct (wfHeap_child _ _ _ _ Hwf Hitem Hc) as (Hlt & citem & Hcitem & Hcp).
      unfold getItem. rewrite Hcitem. simpl.
      destruct (negb (empty citem)); [|by eexists].
      destruct (IH c citem t Hcitem) as [t' Ht']; [congruence | lia |].
      by exists t'.
    + simpl. by apply connect_total.
Qed.
End Total.

Lemma show_loop_total (n : nat) :
  forall k this,
    (k <= length (This.lineElements this))%nat ->
    (k + n <= length (This.lines this))%nat ->
    exists this',
      forOf (seq k n)
        (fun i this =>
           let this :=
             if (length (This.lineElements this) =? i)%nat
             then This.set_lineElements
                    (This.lineElements this ++ [createElement i]) this
             else this in
           l <-- deref (This.lines this !! i) ;;
           e <-- deref (This.lineElements this !! i) ;;
           Ok (This.set_lineElements
                 (<[i := showElement l e]> (This.lineElements this)) this))
        this = Ok this' /\
      This.lines this' = This.lines this /\
      (k + n <= length (This.lineElements this'))%nat.
Proof.
  induction n as [|n IH]; intros k this Hk Hn.
  - exists this. simpl. repeat split; lia.
  - cbn [seq]. rewrite forOf_cons.
    set (this1 :=
           if (length (This.lineElements this) =? k)%nat
           then This.set_lineElements
                  (This.lineElements this ++ [createElement k]) this
           else this).
    assert (Hlines1 : This.lines this1 = This.lines this).
    { subst this1. by destruct (_ =? _)%nat. }
    assert (Hels1 : (k < length (This.lineElements this1))%nat).
    { subst this1. destruct (_ =? _)%nat eqn:Heq; simpl.
      - rewrite length_app. simpl. lia.
      - apply Nat.eqb_neq in Heq. lia. }
    destruct (lookup_lt_is_Some_2 (This.lines this1) k) as [l Hl];
      [rewrite Hlines1; lia|].
    destruct (lookup_lt_is_Some_2 (This.lineElements this1) k) as [e He];
      [done|].
    cbv zeta. fold this1. rewrite Hl, He. cbn [deref bind].
    destruct (IH (S k)
                (This.set_lineElements
                   (<[k := showElement l e]> (This.lineElements this1)) this1))
      as (this' & Hrun & Hlines' & Hels').
    + simpl. rewrite length_insert. lia.
    + simpl. rewrite Hlines1. lia.
    + exists this'. split; [exact Hrun|]. simpl in Hlines'.
      split; [congruence | lia].
Qed.

Lemma updateDom_total (env : Env) (this : This.t) :
  exists this', updateDom env this = Ok this'.
Proof.
  unfold updateDom.
  match goal with
  | |- context [forOf (seq 0 _) ?body ?t] =>
      destruct (show_loop_total (length (This.lines t)) 0 t)
        as (mid & Hmid & Hlines & Hels); [lia | lia |]
  end.
  simpl in Hmid. simpl. rewrite Hmid. cbn [bind]. simpl in Hlines, Hels.
  pose proof (hide_loop mid
                (drop (length (This.lines mid)) (This.lineElements mid))
                (take (length (This.lines mid)) (This.lineElements mid))
                (eq_sym (take_drop _ _))) as Hhide.
  rewrite length_take, length_drop in Hhide.
  rewrite Nat.min_l in Hhide by (rewrite Hlines; lia).
  rewrite Hhide. by eexists.
Qed.

(** X7: on a well-formed forest, with the editor attached, a pass runs to
    its end: it neither throws nor runs out of fuel. *)
Theorem calculate_total (env : Env) (this : This.t) (ed : MyEditor) :
  This.editor this = Some ed ->
  wfHeap (fst (parsed env ed)) = true ->
  Forall (fun root => is_Some (fst (parsed env ed) !! root))
    (snd (parsed env ed)) ->
  exists this', calculate env this = Ok this'.
Proof.
  intros Hed Hwf Hroots. unfold calculate.
  destruct (enabled env) eqn:Hen; [|apply updateDom_total].
  assert (Hranges : visibleRanges env <> []).
  { unfold enabled in Hen. apply andb_true_iff in Hen as [_ Hen].
    destruct (visibleRanges env); [discriminate | done]. }
  cbn [This.editor This.set_lines]. rewrite Hed. cbn [deref bind].
  fold (parsed env ed). destruct (parsed env ed) as [h lists]. simpl in *.
  match goal with
  | |- context [forOf lists ?body ?t] =>
      destruct (forOf_total (fun u => This.editor u = Some ed) body lists t)
        as (looped & -> & _)
  end.
  - intros root t Hroot Ht.
    apply (proj1 (Forall_forall _ _) Hroots) in Hroot as [ritem Hritem].
    unfold getItem. rewrite Hritem. cbn [deref bind].
    apply forOf_total; [|done].
    intros c u Hc Hu.
    destruct (wfHeap_child _ _ _ _ Hwf Hritem Hc) as (_ & citem & Hcitem & Hcp).
    rewrite Hu.
    destruct (recursive_total env ed h Hwf Hranges (This.lastLine u) (length h)
                c citem (This.lines u) Hcitem) as [ls ->];
      [congruence | lia |].
    cbn [bind]. eexists. split; [reflexivity | exact Hu].
  - done.
  - cbn [bind]. apply updateDom_total.
Qed.

Lemma calculate_total_witness :
  exists this',
    calculate (Doc.env Nested.doc None (Nested.forest false))
      (Doc.this (Some (Doc.editor Nested.doc None))) = Ok this'.
Proof.
  apply (calculate_total (Doc.env Nested.doc None (Nested.forest false))
           (Doc.this (Some (Doc.editor Nested.doc None)))
           (Doc.editor Nested.doc None)).
  - reflexivity.
  - vm_compute. reflexivity.
  - repeat constructor. eexists. reflexivity.
Defined.

(** * More properties of the recomputation pass *)

(** ** Which items get a connector *)

Lemma visited_refl (h : Heap) (top : ListId) (lines : list LineData.t) :
  visited h top lines lines.
Proof. exists []. split; [by rewrite app_nil_r | constructor]. Qed.

Lemma visited_trans (h : Heap) (top : ListId) (l1 l2 l3 : list LineData.t) :
  visited h top l1 l2 -> visited h top l2 l3 -> visited h top l1 l3.
Proof.
  intros (n1 & -> & F1) (n2 & -> & F2). exists (n1 ++ n2).
  split; [by rewrite app_assoc | by apply Forall_app].
Qed.

Lemma connect_visited (env : Env) (editor : option MyEditor) (h : Heap)
    (lastLine : Z) (lid : ListId) (item : ListItem)
    (lines lines' : list LineData.t) :
  connect env editor h lastLine lid item lines = Ok lines' ->
  lines' = lines \/
  exists l, lines' = lines ++ [l] /\ LineData.list l = lid.
Proof.
  unfold connect. intros H. bind_inv H. bind_inv H. bind_inv H.
  destruct a1 as [vf vt]. destruct (_ || _); [left; congruence|].
  destruct (_ && _); [|left; congruence].
  bind_inv H. injection H as <-. right. by eexists.
Qed.

Lemma recursive_visited (env : Env) (editor : option MyEditor) (h : Heap)
    (lastLine : Z) (fuel : nat) :
  forall lid lines lines',
    recursive env editor h fuel lastLine lid lines = Ok lines' ->
    visited h lid lines lines'.
Proof.
  induction fuel as [|fuel IH]; intros lid lines lines' H; simpl in H.
  - discriminate.
  - bind_inv H. apply getItem_Ok in Ha. rename a into item.
    destruct (length (children item) =? 0)%nat.
    + injection H as <-. apply visited_refl.
    + bind_inv H. rename a into mid, Ha0 into Hloop.
      apply visited_trans with mid.
      * revert Hloop. apply (forOf_invariant (visited h lid lines)).
        -- intros child t t' Hchild Ht Hbody.
           bind_inv Hbody. apply getItem_Ok in Ha0. rename a into citem.
           destruct (empty citem) eqn:Hempty; simpl in Hbody.
           ++ congruence.
           ++ apply visited_trans with t; [assumption|].
              apply IH in Hbody. destruct Hbody as (new & -> & Hnew).
              exists new. split; [done|].
              eapply Forall_impl; [exact Hnew|]. simpl. intros l Hl.
              by eapply visits_child.
        -- apply visited_refl.
      * apply connect_visited in H. destruct H as [-> | (l & -> & Hl)].
        -- apply visited_refl.
        -- exists [l]. split; [done|]. constructor; [|constructor].
           rewrite Hl. apply visits_here.
Qed.

Lemma Visits_not_empty (h : Heap) (a d : ListId) :
  Visits h a d ->
  a = d \/ exists ditem, h !! d = Some ditem /\ empty ditem = false.
Proof.
  induction 1 as [a | a c d item citem Ha Hc Hcitem Hempty Hvisits IH].
  - by left.
  - right. destruct IH as [<- | IH]; [by exists citem | exact IH].
Qed.

(** The loops of [calculate], one run of [recursive] after the other:
    [lines'] is reached from [lines] by running [recursive] on every child
    of every root of [roots]. *)
Lemma calculate_loops (env : Env) (ed : MyEditor) (h : Heap)
    (I : list LineData.t -> Prop) :
  forall roots this looped,
    This.editor this = Some ed ->
    (forall root ritem c lines lines',
       root ∈ roots -> h !! root = Some ritem -> c ∈ children ritem ->
       I lines ->
       recursive env (Some ed) h (length h) (line (snd (range ritem))) c lines
       = Ok lines' ->
       I lines') ->
    I (This.lines this) ->
    forOf roots
      (fun root this =>
         ritem <-- getItem h root ;;
         let this := This.set_lastLine (line (snd (range ritem))) this in
         forOf (children ritem)
           (fun c this =>
              ls <-- recursive env (This.editor this) h (length h)
                       (This.lastLine this) c (This.lines this) ;;
              Ok (This.set_lines ls this))
           this)
      this = Ok looped ->
    I (This.lines looped).
Proof.
  intros roots this looped Hed Hstep Hinit Hloop.
  cut (This.editor looped = Some ed /\ I (This.lines looped)); [tauto|].
  revert Hloop.
  apply (forOf_invariant
           (fun t => This.editor t = Some ed /\ I (This.lines t))); [|done].
  intros root t t' Hroot Ht Hbody. bind_inv Hbody.
  apply getItem_Ok in Ha. rename a into ritem.
  cut ((This.editor t' = Some ed /\ I (This.lines t')) /\
       This.lastLine t' = line (snd (range ritem))); [tauto|].
  revert Hbody.
  apply (forOf_invariant
           (fun u => (This.editor u = Some ed /\ I (This.lines u)) /\
                     This.lastLine u = line (snd (range ritem)))).
  - intros c u u' Hc [[Hu HIu] Hlast] Hrun. bind_inv Hrun.
    injection Hrun as <-. simpl. rewrite Hu, Hlast in Ha0.
    repeat split; trivial. by eapply Hstep.
  - destruct Ht. by repeat split.
Qed.

(** What an enabled pass leaves in [lines]: the sorted result of the
    loops. *)
Lemma calculate_enabled_lines (env : Env) (this this' : This.t)
    (I : list LineData.t -> Prop) :
  enabled env = true ->
  calculate env this = Ok this' ->
  exists ed unsorted,
    This.editor this = Some ed /\
    This.lines this' = sort compareLines unsorted /\
    ((forall root ritem c lines lines',
        root ∈ snd (parsed env ed) ->
        fst (parsed env ed) !! root = Some ritem -> c ∈ children ritem ->
        I lines ->
        recursive env (Some ed) (fst (parsed env ed))
          (length (fst (parsed env ed))) (line (snd (range ritem))) c lines
        = Ok lines' ->
        I lines') ->
     I [] -> I unsorted).
Proof.
  unfold calculate. intros Hon H. rewrite Hon in H.
  bind_inv H. rename a into final, Ha into Hrun.
  apply updateDom_sameModel in H. destruct H as (_ & _ & _ & Hlines).
  bind_inv Hrun. apply deref_Ok in Ha. simpl in Ha. rename a into ed.
  fold (parsed env ed) in Hrun.
  destruct (parsed env ed) as [h lists] eqn:Hparsed.
  bind_inv Hrun. rename a into looped, Ha0 into Hloop.
  injection Hrun as <-. simpl in Hlines.
  exists ed, (This.lines looped). rewrite Hparsed. repeat split; trivial.
  simpl. intros Hstep Hinit.
  apply (calculate_loops env ed h I lists
           (This.set_heap h (This.set_lines [] this)) looped);
    [exact Ha | exact Hstep | exact Hinit | exact Hloop].
Qed.

(** X1: an item without children never gets a connector: the source item
    of every descriptor has at least one child. *)
Theorem connector_source_has_children (env : Env) (this this' : This.t) :
  calculate env this = Ok this' ->
  Forall (fun l => exists item,
            This.heap this' !! LineData.list l = Some item /\
            children item <> [])
    (This.lines this').
Proof.
  intros Hcalc. apply Forall_forall. intros l Hl.
  destruct (calculate_lines _ _ _ _ Hcalc Hl) as (ed & _ & Hheap & Hem).
  destruct Hem as (root & ritem & _ & _ & _ & Hem).
  rewrite <- Hheap in Hem. destruct Hem. simpl. eauto.
Qed.

Lemma connector_source_has_children_witness :
  Forall (fun l => exists item,
            Nested.heap false !! LineData.list l = Some item /\
            children item <> [])
    (This.lines
       (after (calculate (Doc.env Nested.doc None (Nested.forest false))
                 (Doc.this (Some (Doc.editor Nested.doc None)))))).
Proof.
  apply (connector_source_has_children
           (Doc.env Nested.doc None (Nested.forest false))
           (Doc.this (Some (Doc.editor Nested.doc None)))
           (after (calculate (Doc.env Nested.doc None (Nested.forest false))
                     (Doc.this (Some (Doc.editor Nested.doc None)))))).
  vm_compute. reflexivity.
Defined.

(** X2: every descriptor has a positive pixel height: an interval that
    comes out empty or upside down after clipping is dropped. *)
Theorem connector_height_positive (env : Env) (this this' : This.t) :
  calculate env this = Ok this' ->
  Forall (fun l => (0 < heightPx (LineData.height l))%Q) (This.lines this').
Proof.
  intros Hcalc. apply Forall_forall. intros l Hl.
  destruct (calculate_lines _ _ _ _ Hcalc Hl) as (ed & _ & _ & Hem).
  destruct Hem as (root & ritem & _ & _ & _ & Hem).
  destruct Hem. simpl. assumption.
Qed.

Lemma connector_height_positive_witness :
  Forall (fun l => (0 < heightPx (LineData.height l))%Q)
    (This.lines
       (after (calculate (Doc.env Nested.doc None (Nested.forest false))
                 (Doc.this (Some (Doc.editor Nested.doc None)))))).
Proof.
  apply (connector_height_positive
           (Doc.env Nested.doc None (Nested.forest false))
           (Doc.this (Some (Doc.editor Nested.doc None)))
           (after (calculate (Doc.env Nested.doc None (Nested.forest false))
                     (Doc.this (Some (Doc.editor Nested.doc None)))))).
  vm_compute. reflexivity.
Defined.

Lemma hasNextSiblingOf_margin (h : Heap) (ed : MyEditor) (item : ListItem)
    (lid : ListId) (vt : Z) (has : bool) :
  hasNextSiblingOf h ed item lid vt = Ok has ->
  exists pid pitem,
    parent item = Some pid /\ h !! pid = Some pitem /\
    margin has = marginOf ed h pitem lid vt.
Proof.
  unfold hasNextSiblingOf, marginOf. intros H.
  bind_inv H. apply deref_Ok in Ha. rename a into pid.
  bind_inv H. apply getItem_Ok in Ha0. rename a into pitem.
  exists pid, pitem. repeat split; trivial.
  destruct (getNextSiblingOf pitem lid) as [s|].
  - bind_inv H. apply getItem_Ok in Ha1. rewrite Ha1.
    injection H as <-. by destruct (_ <=? _).
  - by injection H as <-.
Qed.

(** X3: the height of a connector is [calc(<pixels>px - 1em)] when the
    item's own next sibling exists and starts at or before the end of the
    visible range, and [calc(<pixels>px - 1.8em)] otherwise; the next
    sibling of an ancestor, which decides where the connector ends, plays no
    part in the margin. *)
Theorem connector_margin_by_own_sibling (env : Env) (this this' : This.t) :
  calculate env this = Ok this' ->
  Forall (fun l => exists ed item pid pitem vf vt px,
            This.editor this = Some ed /\
            This.heap this' !! LineData.list l = Some item /\
            parent item = Some pid /\
            This.heap this' !! pid = Some pitem /\
            visibleBounds env ed = Ok (vf, vt) /\
            LineData.height l
            = Calc px (marginOf ed (This.heap this') pitem (LineData.list l) vt))
    (This.lines this').
Proof.
  intros Hcalc. apply Forall_forall. intros l Hl.
  destruct (calculate_lines _ _ _ _ Hcalc Hl) as (ed & Hed & Hheap & Hem).
  destruct Hem as (root & ritem & _ & _ & _ & Hem).
  rewrite <- Hheap in Hem.
  destruct Hem as [lid item till vf vt has Hitem _ _ Hbounds _ _ _ _ Hhas].
  simpl. apply hasNextSiblingOf_margin in Hhas.
  destruct Hhas as (pid & pitem & Hp & Hpitem & ->).
  by eexists ed, item, pid, pitem, vf, vt, _.
Qed.

Lemma connector_margin_by_own_sibling_witness :
  Forall (fun l => exists ed item pid pitem vf vt px,
            Some (Doc.editor Nested.doc None) = Some ed /\
            Nested.heap false !! LineData.list l = Some item /\
            parent item = Some pid /\
            Nested.heap false !! pid = Some pitem /\
            visibleBounds (Doc.env Nested.doc None (Nested.forest false)) ed
            = Ok (vf, vt) /\
            LineData.height l
            = Calc px (marginOf ed (Nested.heap false) pitem (LineData.list l) vt))
    (This.lines
       (after (calculate (Doc.env Nested.doc None (Nested.forest false))
                 (Doc.this (Some (Doc.editor Nested.doc None)))))).
Proof.
  apply (connector_margin_by_own_sibling
           (Doc.env Nested.doc None (Nested.forest false))
           (Doc.this (Some (Doc.editor Nested.doc None)))
           (after (calculate (Doc.env Nested.doc None (Nested.forest false))
                     (Doc.this (Some (Doc.editor Nested.doc None)))))).
  vm_compute. reflexivity.
Defined.




(** X5: an empty item gets a connector only when it is a direct child of
    a root: below that, [recursive] is never called on an empty item. *)
Theorem empty_item_connector_only_at_top_level
    (env : Env) (this this' : This.t) :
  calculate env this = Ok this' ->
  Forall (fun l => forall item,
            This.heap this' !! LineData.list l = Some item ->
            empty item = true ->
            exists ed root ritem,
              This.editor this = Some ed /\
              root ∈ snd (parsed env ed) /\
              This.heap this' !! root = Some ritem /\
              LineData.list l ∈ children ritem)
    (This.lines this').
Proof.
  intros Hcalc. destruct (enabled env) eqn:Hen.
  2:{ rewrite (calculate_disabled _ _ _ Hen Hcalc). constructor. }
  destruct (calculate_enabled _ _ _ Hen Hcalc)
    as (ed0 & _ & Hed0 & Hheap & _ & _).
  destruct (calculate_enabled_lines env this this'
              (Forall (fun l => exists root ritem c,
                         root ∈ snd (parsed env ed0) /\
                         fst (parsed env ed0) !! root = Some ritem /\
                         c ∈ children ritem /\
                         Visits (fst (parsed env ed0)) c (LineData.list l)))
              Hen Hcalc)
    as (ed & unsorted & Hed & Hlines & Hall).
  assert (ed = ed0) by congruence. subst ed0.
  rewrite Hlines, sort_perm, Hheap.
  eapply Forall_impl; [apply Hall|].
  - intros root ritem c lines lines' Hroot Hritem Hc Hlines0 Hrun.
    apply recursive_visited in Hrun. destruct Hrun as (new & -> & Hnew).
    apply Forall_app. split; [done|].
    eapply Forall_impl; [exact Hnew|]. simpl. intros l Hl.
    by exists root, ritem, c.
  - constructor.
  - simpl. intros l (root & ritem & c & Hroot & Hritem & Hc & Hvisits)
      item Hitem Hempty.
    exists ed, root, ritem. repeat split; trivial.
    apply Visits_not_empty in Hvisits.
    destruct Hvisits as [<- | (ditem & Hd & Hne)]; [done | congruence].
Qed.

Lemma empty_item_connector_only_at_top_level_witness :
  Forall (fun l => forall item,
            EmptyParent.heap !! LineData.list l = Some item ->
            empty item = true ->
            exists ed root ritem,
              Some (Doc.editor EmptyParent.doc None) = Some ed /\
              root ∈ [0%nat] /\
              EmptyParent.heap !! root = Some ritem /\
              LineData.list l ∈ children ritem)
    (This.lines
       (after (calculate (Doc.env EmptyParent.doc None EmptyParent.forest)
                 (Doc.this (Some (Doc.editor EmptyParent.doc None)))))).
Proof.
  apply (empty_item_connector_only_at_top_level
           (Doc.env EmptyParent.doc None EmptyParent.forest)
           (Doc.this (Some (Doc.editor EmptyParent.doc None)))
           (after (calculate (Doc.env EmptyParent.doc None EmptyParent.forest)
                     (Doc.this (Some (Doc.editor EmptyParent.doc None)))))).
  vm_compute. reflexivity.
Defined.

(** ** Every item that passes the tests gets its connector *)

(** The iteration for [x] of a loop that succeeds: the state it starts
    from and the state it leaves, both related to the ends of the loop by
    any preorder the body respects. *)
Lemma forOf_at {A S : Type} (R : S -> S -> Prop) (body : A -> S -> Result S) :
  (forall s, R s s) ->
  (forall a b c, R a b -> R b c -> R a c) ->
  forall xs s s' x,
    (forall y t t', y ∈ xs -> body y t = Ok t' -> R t t') ->
    x ∈ xs ->
    forOf xs body s = Ok s' ->
    exists t t', R s t /\ body x t = Ok t' /\ R t' s'.
Proof.
  intros Hrefl Htrans.
  induction xs as [|y xs IH]; intros s s' x Hbody Hx Hrun.
  - by apply not_elem_of_nil in Hx.
  - rewrite forOf_cons in Hrun. bind_inv Hrun. rename a into mid.
    assert (Hrest : R mid s').
    { revert Hrun. apply (forOf_invariant (R mid)); [|apply Hrefl].
      intros z t t' Hz Ht Hz'. apply Htrans with t; [done|].
      apply (Hbody z); [by right | done]. }
    apply elem_of_cons in Hx as [->|Hx].
    + exists s, mid. repeat split; trivial.
    + destruct (IH mid s' x) as (t & t' & Ht & Hrun' & Ht'); trivial.
      { intros z u u' Hz. apply Hbody. by right. }
      exists t, t'. repeat split; trivial.
      apply Htrans with mid; [|done]. apply (Hbody y); [by left | done].
Qed.

Lemma connect_complete (env : Env) (ed : MyEditor) (h : Heap) (lastLine : Z)
    (lid : ListId) (item : ListItem) (lines lines' : list LineData.t) :
  h !! lid = Some item ->
  Wanted env ed h lastLine lid ->
  connect env (Some ed) h lastLine lid item lines = Ok lines' ->
  exists l, lines' = lines ++ [l] /\ LineData.list l = lid.
Proof.
  intros Hitem (item' & till & vf & vt & Hitem' & _ & Htill & Hbounds
                & Hfrom & Hto & Hheight & Hfolded) H.
  assert (item' = item) by congruence. subst item'.
  unfold connect in H. simpl in H. rewrite Htill in H. simpl in H.
  rewrite Hbounds in H. simpl in H.
  assert (Hskip : (fromOffsetOf ed item >? vt) || (till <? vf) = false).
  { apply orb_false_iff. split; lia. }
  rewrite Hskip in H.
  assert (Hpush :
    Qlt_bool 0 (numSub (bottomOf env vt till)
                  (topOf env vf (fromOffsetOf ed item)))
    && negb (folded item) = true).
  { apply andb_true_iff. split; [by apply Qlt_bool_iff | by rewrite Hfolded]. }
  rewrite Hpush in H. bind_inv H. injection H as <-. by eexists.
Qed.

Lemma recursive_complete (env : Env) (ed : MyEditor) (h : Heap)
    (lastLine : Z) (d : ListId) (fuel : nat) :
  Wanted env ed h lastLine d ->
  forall lid lines lines',
    Visits h lid d ->
    recursive env (Some ed) h fuel lastLine lid lines = Ok lines' ->
    exists l, l ∈ lines' /\ LineData.list l = d.
Proof.
  intros Hwanted.
  induction fuel as [|fuel IH]; intros lid lines lines' Hvisits H;
    simpl in H; [discriminate|].
  bind_inv H. apply getItem_Ok in Ha. rename a into item.
  destruct (length (children item) =? 0)%nat eqn:Hlen.
  { (* no children: [d] is neither [lid] nor below it *)
    apply Nat.eqb_eq in Hlen. apply nil_length_inv in Hlen.
    inversion Hvisits as [? | ? c ? item' citem Hitem' Hc]; subst.
    - destruct Hwanted as (item' & ? & ? & ? & Hitem' & Hch & _). congruence.
    - assert (item' = item) by congruence. subst item'.
      rewrite Hlen in Hc. by apply not_elem_of_nil in Hc. }
  bind_inv H. rename a into mid, Ha0 into Hloop.
  inversion Hvisits as [? | ? c ? item' citem Hitem' Hc Hcitem Hne Hbelow];
    subst.
  - destruct (connect_complete _ _ _ _ _ _ _ _ Ha Hwanted H) as (l & -> & Hl).
    exists l. split; [|done]. apply elem_of_app. right. by left.
  - assert (item' = item) by congruence. subst item'.
    destruct (forOf_at
                (fun t t' : list LineData.t => exists new, t' = t ++ new)
                (fun child lines =>
                   citem <-- getItem h child ;;
                   if negb (empty citem)
                   then recursive env (Some ed) h fuel lastLine child lines
                   else Ok lines))
      with (xs := children item) (s := lines) (s' := mid) (x := c)
      as (t & t' & _ & Hrun & (new & ->)); trivial.
    + intros s. exists []. by rewrite app_nil_r.
    + intros a b k (n1 & ->) (n2 & ->). exists (n1 ++ n2). by rewrite app_assoc.
    + intros y t t' _ Hy. bind_inv Hy. destruct (negb (empty a)).
      * apply recursive_visited in Hy. destruct Hy as (new & -> & _). by eexists.
      * injection Hy as <-. exists []. by rewrite app_nil_r.
    + unfold getItem in Hrun. rewrite Hcitem in Hrun. simpl in Hrun.
      rewrite Hne in Hrun. simpl in Hrun.
      destruct (IH c t t' Hbelow Hrun) as (l & Hl & Hd).
      exists l. split; [|done].
      apply connect_visited in H. destruct H as [-> | (l' & -> & _)].
      * apply elem_of_app. by left.
      * apply elem_of_app. left. apply elem_of_app. by left.
Qed.

(** X6: every item that the walk visits and that passes the tests gets a
    connector: an item reached from a child of a root through non-empty
    items, which has children, is not folded, whose interval meets the
    visible range and whose clipped height is positive, is the source of a
    descriptor of the pass. *)
Theorem wanted_item_gets_connector
    (env : Env) (this this' : This.t) (ed : MyEditor)
    (root c d : ListId) (ritem : ListItem) :
  enabled env = true ->
  calculate env this = Ok this' ->
  This.editor this = Some ed ->
  root ∈ snd (parsed env ed) ->
  fst (parsed env ed) !! root = Some ritem ->
  c ∈ children ritem ->
  Visits (fst (parsed env ed)) c d ->
  Wanted env ed (fst (parsed env ed)) (line (snd (range ritem))) d ->
  Exists (fun l => LineData.list l = d) (This.lines this').
Proof.
  intros Hen Hcalc Hed Hroot Hritem Hc Hvisits Hwanted.
  unfold calculate in Hcalc. rewrite Hen in Hcalc.
  bind_inv Hcalc. rename a into final, Ha into Hrun.
  apply updateDom_sameModel in Hcalc. destruct Hcalc as (_ & _ & _ & Hlines).
  bind_inv Hrun. apply deref_Ok in Ha. simpl in Ha.
  assert (a = ed) by congruence. subst a.
  fold (parsed env ed) in Hrun.
  destruct (parsed env ed) as [h lists] eqn:Hparsed. simpl in *.
  bind_inv Hrun. rename a into looped, Ha0 into Hloop.
  injection Hrun as <-. simpl in Hlines.
  set (R := fun t t' : This.t =>
              This.editor t' = This.editor t /\
              exists new, This.lines t' = This.lines t ++ new).
  assert (Hrefl : forall s, R s s).
  { intros s. split; [done|]. exists []. by rewrite app_nil_r. }
  assert (Htrans : forall a b k, R a b -> R b k -> R a k).
  { intros a b k [Hab (n1 & Hn1)] [Hbk (n2 & Hn2)]. split; [congruence|].
    exists (n1 ++ n2). by rewrite Hn2, Hn1, app_assoc. }
  set (inner := fun c (this : This.t) =>
                  ls <-- recursive env (This.editor this) h (length h)
                           (This.lastLine this) c (This.lines this) ;;
                  Ok (This.set_lines ls this)).
  assert (Hinner : forall y t t',
            inner y t = Ok t' -> R t t' /\ This.lastLine t' = This.lastLine t).
  { intros y t t' Hy. unfold inner in Hy. bind_inv Hy. injection Hy as <-.
    apply recursive_visited in Ha0. destruct Ha0 as (new & -> & _).
    repeat split. by exists new. }
  set (R' := fun t t' : This.t => R t t' /\ This.lastLine t' = This.lastLine t).
  assert (Hrefl' : forall s, R' s s) by (intros s; by split).
  assert (Htrans' : forall a b k, R' a b -> R' b k -> R' a k).
  { intros a b k [Hab Hlab] [Hbk Hlbk]. split; [by eapply Htrans | congruence]. }
  match type of Hloop with
  | forOf _ ?body _ = _ =>
      assert (Houter : forall y u u', y ∈ lists -> body y u = Ok u' -> R u u')
  end.
  { intros y u u' _ Hy. bind_inv Hy.
    apply Htrans with (This.set_lastLine (line (snd (range a))) u).
    { split; [done|]. exists []. simpl. by rewrite app_nil_r. }
    revert Hy. apply (forOf_invariant (R _)); [|apply Hrefl].
    intros z v v' _ Hv Hz. apply Htrans with v; [done|].
    by destruct (Hinner z v v' Hz). }
  destruct (forOf_at R _ Hrefl Htrans _ _ _ root Houter Hroot Hloop)
    as (t & t' & [Ht _] & Hbody & [_ (rest & Hrest)]).
  unfold getItem in Hbody. rewrite Hritem in Hbody. simpl in Hbody.
  fold inner in Hbody.
  assert (Hinner' : forall y v v',
            y ∈ children ritem -> inner y v = Ok v' -> R' v v').
  { intros y v v' _. apply Hinner. }
  destruct (forOf_at R' inner Hrefl' Htrans' _ _ _ c Hinner' Hc Hbody)
    as (u & u' & [[Hu _] Hlast] & Hstep & [[_ (rest' & Hrest')] _]).
  unfold inner in Hstep. bind_inv Hstep. injection Hstep as <-.
  simpl in Hu, Ht, Hlast, Hrest'. rewrite Hu, Ht, Ha, Hlast in Ha0.
  destruct (recursive_complete _ _ _ _ _ _ Hwanted _ _ _ Hvisits Ha0)
    as (l & Hl & Hd).
  apply Exists_exists. exists l. split; [|done].
  rewrite Hlines, sort_perm, Hrest, Hrest'.
  apply elem_of_app. left. apply elem_of_app. by left.
Qed.

Lemma wanted_item_gets_connector_witness :
  Exists (fun l => LineData.list l = 2%nat)
    (This.lines
       (after (calculate (Doc.env Nested.doc None (Nested.forest false))
                 (Doc.this (Some (Doc.editor Nested.doc None)))))).
Proof.
  apply (wanted_item_gets_connector
           (Doc.env Nested.doc None (Nested.forest false))
           (Doc.this (Some (Doc.editor Nested.doc None)))
           (after (calculate (Doc.env Nested.doc None (Nested.forest false))
                     (Doc.this (Some (Doc.editor Nested.doc None)))))
           (Doc.editor Nested.doc None) 0%nat 1%nat 2%nat
           (mkListItem None [1; 4]%nat (mkPos 0 0) "" (mkPos 0 0, mkPos 3 3)
              false true)).
  - reflexivity.
  - vm_compute. reflexivity.
  - reflexivity.
  - apply list_elem_of_singleton. reflexivity.
  - reflexivity.
  - by left.
  - eapply visits_child;
      [reflexivity | by left | reflexivity | reflexivity | apply visits_here].
  - eexists _, _, _, _. split; [reflexivity|]. split; [discriminate|].
    split; [vm_compute; reflexivity|]. split; [vm_compute; reflexivity|].
    split; [vm_compute; discriminate|]. split; [vm_compute; discriminate|].
    split; [vm_compute; reflexivity | reflexivity].
Defined.

(** ** When the pass throws *)

(** X8: with the feature on, the default theme and something visible, a
    pass that runs before [waitForEditor] has found the host editor throws
    a [TypeError]: [this.editor] is still undefined when its [offsetToPos]
    is called. *)
Theorem enabled_pass_without_editor_throws (env : Env) (this : This.t) :
  listLines env = true -> isDefaultThemeEnabled env = true ->
  viewportLineBlocks env <> [] -> visibleRanges env <> [] ->
  This.editor this = None ->
  calculate env this = Fail TypeError.
Proof.
  intros Hon Htheme Hblocks Hranges Hed. unfold calculate.
  assert (Hen : enabled env = true).
  { unfold enabled. rewrite Hon, Htheme.
    destruct (viewportLineBlocks env); [done|].
    destruct (visibleRanges env); done. }
  rewrite Hen. simpl. by rewrite Hed.
Qed.

Lemma enabled_pass_without_editor_throws_witness :
  calculate (Doc.env Nested.doc None (Nested.forest false)) (Doc.this None)
  = Fail TypeError.
Proof.
  apply (enabled_pass_without_editor_throws
           (Doc.env Nested.doc None (Nested.forest false)) (Doc.this None));
    [reflexivity | reflexivity | discriminate | discriminate | reflexivity].
Defined.

(** ** The comparator of the sort *)

(** X9: the comparator handed to [sort] is a consistent comparison: swapping
    the arguments flips the sign, "not after" is transitive, and it returns
    zero only for descriptors with the same [top] and the same [left]. *)
Theorem compareLines_consistent (a b c : LineData.t) :
  (compareLines a b == - compareLines b a)%Q /\
  ((compareLines a b <= 0)%Q -> (compareLines b c <= 0)%Q ->
   (compareLines a c <= 0)%Q) /\
  ((compareLines a b == 0)%Q <->
   (LineData.top a == LineData.top b)%Q /\
   (LineData.left a == LineData.left b)%Q).
Proof.
  split; [|split].
  - unfold compareLines.
    destruct (Qeq_bool (LineData.top a) (LineData.top b)) eqn:Hab.
    + apply Qeq_bool_iff in Hab. symmetry in Hab. apply Qeq_bool_iff in Hab.
      rewrite Hab. ring.
    + destruct (Qeq_bool (LineData.top b) (LineData.top a)) eqn:Hba; [|ring].
      apply Qeq_bool_iff in Hba. symmetry in Hba. apply Qeq_bool_iff in Hba.
      congruence.
  - rewrite <- !Qle_bool_iff, !compareLines_le. apply lineLe_trans.
  - unfold compareLines.
    destruct (Qeq_bool (LineData.top a) (LineData.top b)) eqn:Hab.
    + apply Qeq_bool_iff in Hab. split.
      * intros H. split; [done|].
        apply (Qplus_inj_r _ _ (- LineData.left b)).
        by rewrite Qplus_opp_r.
      * intros [_ H]. rewrite H. ring.
    + apply Qeq_bool_neq in Hab. split.
      * intros H. destruct Hab.
        apply (Qplus_inj_r _ _ (- LineData.top b)). by rewrite Qplus_opp_r.
      * intros [H _]. by destruct Hab.
Qed.

(** ** The horizontal offset of nested items *)

Lemma indentUnits_app (tabSize : Z) (s1 s2 : string) :
  indentUnits tabSize (s1 ++ s2)
  = indentUnits tabSize s1 + indentUnits tabSize s2.
Proof.
  induction s1 as [|char rest IH]; simpl; [done|]. rewrite IH. lia.
Qed.

Lemma indentUnits_nonneg (tabSize : Z) (s : string) :
  0 <= tabSize -> 0 <= indentUnits tabSize s.
Proof.
  intros Htab. induction s as [|char rest IH]; simpl; [done|].
  destruct (Ascii.eqb char tab); lia.
Qed.

(** X10: with a tab width that is not negative, an item whose indent
    extends the indent of another item is never drawn to the left of it: its
    offset is the other's plus 4.5 pixels for every character unit of the
    extension. *)
Theorem deeper_indent_is_further_right
    (env : Env) (outer inner : ListItem) (more : string) :
  0 <= tabSize env ->
  firstLineIndent inner = (firstLineIndent outer ++ more)%string ->
  (getIndentSize env inner
   == getIndentSize env outer
      + inject_Z (indentUnits (tabSize env) more) * spaceSize)%Q /\
  (getIndentSize env outer <= getIndentSize env inner)%Q.
Proof.
  intros Htab Hindent.
  assert (Heq :
    (getIndentSize env inner
     == getIndentSize env outer
        + inject_Z (indentUnits (tabSize env) more) * spaceSize)%Q).
  { rewrite !getIndentSize_units, Hindent, indentUnits_app, inject_Z_plus.
    ring. }
  split; [exact Heq|]. rewrite Heq.
  rewrite <- (Qplus_0_r (getIndentSize env outer)) at 1.
  apply Qplus_le_r. apply Qmult_le_0_compat; [|discriminate].
  rewrite <- (Zle_Qle 0). by apply indentUnits_nonneg.
Qed.

Lemma deeper_indent_is_further_right_witness :
  (getIndentSize (Doc.env Nested.doc None (Nested.forest false))
     (mkListItem (Some 2%nat) [] (mkPos 2 6) "    " (mkPos 2 0, mkPos 2 7)
        false false)
   == getIndentSize (Doc.env Nested.doc None (Nested.forest false))
        (mkListItem (Some 1%nat) [3]%nat (mkPos 1 4) "  " (mkPos 1 0, mkPos 2 7)
           false false)
      + inject_Z (indentUnits 4 "  ") * spaceSize)%Q /\
  (getIndentSize (Doc.env Nested.doc None (Nested.forest false))
     (mkListItem (Some 1%nat) [3]%nat (mkPos 1 4) "  " (mkPos 1 0, mkPos 2 7)
        false false)
   <= getIndentSize (Doc.env Nested.doc None (Nested.forest false))
        (mkListItem (Some 2%nat) [] (mkPos 2 6) "    " (mkPos 2 0, mkPos 2 7)
           false false))%Q.
Proof.
  apply (deeper_indent_is_further_right
           (Doc.env Nested.doc None (Nested.forest false))
           (mkListItem (Some 1%nat) [3]%nat (mkPos 1 4) "  "
              (mkPos 1 0, mkPos 2 7) false false)
           (mkListItem (Some 2%nat) [] (mkPos 2 6) "    "
              (mkPos 2 0, mkPos 2 7) false false)
           "  ").
  - vm_compute. discriminate.
  - reflexivity.
Defined.

(** * Properties of [updateDom] *)

Lemma updateDom_steps (env : Env) (this : This.t) :
  updateDom env this
  = (let this :=
       This.set_container
         (Px (cmScroll_offsetTop env))
         (Px (cmContent_clientHeight env))
         (Px (cmContentContainer_offsetLeft env))
         (Px (numSub (cmContent_firstElementChild_offsetTop env) 24))
         this in
     this <-- forOf (seq 0 (length (This.lines this))) showStep this ;;
     forOf (seq (length (This.lines this))
                (length (This.lineElements this) - length (This.lines this)))
       hideStep this).
Proof. reflexivity. Qed.

Lemma showStep_at (this : This.t) (shown rest : list Element) (l : LineData.t) :
  This.lineElements this = shown ++ rest ->
  This.lines this !! length shown = Some l ->
  showStep (length shown) this
  = Ok (This.set_lineElements
          (shown
           ++ showElement l (default (createElement (length shown)) (head rest))
           :: tail rest)
          this).
Proof.
  intros Hels Hl. unfold showStep. destruct rest as [|e rest].
  - rewrite app_nil_r in Hels. rewrite Hels, Nat.eqb_refl.
    cbn [This.lines This.lineElements This.set_lineElements].
    rewrite Hl. rewrite list_lookup_middle by done. cbn [deref bind].
    rewrite insert_app_r_alt by done. rewrite Nat.sub_diag. reflexivity.
  - assert (Hne : (length (This.lineElements this) =? length shown)%nat = false).
    { apply Nat.eqb_neq. rewrite Hels, length_app. simpl. lia. }
    rewrite Hne, Hl, Hels. rewrite list_lookup_middle by done.
    cbn [deref bind]. rewrite insert_app_r_alt by done.
    rewrite Nat.sub_diag. reflexivity.
Qed.

Lemma show_loop :
  forall todo this donelines shown rest,
    This.lines this = donelines ++ todo ->
    length donelines = length shown ->
    This.lineElements this = shown ++ rest ->
    forOf (seq (length shown) (length todo)) showStep this
    = Ok (This.set_lineElements
            (shown ++ showAll (length shown) todo rest
               ++ drop (length todo) rest) this).
Proof.
  induction todo as [|l todo IH]; intros this donelines shown rest Hls Hlen Hels.
  - cbn [length seq forOf showAll]. rewrite drop_0, app_nil_l, <- Hels.
    by destruct this.
  - cbn [length seq]. rewrite forOf_cons.
    rewrite (showStep_at this shown rest l Hels).
    2:{ rewrite Hls, <- Hlen. by apply list_lookup_middle. }
    cbn [bind].
    specialize (IH (This.set_lineElements
                      (shown
                       ++ showElement l
                            (default (createElement (length shown)) (head rest))
                       :: tail rest) this)
                  (donelines ++ [l])
                  (shown ++ [showElement l
                               (default (createElement (length shown))
                                  (head rest))])
                  (tail rest)).
    match type of IH with
    | context [length (shown ++ [?x])] =>
        assert (Hk : length (shown ++ [x]) = S (length shown))
          by (rewrite length_app; simpl; lia);
        rewrite !Hk in IH
    end.
    rewrite IH.
    + cbn [showAll]. rewrite <- app_assoc. cbn [app].
      replace (drop (length todo) (tail rest))
        with (drop (S (length todo)) rest)
        by (destruct rest; [cbn [tail]; by rewrite !drop_nil | reflexivity]).
      reflexivity.
    + simpl. by rewrite Hls, <- app_assoc.
    + rewrite !length_app. simpl. lia.
    + simpl. by rewrite <- app_assoc.
Qed.

Lemma length_showAll (ls : list LineData.t) :
  forall k old, length (showAll k ls old) = length ls.
Proof. induction ls as [|l ls IH]; intros k old; simpl; [done|]. by rewrite IH. Qed.

(** What [updateDom] computes, in closed form. *)
Lemma updateDom_rendered (env : Env) (this : This.t) :
  updateDom env this
  = Ok (This.set_lineElements
          (rendered (This.lines this) (This.lineElements this))
          (This.set_container
             (Px (cmScroll_offsetTop env))
             (Px (cmContent_clientHeight env))
             (Px (cmContentContainer_offsetLeft env))
             (Px (numSub (cmContent_firstElementChild_offsetTop env) 24))
             this)).
Proof.
  rewrite updateDom_steps. cbv zeta.
  set (this0 := This.set_container _ _ _ _ this).
  pose proof (show_loop (This.lines this0) this0 [] [] (This.lineElements this0)
                eq_refl eq_refl eq_refl) as Hshow.
  cbn [length app] in Hshow. rewrite Hshow. cbn [bind].
  set (shown := showAll 0 (This.lines this0) (This.lineElements this0)).
  set (rest := drop (length (This.lines this0)) (This.lineElements this0)).
  cbn [This.lines This.lineElements This.set_lineElements].
  replace (length (This.lines this0)) with (length shown)
    by (subst shown; apply length_showAll).
  rewrite length_app, Nat.add_comm, Nat.add_sub.
  pose proof (hide_loop (This.set_lineElements (shown ++ rest) this0)
                rest shown eq_refl) as Hhide.
  fold hideStep in Hhide. rewrite Hhide. reflexivity.
Qed.

Lemma showAll_lookup (ls : list LineData.t) :
  forall k old i,
    showAll k ls old !! i
    = (fun l => showElement l (default (createElement (k + i)) (old !! i)))
        <$> ls !! i.
Proof.
  induction ls as [|l ls IH]; intros k old i; [done|].
  destruct i as [|i]; cbn [showAll].
  - rewrite Nat.add_0_r. by destruct old.
  - cbn [lookup list_lookup]. rewrite IH.
    replace (S k + i)%nat with (k + S i)%nat by lia. by destruct old.
Qed.

Lemma rendered_lookup_shown (ls : list LineData.t) (old : list Element)
    (i : nat) (l : LineData.t) :
  ls !! i = Some l ->
  rendered ls old !! i
  = Some (showElement l (default (createElement i) (old !! i))).
Proof.
  intros Hl. unfold rendered.
  rewrite lookup_app_l by (rewrite length_showAll; by eapply lookup_lt_Some).
  by rewrite showAll_lookup, Hl.
Qed.

Lemma rendered_lookup_hidden (ls : list LineData.t) (old : list Element)
    (i : nat) :
  (length ls <= i)%nat ->
  rendered ls old !! i = hideElement <$> old !! i.
Proof.
  intros Hi. unfold rendered.
  rewrite lookup_app_r by (by rewrite length_showAll).
  rewrite length_showAll, list_lookup_fmap, lookup_drop.
  by replace (length ls + (i - length ls))%nat with i by lia.
Qed.

Lemma length_rendered (ls : list LineData.t) (old : list Element) :
  length (rendered ls old) = Nat.max (length ls) (length old).
Proof.
  unfold rendered.
  rewrite length_app, length_showAll, length_fmap, length_drop. lia.
Qed.

(** X11: [updateDom] never throws, leaves the lines alone, creates exactly
    the elements that are missing and removes none: afterwards there are as
    many elements as there were, or as many as there are lines if that is
    more. *)
Theorem updateDom_keeps_every_element (env : Env) (this : This.t) :
  exists this',
    updateDom env this = Ok this' /\
    This.lines this' = This.lines this /\
    length (This.lineElements this')
    = Nat.max (length (This.lines this)) (length (This.lineElements this)).
Proof.
  eexists. split; [apply updateDom_rendered|]. simpl.
  split; [done | apply length_rendered].
Qed.

(** X12: after [updateDom] the element at the position of a line draws
    that line (its top, left and height, displayed as a block), and every
    element beyond the lines is hidden (zero position and height, display
    none). *)
Theorem updateDom_shows_lines_hides_rest (env : Env) (this : This.t) :
  exists this',
    updateDom env this = Ok this' /\
    (forall i l,
       This.lines this !! i = Some l ->
       exists e, This.lineElements this' !! i = Some e /\ shows e l) /\
    (forall i e,
       (length (This.lines this) <= i)%nat ->
       This.lineElements this' !! i = Some e -> hidden e).
Proof.
  eexists. split; [apply updateDom_rendered|]. simpl. split.
  - intros i l Hl. eexists. split; [by apply rendered_lookup_shown|].
    by repeat split.
  - intros i e Hi He. rewrite rendered_lookup_hidden in He by done.
    destruct (This.lineElements this !! i); [|discriminate].
    injection He as <-. by repeat split.
Qed.

Lemma rendered_indexed (ls : list LineData.t) (old : list Element) :
  indexed old -> indexed (rendered ls old).
Proof.
  intros Hold i e He.
  destruct (ls !! i) as [l|] eqn:Hl.
  - rewrite (rendered_lookup_shown _ _ _ _ Hl) in He. injection He as <-.
    simpl. destruct (old !! i) as [e0|] eqn:He0; simpl; [by apply Hold | done].
  - apply lookup_ge_None in Hl. rewrite rendered_lookup_hidden in He by done.
    destruct (old !! i) as [e0|] eqn:He0; [|discriminate].
    injection He as <-. simpl. by apply Hold.
Qed.

Lemma rendered_block (ls : list LineData.t) (old : list Element) (e : Element) :
  indexed old ->
  e ∈ rendered ls old ->
  style_display e = "block"%string ->
  exists l, ls !! dataset_index e = Some l /\ shows e l.
Proof.
  intros Hold He Hblock. apply list_elem_of_lookup in He as [i He].
  pose proof (rendered_indexed ls old Hold i e He) as Hi. rewrite Hi.
  destruct (ls !! i) as [l|] eqn:Hl.
  - rewrite (rendered_lookup_shown _ _ _ _ Hl) in He. injection He as <-.
    exists l. by repeat split.
  - apply lookup_ge_None in Hl. rewrite rendered_lookup_hidden in He by done.
    destruct (old !! i); [|discriminate]. injection He as <-.
    simpl in Hblock. discriminate.
Qed.

(** The part of [calculate] before [updateDom] does not touch the
    elements. *)
Lemma calculate_then_updateDom (env : Env) (this this' : This.t) :
  calculate env this = Ok this' ->
  exists mid,
    This.lineElements mid = This.lineElements this /\
    updateDom env mid = Ok this'.
Proof.
  unfold calculate. intros H. bind_inv H. rename a into mid.
  exists mid. split; [|done].
  destruct (enabled env).
  - bind_inv Ha. destruct (parseRange env _ _) as [h lists].
    bind_inv Ha. injection Ha as <-. simpl.
    revert Ha1.
    apply (forOf_invariant
             (fun t => This.lineElements t = This.lineElements this)); [|done].
    intros root t t' _ Ht Hbody. bind_inv Hbody. revert Hbody.
    apply (forOf_invariant
             (fun t => This.lineElements t = This.lineElements this)); [|done].
    intros c u u' _ Hu Hc. bind_inv Hc. by injection Hc as <-.
  - by injection Ha as <-.
Qed.

(** X13: once every element carries its own position in [dataset.index],
    a pass keeps it so, and every element it leaves displayed carries the
    index of the line it draws: a click on it resolves to that line. *)
Theorem displayed_element_indexes_its_line (env : Env) (this this' : This.t) :
  indexed (This.lineElements this) ->
  calculate env this = Ok this' ->
  indexed (This.lineElements this') /\
  Forall (fun e =>
            style_display e = "block"%string ->
            exists l,
              This.lines this' !! dataset_index e = Some l /\ shows e l)
    (This.lineElements this').
Proof.
  intros Hold Hcalc.
  destruct (calculate_then_updateDom _ _ _ Hcalc) as (mid & Hels & Hdom).
  rewrite updateDom_rendered in Hdom. injection Hdom as <-. simpl.
  rewrite Hels. split; [by apply rendered_indexed|].
  apply Forall_forall. intros e He Hblock. by apply (rendered_block _ _ _ Hold).
Qed.

Lemma displayed_element_indexes_its_line_witness :
  indexed
    (This.lineElements
       (after (calculate (Doc.env Nested.doc None (Nested.forest false))
                 (Doc.this (Some (Doc.editor Nested.doc None)))))) /\
  Forall (fun e =>
            style_display e = "block"%string ->
            exists l,
              This.lines
                (after (calculate (Doc.env Nested.doc None (Nested.forest false))
                          (Doc.this (Some (Doc.editor Nested.doc None)))))
              !! dataset_index e = Some l /\ shows e l)
    (This.lineElements
       (after (calculate (Doc.env Nested.doc None (Nested.forest false))
                 (Doc.this (Some (Doc.editor Nested.doc None)))))).
Proof.
  apply (displayed_element_indexes_its_line
           (Doc.env Nested.doc None (Nested.forest false))
           (Doc.this (Some (Doc.editor Nested.doc None)))
           (after (calculate (Doc.env Nested.doc None (Nested.forest false))
                     (Doc.this (Some (Doc.editor Nested.doc None)))))).
  - intros i e He. destruct i; discriminate.
  - vm_compute. reflexivity.
Defined.

Lemma rendered_rendered (ls : list LineData.t) (old : list Element) :
  rendered ls (rendered ls old) = rendered ls old.
Proof.
  apply list_eq. intros i. destruct (ls !! i) as [l|] eqn:Hl.
  - rewrite !(rendered_lookup_shown _ _ _ _ Hl). simpl.
    by destruct (old !! i).
  - apply lookup_ge_None in Hl. rewrite !rendered_lookup_hidden by done.
    by destruct (old !! i).
Qed.

(** X14: rendering twice is rendering once: a second [updateDom] with the
    same lines and the same measurements changes nothing. *)
Theorem updateDom_idempotent (env : Env) (this : This.t) :
  (this1 <-- updateDom env this ;; updateDom env this1) = updateDom env this.
Proof.
  rewrite !updateDom_rendered. cbn [bind]. rewrite updateDom_rendered.
  simpl. by rewrite rendered_rendered.
Qed.

(** * Properties of the pointer actions *)

Lemma toggleFolding_zoom (h : Heap) (line_ : LineData.t) (host host' : Host.t) :
  toggleFolding h line_ host = Ok host' ->
  Host.zoomedLine host' = Host.zoomedLine host.
Proof.
  unfold toggleFolding. intros H. bind_inv H.
  destruct (empty a); [by injection H as <-|].
  bind_inv H. destruct a0 as [needToUnfold linesToToggle].
  revert H.
  apply (forOf_invariant
           (fun t => Host.zoomedLine t = Host.zoomedLine host)); [|done].
  intros l t t' _ Ht Hstep. by destruct needToUnfold; injection Hstep as <-.
Qed.

(** X15: a click does one thing only.  With the zoom-in action it makes
    the content-start line of the clicked item the root of the focused view
    and folds or unfolds nothing; with the toggle-folding action it leaves
    the focused view alone; with any other setting it does nothing. *)
Theorem click_does_one_thing
    (env : Env) (this : This.t) (index : nat) (host host' : Host.t) :
  onClick env this index host = Ok host' ->
  match listLineAction env with
  | ZoomIn =>
      Host.foldedLines host' = Host.foldedLines host /\
      exists line_ item,
        This.lines this !! index = Some line_ /\
        This.heap this !! LineData.list line_ = Some item /\
        Host.zoomedLine host' = Some (line (firstLineContentStart item))
  | ToggleFolding => Host.zoomedLine host' = Host.zoomedLine host
  | NoAction => host' = host
  end.
Proof.
  unfold onClick. intros H. destruct (listLineAction env).
  - bind_inv H. apply deref_Ok in Ha. unfold zoomIn in H. bind_inv H.
    apply getItem_Ok in Ha0. injection H as <-. simpl.
    split; [done|]. by exists a, a0.
  - bind_inv H. by apply toggleFolding_zoom in H.
  - by injection H as <-.
Qed.

Lemma click_does_one_thing_witness :
  Host.foldedLines (Host.mk ∅ (Some 0)) = Host.foldedLines Family.none /\
  exists line_ item,
    [Family.lineA] !! 0%nat = Some line_ /\
    Family.heap !! LineData.list line_ = Some item /\
    Host.zoomedLine (Host.mk ∅ (Some 0))
    = Some (line (firstLineContentStart item)).
Proof.
  apply (click_does_one_thing
           (mkEnv true ZoomIn true 4 [] [] (0, 0)
              (Doc.lineBlockAt Family.doc None) (fun _ _ => (Family.heap, []))
              0 0 0 0)
           (This.mk None Family.heap 0 [Family.lineA] [] None None None None)
           0 Family.none (Host.mk ∅ (Some 0))).
  vm_compute. reflexivity.
Defined.

(** * Properties of the scheduler *)

Lemma calculate_editor (env : Env) (this this' : This.t) :
  calculate env this = Ok this' -> This.editor this' = This.editor this.
Proof.
  unfold calculate. intros H. bind_inv H. rename a into mid.
  apply updateDom_sameModel in H. destruct H as (-> & _).
  destruct (enabled env).
  - bind_inv Ha. destruct (parseRange env _ _) as [h lists].
    bind_inv Ha. injection Ha as <-. simpl.
    revert Ha1.
    apply (forOf_invariant
             (fun t => This.editor t = This.editor this)); [|done].
    intros root t t' _ Ht Hbody. bind_inv Hbody. revert Hbody.
    apply (forOf_invariant
             (fun t => This.editor t = This.editor this)); [|done].
    intros c u u' _ Hu Hc. bind_inv Hc. by injection Hc as <-.
  - by injection Ha as <-.
Qed.

Lemma scheduleRecalculate_one (p : Plugin.t) :
  Coalesced p ->
  Plugin.scheduled (scheduleRecalculate p) = Some (Timers.fresh (Plugin.timers p)) /\
  Timers.immediates (Plugin.timers (scheduleRecalculate p))
  = [Timers.fresh (Plugin.timers p)] /\
  Timers.timeouts (Plugin.timers (scheduleRecalculate p))
  = Timers.timeouts (Plugin.timers p) /\
  Plugin.this (scheduleRecalculate p) = Plugin.this p.
Proof.
  intros Hp. unfold scheduleRecalculate.
  destruct p as [this scheduled [fresh immediates timeouts] l s a sc].
  unfold Coalesced in Hp. simpl in *.
  destruct Hp as [-> | (handle & -> & ->)]; simpl.
  - by destruct scheduled.
  - rewrite filter_cons_False by (intros Hne; by apply Hne). done.
Qed.

Lemma scheduleRecalculate_Coalesced (p : Plugin.t) :
  Coalesced p -> Coalesced (scheduleRecalculate p).
Proof.
  intros Hp. destruct (scheduleRecalculate_one p Hp) as (Hs & Hi & _).
  right. eauto.
Qed.

(** A loop followed to its end or to its throw keeps every invariant
    that its body keeps both ways. *)
Lemma forOfThrown_invariant {A S : Type} (I : S -> Prop)
    (body : A -> S -> Result S) (thrown : A -> S -> S) :
  (forall x t t', I t -> body x t = Ok t' -> I t') ->
  (forall x t, I t -> I (thrown x t)) ->
  forall xs s, I s -> I (forOfThrown xs body thrown s).
Proof.
  intros Hbody Hthrown. induction xs as [|x xs IH]; intros s Hs; simpl.
  - exact Hs.
  - destruct (body x s) as [s'|e] eqn:Hx.
    + apply IH. by apply (Hbody x s).
    + by apply Hthrown.
Qed.

Lemma calculateThrown_editor (env : Env) (this : This.t) :
  This.editor (calculateThrown env this) = This.editor this.
Proof.
  unfold calculateThrown. destruct (enabled env); [|done].
  cbn [This.editor This.set_lines].
  destruct (This.editor this) as [ed|] eqn:Hed; [|by rewrite <- Hed].
  destruct (parsed env ed) as [h lists]. rewrite <- Hed.
  apply (forOfThrown_invariant
           (fun t => This.editor t = This.editor this)); [| |done].
  - intros root t t' Ht Hbody. unfold rootStep in Hbody. bind_inv Hbody.
    revert Hbody.
    apply (forOf_invariant
             (fun t => This.editor t = This.editor this)); [|done].
    intros c u u' _ Hu Hc. unfold childStep in Hc. bind_inv Hc.
    by injection Hc as <-.
  - intros root t Ht. unfold rootStepThrown.
    destruct (getItem h root) as [ritem|]; [|done].
    apply (forOfThrown_invariant
             (fun t => This.editor t = This.editor this)); [| |done].
    + intros c u u' Hu Hc. unfold childStep in Hc. bind_inv Hc.
      by injection Hc as <-.
    + by intros c u Hu.
Qed.

Lemma handle_invariant (e : Event) (p : Plugin.t) :
  Coalesced p /\ Polling p ->
  Coalesced (state (handle e p)) /\ Polling (state (handle e p)).
Proof.
  intros [Hc Hpoll]. destruct e as [u | | sl st | env | oe | ];
    cbn [handle state].
  - unfold update. destruct (_ || _); [|done].
    split; [by apply scheduleRecalculate_Coalesced|].
    destruct (scheduleRecalculate_one p Hc) as (_ & _ & Ht & Hthis).
    unfold Polling. by rewrite Hthis, Ht.
  - destruct (Plugin.settingsCallback p); [|done].
    split; [by apply scheduleRecalculate_Coalesced|].
    destruct (scheduleRecalculate_one p Hc) as (_ & _ & Ht & Hthis).
    unfold Polling. by rewrite Hthis, Ht.
  - by destruct (Plugin.scrollListener p).
  - destruct (Timers.immediates (Plugin.timers p)) as [|hd rest] eqn:Hi;
      [done|].
    assert (rest = []) as ->.
    { destruct Hc as [Hc | (handle & _ & Hc)]; congruence. }
    destruct (calculate env _) as [this'|] eqn:Hcalc; simpl.
    + apply calculate_editor in Hcalc. simpl in Hcalc.
      split; [by left|]. unfold Polling in *. simpl. by rewrite Hcalc.
    + split; [by left|]. unfold Polling in *. simpl.
      by rewrite calculateThrown_editor.
  - destruct (Timers.timeouts (Plugin.timers p)) as [|hd rest] eqn:Ht;
      [done|].
    assert (Hed : This.editor (Plugin.this p) = None /\ rest = []).
    { unfold Polling in Hpoll. rewrite Ht in Hpoll.
      destruct (This.editor (Plugin.this p)); [discriminate|].
      split; [done|]. by destruct rest. }
    destruct Hed as [Hed ->]. simpl.
    set (p0 := Plugin.set_timers _ p).
    assert (Hc0 : Coalesced p0) by exact Hc.
    destruct oe as [ed|]; simpl.
    + set (p1 := Plugin.set_this _ p0).
      assert (Hc1 : Coalesced p1) by exact Hc.
      split; [by apply scheduleRecalculate_Coalesced|].
      destruct (scheduleRecalculate_one p1 Hc1) as (_ & _ & Ht1 & Hthis1).
      unfold Polling. by rewrite Hthis1, Ht1.
    + split; [exact Hc|]. unfold Polling. simpl. by rewrite Hed.
  - unfold destroy. simpl.
    destruct (Plugin.scrollerAttached p); simpl; [|done].
    split.
    + destruct Hc as [Hc | (handle & Hs & Hc)].
      * left. simpl. destruct (Plugin.scheduled p); simpl; by rewrite ?Hc.
      * left. simpl. rewrite Hs. simpl. rewrite Hc.
        by rewrite filter_cons_False by (intros Hne; by apply Hne).
    + unfold Polling in *. simpl.
      destruct (Plugin.scheduled p); exact Hpoll.
Qed.

Lemma run_invariant (events : list Event) :
  forall p,
    Coalesced p /\ Polling p ->
    Coalesced (run events p) /\ Polling (run events p).
Proof.
  induction events as [|e events IH]; intros p Hp; simpl; [done|].
  apply IH. by apply handle_invariant.
Qed.

Lemma construct_invariant (oe : option MyEditor) :
  Coalesced (construct oe) /\ Polling (construct oe).
Proof. destruct oe; split; compute; eauto. Qed.

(** A pass that runs before the editor is found throws, and the plugin
    value goes on: the poll is still pending and finds the editor later. *)
Example early_pass_throws_and_value_lives_on :
  exists p found,
    handle (ImmediateFired (Doc.env Nested.doc None (Nested.forest false)))
      (state (handle SettingChanged (construct None)))
    = Threw p /\
    This.lines (Plugin.this p) = [] /\
    Timers.immediates (Plugin.timers p) = [] /\
    length (Timers.timeouts (Plugin.timers p)) = 1%nat /\
    handle (TimeoutFired (Some (Doc.editor Nested.doc None))) p
    = Returned found /\
    length (Timers.immediates (Plugin.timers found)) = 1%nat.
Proof.
  eexists _, _. split; [vm_compute; reflexivity|].
  repeat (split; [reflexivity|]). reflexivity.
Qed.

(** X16: whatever the host does with the plugin value after its
    construction (view updates, setting changes, scrolling, timers firing,
    destruction), and whether or not a pass or [destroy] throws on the way,
    at most one recomputation is pending, and it is the one whose handle
    [scheduled] holds: requests that arrive before the pending pass has run
    replace it. *)
Theorem at_most_one_pass_pending
    (oe : option MyEditor) (events : list Event) :
  Coalesced (run events (construct oe)).
Proof.
  by destruct (run_invariant events _ (construct_invariant oe)).
Qed.

Lemma at_most_one_pass_pending_witness :
  Coalesced (run session (construct None)).
Proof. apply (at_most_one_pass_pending None session). Defined.

(** X17: the plugin value polls for the host editor with exactly one timer
    at a time for as long as it has no editor, and with none once it has
    one, also after a pass has thrown for want of the editor. *)
Theorem one_poll_until_editor_found
    (oe : option MyEditor) (events : list Event) :
  Polling (run events (construct oe)).
Proof.
  by destruct (run_invariant events _ (construct_invariant oe)).
Qed.

Lemma one_poll_until_editor_found_witness :
  Polling (run session (construct None)).
Proof. apply (one_poll_until_editor_found None session). Defined.

(** X18: a view update that changed the document, the viewport or the
    geometry, or one of whose transactions reconfigured the state, leaves
    exactly one recomputation pending, with a new handle, whatever was
    pending before; any other view update changes nothing. *)
Theorem update_schedules_one_pass (u : ViewUpdate) (p : Plugin.t) :
  Coalesced p ->
  (docChanged u || viewportChanged u || geometryChanged u
   || existsb (fun reconfigured => reconfigured) (transactions u) = true ->
   Plugin.scheduled (update u p) = Some (Timers.fresh (Plugin.timers p)) /\
   Timers.immediates (Plugin.timers (update u p))
   = [Timers.fresh (Plugin.timers p)]) /\
  (docChanged u || viewportChanged u || geometryChanged u
   || existsb (fun reconfigured => reconfigured) (transactions u) = false ->
   update u p = p).
Proof.
  intros Hp. unfold update. split; intros ->; [|done].
  by destruct (scheduleRecalculate_one p Hp) as (? & ? & _).
Qed.

Lemma update_schedules_one_pass_witness :
  (false || false || false || existsb (fun reconfigured => reconfigured) [false; true]
   = true ->
   Plugin.scheduled
     (update (mkViewUpdate false false false [false; true])
        (scheduleRecalculate (construct None)))
   = Some (Timers.fresh (Plugin.timers (scheduleRecalculate (construct None)))) /\
   Timers.immediates
     (Plugin.timers
        (update (mkViewUpdate false false false [false; true])
           (scheduleRecalculate (construct None))))
   = [Timers.fresh (Plugin.timers (scheduleRecalculate (construct None)))]) /\
  (false || false || false || existsb (fun reconfigured => reconfigured) [false; true]
   = false ->
   update (mkViewUpdate false false false [false; true])
     (scheduleRecalculate (construct None))
   = scheduleRecalculate (construct None)).
Proof.
  apply (update_schedules_one_pass (mkViewUpdate false false false [false; true])
           (scheduleRecalculate (construct None))).
  right. by eexists.
Defined.

(** X19: [destroy] on a value whose scroller is attached returns, cancels
    the pending recomputation, unregisters both listeners and detaches the
    scroller; afterwards no setting change, scroll or immediate does
    anything to the value, and when no poll for the editor is pending
    either, no timeout does. *)
Theorem destroy_stops_everything (p : Plugin.t) :
  Coalesced p ->
  Plugin.scrollerAttached p = true ->
  exists p',
    destroy p = Returned p' /\
    Timers.immediates (Plugin.timers p') = [] /\
    Plugin.scrollListener p' = false /\
    Plugin.settingsCallback p' = false /\
    Plugin.scrollerAttached p' = false /\
    (forall env, handle (ImmediateFired env) p' = Returned p') /\
    handle SettingChanged p' = Returned p' /\
    (forall scrollLeft scrollTop,
       handle (Scrolled scrollLeft scrollTop) p' = Returned p') /\
    (Timers.timeouts (Plugin.timers p) = [] ->
     forall oe, handle (TimeoutFired oe) p' = Returned p').
Proof.
  intros Hc Hattached. unfold destroy. simpl. rewrite Hattached.
  eexists. split; [reflexivity|].
  assert (Hi : Timers.immediates
                 (Timers.clearImmediate (Plugin.scheduled p) (Plugin.timers p))
               = []).
  { destruct Hc as [Hc | (handle & Hs & Hc)].
    - destruct (Plugin.scheduled p); simpl; by rewrite ?Hc.
    - rewrite Hs. simpl. rewrite Hc.
      by rewrite filter_cons_False by (intros Hne; by apply Hne). }
  simpl. rewrite Hi. repeat split; trivial.
  intros Ht oe.
  assert (Ht' : Timers.timeouts
                  (Timers.clearImmediate (Plugin.scheduled p) (Plugin.timers p))
                = []).
  { by destruct (Plugin.scheduled p). }
  by rewrite Ht'.
Qed.

Lemma destroy_stops_everything_witness :
  Timers.immediates
    (Plugin.timers (construct (Some (Doc.editor Nested.doc None))))
  = [0%nat] /\
  exists p',
    destroy (construct (Some (Doc.editor Nested.doc None))) = Returned p' /\
    Timers.immediates (Plugin.timers p') = [] /\
    Plugin.scrollListener p' = false /\
    Plugin.settingsCallback p' = false /\
    Plugin.scrollerAttached p' = false /\
    (forall env, handle (ImmediateFired env) p' = Returned p') /\
    handle SettingChanged p' = Returned p' /\
    (forall scrollLeft scrollTop,
       handle (Scrolled scrollLeft scrollTop) p' = Returned p') /\
    (forall oe, handle (TimeoutFired oe) p' = Returned p').
Proof.
  split; [reflexivity|].
  destruct (destroy_stops_everything
              (construct (Some (Doc.editor Nested.doc None))))
    as (p' & Hd & Hi & Hl & Hs & Ha & Himm & Hset & Hscr & Hto).
  - right. by exists 0%nat.
  - reflexivity.
  - exists p'. repeat split; trivial. by apply Hto.
Defined.

(** X20: [destroy] does not cancel the poll for the editor.  A poll that
    is pending when the value is destroyed still fires: without an editor it
    arms itself again, and with one it stores the editor and schedules a
    recomputation on the destroyed value. *)
Theorem poll_outlives_destroy (p p' : Plugin.t) (ed : MyEditor) :
  destroy p = Returned p' ->
  Timers.timeouts (Plugin.timers p) <> [] ->
  exists again found,
    handle (TimeoutFired None) p' = Returned again /\
    length (Timers.timeouts (Plugin.timers again))
    = length (Timers.timeouts (Plugin.timers p)) /\
    handle (TimeoutFired (Some ed)) p' = Returned found /\
    This.editor (Plugin.this found) = Some ed /\
    Timers.immediates (Plugin.timers found) <> [].
Proof.
  unfold destroy. simpl. intros Hdestroy Hpoll.
  destruct (Plugin.scrollerAttached p); [|discriminate].
  injection Hdestroy as <-. simpl.
  assert (Ht : Timers.timeouts
                 (Timers.clearImmediate (Plugin.scheduled p) (Plugin.timers p))
               = Timers.timeouts (Plugin.timers p)).
  { by destruct (Plugin.scheduled p). }
  rewrite Ht.
  destruct (Timers.timeouts (Plugin.timers p)) as [|hd rest]; [done|].
  eexists _, _. split; [reflexivity|]. simpl.
  split; [rewrite length_app; simpl; lia|].
  split; [reflexivity|]. simpl. split; [done|].
  intros Hnil. by apply app_eq_nil in Hnil as [_ ?].
Qed.

Lemma poll_outlives_destroy_witness :
  exists again found,
    handle (TimeoutFired None) (state (handle Destroyed (construct None)))
    = Returned again /\
    length (Timers.timeouts (Plugin.timers again))
    = length (Timers.timeouts (Plugin.timers (construct None))) /\
    handle (TimeoutFired (Some (Doc.editor Nested.doc None)))
      (state (handle Destroyed (construct None)))
    = Returned found /\
    This.editor (Plugin.this found) = Some (Doc.editor Nested.doc None) /\
    Timers.immediates (Plugin.timers found) <> [].
Proof.
  apply (poll_outlives_destroy (construct None)
           (state (handle Destroyed (construct None)))
           (Doc.editor Nested.doc None)).
  - reflexivity.
  - discriminate.
Defined.

(** * No item is drawn twice *)

Section Tree.
Variable h : Heap.
Hypothesis Hwf : wfHeap h = true.

Lemma Reach_le (a d : ListId) : Reach h a d -> (a <= d)%nat.
Proof.
  induction 1 as [a | a c d item Ha Hc Hreach IH]; [done|].
  destruct (wfHeap_child _ _ _ _ Hwf Ha Hc) as [Hlt _]. lia.
Qed.

Lemma Reach_trans (a b d : ListId) : Reach h a b -> Reach h b d -> Reach h a d.
Proof.
  induction 1 as [a | a c b item Ha Hc Hreach IH]; [done|].
  intros Hbd. eapply reach_child; eauto.
Qed.

(** The last step of a path is the parent pointer of its end. *)
Lemma Reach_parent (a d : ListId) :
  Reach h a d -> a <> d ->
  exists ditem pid,
    h !! d = Some ditem /\ parent ditem = Some pid /\ Reach h a pid.
Proof.
  induction 1 as [a | a c d item Ha Hc Hreach IH]; intros Hne; [done|].
  destruct (wfHeap_child _ _ _ _ Hwf Ha Hc) as (_ & citem & Hcitem & Hcp).
  destruct (decide (c = d)) as [<- | Hcd].
  - exists citem, a. repeat split; trivial. apply reach_here.
  - destruct (IH Hcd) as (ditem & pid & Hd & Hp & Hreach').
    exists ditem, pid. repeat split; trivial. by eapply reach_child.
Qed.

(** Two items that both reach [d] lie on one path. *)
Lemma Reach_comparable (d : ListId) :
  forall a b, Reach h a d -> Reach h b d -> Reach h a b \/ Reach h b a.
Proof.
  induction d as [d IH] using lt_wf_ind. intros a b Ha Hb.
  destruct (decide (a = d)) as [-> | Had]; [by right|].
  destruct (decide (b = d)) as [-> | Hbd]; [by left|].
  destruct (Reach_parent a d Ha Had) as (ditem & pid & Hd & Hp & Hap).
  destruct (Reach_parent b d Hb Hbd) as (ditem' & pid' & Hd' & Hp' & Hbp).
  assert (pid' = pid) by congruence. subst pid'.
  destruct (wfHeap_parent _ _ _ _ Hwf Hd Hp) as [Hlt _].
  by apply (IH pid).
Qed.

Lemma siblings_disjoint (p c1 c2 d : ListId) (pitem : ListItem) :
  h !! p = Some pitem -> c1 ∈ children pitem -> c2 ∈ children pitem ->
  c1 <> c2 -> Reach h c1 d -> Reach h c2 d -> False.
Proof.
  intros Hp H1 H2 Hne Hr1 Hr2.
  destruct (wfHeap_child _ _ _ _ Hwf Hp H1) as (Hlt1 & item1 & Hi1 & Hp1).
  destruct (wfHeap_child _ _ _ _ Hwf Hp H2) as (Hlt2 & item2 & Hi2 & Hp2).
  destruct (Reach_comparable d c1 c2 Hr1 Hr2) as [Hr | Hr].
  - destruct (Reach_parent c1 c2 Hr Hne) as (? & pid & ? & ? & Hrp).
    assert (pid = p) by congruence. subst pid.
    apply Reach_le in Hrp. lia.
  - destruct (Reach_parent c2 c1 Hr (not_eq_sym Hne)) as (? & pid & ? & ? & Hrp).
    assert (pid = p) by congruence. subst pid.
    apply Reach_le in Hrp. lia.
Qed.

Lemma roots_disjoint (r1 r2 d : ListId) (ritem1 ritem2 : ListItem) :
  h !! r1 = Some ritem1 -> parent ritem1 = None ->
  h !! r2 = Some ritem2 -> parent ritem2 = None ->
  r1 <> r2 -> Reach h r1 d -> Reach h r2 d -> False.
Proof.
  intros Hi1 Hp1 Hi2 Hp2 Hne Hr1 Hr2.
  destruct (Reach_comparable d r1 r2 Hr1 Hr2) as [Hr | Hr].
  - destruct (Reach_parent r1 r2 Hr Hne) as (? & pid & ? & ? & _). congruence.
  - destruct (Reach_parent r2 r1 Hr (not_eq_sym Hne)) as (? & pid & ? & ? & _).
    congruence.
Qed.
End Tree.

(** A loop whose iterations push descriptors of disjoint groups of items,
    none twice, pushes no item twice. *)
Lemma forOf_nodup {S : Type} (proj : S -> list LineData.t)
    (G : ListId -> ListId -> Prop) (body : ListId -> S -> Result S) :
  forall cs t t',
    (forall c u u', c ∈ cs -> body c u = Ok u' ->
       exists new,
         proj u' = proj u ++ new /\ NoDup (sources new) /\
         Forall (fun l => G c (LineData.list l)) new) ->
    (forall c1 c2 d, c1 ∈ cs -> c2 ∈ cs -> c1 <> c2 -> G c1 d -> G c2 d -> False) ->
    NoDup cs ->
    forOf cs body t = Ok t' ->
    exists new,
      proj t' = proj t ++ new /\ NoDup (sources new) /\
      Forall (fun l => exists c, c ∈ cs /\ G c (LineData.list l)) new.
Proof.
  induction cs as [|c cs IH]; intros t t' Hbody Hdisj Hnodup Hrun.
  - injection Hrun as <-. exists []. rewrite app_nil_r.
    repeat split; constructor.
  - rewrite forOf_cons in Hrun. bind_inv Hrun. rename a into mid.
    apply NoDup_cons in Hnodup as [Hc Hnodup].
    destruct (Hbody c t mid) as (new1 & Hmid & Hnd1 & Hall1); [by left | done |].
    destruct (IH mid t') as (new2 & Ht' & Hnd2 & Hall2); trivial.
    { intros c' u u' Hc'. apply Hbody. by right. }
    { intros c1 c2 d H1 H2. apply Hdisj; by right. }
    exists (new1 ++ new2). rewrite Ht', Hmid, app_assoc. split; [done|]. split.
    + unfold sources. rewrite fmap_app. apply NoDup_app. repeat split; trivial.
      intros d Hd1 Hd2.
      apply list_elem_of_fmap in Hd1 as (l1 & -> & Hl1).
      apply list_elem_of_fmap in Hd2 as (l2 & Heq & Hl2).
      apply (proj1 (Forall_forall _ _) Hall1) in Hl1.
      apply (proj1 (Forall_forall _ _) Hall2) in Hl2 as (c2 & Hc2 & Hg2).
      rewrite <- Heq in Hg2.
      apply (Hdisj c c2 (LineData.list l1)); trivial; [by left | by right |].
      intros ->. contradiction.
    + apply Forall_app. split.
      * eapply Forall_impl; [exact Hall1|]. simpl. intros l Hl. exists c.
        split; [by left | done].
      * eapply Forall_impl; [exact Hall2|]. simpl. intros l (c2 & Hc2 & Hg).
        exists c2. split; [by right | done].
Qed.

Lemma recursive_nodup (env : Env) (editor : option MyEditor) (h : Heap)
    (lastLine : Z) (fuel : nat) :
  wfHeap h = true ->
  Forall (fun item => NoDup (children item)) h ->
  forall lid lines lines',
    recursive env editor h fuel lastLine lid lines = Ok lines' ->
    exists new,
      lines' = lines ++ new /\ NoDup (sources new) /\
      Forall (fun l => Reach h lid (LineData.list l)) new.
Proof.
  intros Hwf Hchildren.
  induction fuel as [|fuel IH]; intros lid lines lines' H; simpl in H;
    [discriminate|].
  bind_inv H. apply getItem_Ok in Ha. rename a into item.
  destruct (length (children item) =? 0)%nat.
  { injection H as <-. exists []. rewrite app_nil_r. repeat split; constructor. }
  bind_inv H. rename a into mid, Ha0 into Hloop.
  assert (Hsplit : exists new,
            mid = lines ++ new /\ NoDup (sources new) /\
            Forall (fun l => exists c, c ∈ children item /\
                                       Reach h c (LineData.list l)) new).
  { match type of Hloop with
    | forOf _ ?body _ = _ =>
        apply (forOf_nodup (fun t => t) (Reach h) body (children item) lines mid)
    end; trivial.
    - intros c u u' Hc Hbody. bind_inv Hbody. destruct (negb (empty a)).
      + by apply IH.
      + injection Hbody as <-. exists []. rewrite app_nil_r.
        repeat split; constructor.
    - intros c1 c2 d H1 H2. by apply (siblings_disjoint h Hwf lid c1 c2 d item).
    - apply (proj1 (Forall_forall _ _) Hchildren).
      apply list_elem_of_lookup. by exists lid. }
  destruct Hsplit as (new & -> & Hnd & Hall).
  assert (Hbelow : Forall (fun l => Reach h lid (LineData.list l) /\
                                    (lid < LineData.list l)%nat) new).
  { eapply Forall_impl; [exact Hall|]. simpl. intros l (c & Hc & Hr).
    split; [by eapply reach_child|].
    destruct (wfHeap_child _ _ _ _ Hwf Ha Hc) as [Hlt _].
    apply (Reach_le h Hwf) in Hr. lia. }
  apply connect_visited in H. destruct H as [-> | (l & -> & Hl)].
  + exists new. repeat split; trivial.
    eapply Forall_impl; [exact Hbelow|]. by intros l' [? _].
  + exists (new ++ [l]). rewrite app_assoc. split; [done|]. split.
    * unfold sources. rewrite fmap_app. apply NoDup_app.
      repeat split; trivial; [|apply NoDup_singleton].
      intros d Hd Hd'. apply list_elem_of_fmap in Hd as (l' & -> & Hl').
      apply list_elem_of_singleton in Hd'.
      apply (proj1 (Forall_forall _ _) Hbelow) in Hl' as [_ Hlt].
      simpl in Hd'. lia.
    * apply Forall_app. split.
      -- eapply Forall_impl; [exact Hbelow|]. by intros l' [? _].
      -- constructor; [|constructor]. rewrite Hl. apply reach_here.
Qed.

(** X21: on a forest as a parser builds it (parents numbered before their
    children, no child listed twice, distinct roots without a parent) no
    item is the source of two descriptors of a pass. *)
Theorem no_item_gets_two_connectors
    (env : Env) (this this' : This.t) (ed : MyEditor) :
  calculate env this = Ok this' ->
  This.editor this = Some ed ->
  wfForest (fst (parsed env ed)) (snd (parsed env ed)) ->
  NoDup (sources (This.lines this')).
Proof.
  intros Hcalc Hed (Hwf & Hchildren & Hroots & Hparentless).
  destruct (enabled env) eqn:Hen.
  2:{ rewrite (calculate_disabled _ _ _ Hen Hcalc). constructor. }
  unfold calculate in Hcalc. rewrite Hen in Hcalc.
  bind_inv Hcalc. rename a into final, Ha into Hrun.
  apply updateDom_sameModel in Hcalc. destruct Hcalc as (_ & _ & _ & ->).
  bind_inv Hrun. apply deref_Ok in Ha. simpl in Ha.
  assert (a = ed) by congruence. subst a.
  fold (parsed env ed) in Hrun.
  destruct (parsed env ed) as [h lists] eqn:Hparsed. simpl in *.
  bind_inv Hrun. rename a into looped, Ha0 into Hloop.
  injection Hrun as <-. simpl.
  unfold sources. rewrite sort_perm. fold (sources (This.lines looped)).
  assert (Hsplit : exists new,
            This.lines looped =
              This.lines (This.set_lines [] (This.set_heap h this)) ++ new /\
            NoDup (sources new) /\
            Forall (fun l => exists root, root ∈ lists /\
                      Descendant h root (LineData.list l)) new).
  { match type of Hloop with
    | forOf _ ?body _ = _ =>
        apply (forOf_nodup This.lines (Descendant h) body lists _ looped)
    end; trivial.
    - intros root u u' Hroot Hbody. bind_inv Hbody. apply getItem_Ok in Ha0.
      rename a into ritem.
      assert (Hinner : exists new,
                This.lines u' =
                  This.lines (This.set_lastLine (line (snd (range ritem))) u) ++ new /\
                NoDup (sources new) /\
                Forall (fun l => exists c, c ∈ children ritem /\
                                           Reach h c (LineData.list l)) new).
      { match type of Hbody with
        | forOf _ ?body _ = _ =>
            apply (forOf_nodup This.lines (Reach h) body (children ritem) _ u')
        end; trivial.
        - intros c v v' Hc Hstep. bind_inv Hstep. injection Hstep as <-. simpl.
          by apply recursive_nodup in Ha1.
        - intros c1 c2 d H1 H2.
          by apply (siblings_disjoint h Hwf root c1 c2 d ritem).
        - apply (proj1 (Forall_forall _ _) Hchildren).
          apply list_elem_of_lookup. by exists root. }
      destruct Hinner as (new & Hnew & Hnd & Hall).
      exists new. repeat split; trivial.
      eapply Forall_impl; [exact Hall|]. simpl. intros l (c & Hc & Hr).
      by exists ritem, c.
    - intros r1 r2 d H1 H2 Hne (i1 & c1 & Hi1 & Hc1 & Hr1)
        (i2 & c2 & Hi2 & Hc2 & Hr2).
      apply (proj1 (Forall_forall _ _) Hparentless) in H1 as (i1' & Hi1' & Hp1).
      apply (proj1 (Forall_forall _ _) Hparentless) in H2 as (i2' & Hi2' & Hp2).
      assert (i1' = i1) by congruence. assert (i2' = i2) by congruence. subst.
      apply (roots_disjoint h Hwf r1 r2 d i1 i2); trivial;
        by eapply reach_child. }
  destruct Hsplit as (new & Hnew & Hnd & _).
  simpl in Hnew. by rewrite Hnew.
Qed.

Lemma no_item_gets_two_connectors_witness :
  NoDup
    (sources
       (This.lines
          (after (calculate (Doc.env Nested.doc None (Nested.forest false))
                    (Doc.this (Some (Doc.editor Nested.doc None))))))).
Proof.
  apply (no_item_gets_two_connectors
           (Doc.env Nested.doc None (Nested.forest false))
           (Doc.this (Some (Doc.editor Nested.doc None)))
           (after (calculate (Doc.env Nested.doc None (Nested.forest false))
                     (Doc.this (Some (Doc.editor Nested.doc None)))))
           (Doc.editor Nested.doc None)).
  - vm_compute. reflexivity.
  - reflexivity.
  - split; [vm_compute; reflexivity|]. split.
    + apply (bool_decide_unpack _). vm_compute. exact I.
    + split; [apply (bool_decide_unpack _); vm_compute; exact I|].
      repeat constructor. by eexists.
Defined.

(** * A second pass changes nothing *)

Lemma This_eq (a b : This.t) : sameComputed a b -> sameRest a b -> a = b.
Proof.
  destruct a, b. unfold sameComputed, sameRest. simpl.
  intros (-> & -> & ->) (-> & -> & -> & -> & -> & ->). reflexivity.
Qed.

(** Two runs of a loop from related states stay related when the body
    keeps them so. *)
Lemma forOf_sim {A S : Type} (R : S -> S -> Prop) (body : A -> S -> Result S) :
  (forall x t1 t2 r1, R t1 t2 -> body x t1 = Ok r1 ->
     exists r2, body x t2 = Ok r2 /\ R r1 r2) ->
  forall xs t1 t2 r1,
    R t1 t2 -> forOf xs body t1 = Ok r1 ->
    exists r2, forOf xs body t2 = Ok r2 /\ R r1 r2.
Proof.
  intros Hbody. induction xs as [|x xs IH]; intros t1 t2 r1 HR Hrun.
  - injection Hrun as <-. by exists t2.
  - rewrite forOf_cons in Hrun. bind_inv Hrun.
    destruct (Hbody x t1 t2 a HR Ha) as (m2 & Hm2 & HRm).
    destruct (IH a m2 r1 HRm Hrun) as (r2 & Hr2 & HRr).
    exists r2. split; [|done]. rewrite forOf_cons, Hm2. exact Hr2.
Qed.

Lemma childStep_sim (env : Env) (h : Heap) (c : ListId)
    (t1 t2 r1 : This.t) :
  sameComputed t1 t2 -> childStep env h c t1 = Ok r1 ->
  exists r2, childStep env h c t2 = Ok r2 /\ sameComputed r1 r2.
Proof.
  intros (Hed & Hlines & Hlast) H. unfold childStep in *. bind_inv H.
  injection H as <-. rewrite <- Hed, <- Hlines, <- Hlast, Ha.
  eexists. split; [reflexivity|]. by repeat split.
Qed.

Lemma rootStep_sim (env : Env) (h : Heap) (root : ListId)
    (t1 t2 r1 : This.t) :
  This.editor t1 = This.editor t2 -> This.lines t1 = This.lines t2 ->
  rootStep env h root t1 = Ok r1 ->
  exists r2, rootStep env h root t2 = Ok r2 /\ sameComputed r1 r2.
Proof.
  intros Hed Hlines H. unfold rootStep in *. bind_inv H. rewrite Ha.
  cbn [bind]. revert H.
  apply (forOf_sim sameComputed); [apply childStep_sim|].
  by repeat split.
Qed.

Lemma roots_sim (env : Env) (h : Heap) (lists : list ListId)
    (t1 t2 r1 : This.t) :
  This.editor t1 = This.editor t2 -> This.lines t1 = This.lines t2 ->
  This.lastLine t2 = This.lastLine r1 ->
  forOf lists (rootStep env h) t1 = Ok r1 ->
  exists r2, forOf lists (rootStep env h) t2 = Ok r2 /\ sameComputed r1 r2.
Proof.
  intros Hed Hlines Hlast H. destruct lists as [|root rest].
  - injection H as <-. exists t2. split; [done|]. by repeat split.
  - rewrite forOf_cons in H. bind_inv H.
    destruct (rootStep_sim env h root t1 t2 a Hed Hlines Ha) as (m2 & Hm2 & HR).
    destruct (forOf_sim sameComputed (rootStep env h)) with (3 := H) (2 := HR)
      as (r2 & Hr2 & HRr).
    { intros x u1 u2 v1 (? & ? & ?). by apply rootStep_sim. }
    exists r2. split; [|done]. rewrite forOf_cons, Hm2. exact Hr2.
Qed.

Lemma roots_rest (env : Env) (h : Heap) (lists : list ListId)
    (t r : This.t) :
  forOf lists (rootStep env h) t = Ok r -> sameRest r t.
Proof.
  apply (forOf_invariant (fun u => sameRest u t)); [|by repeat split].
  intros root u u' _ Hu H. unfold rootStep in H. bind_inv H.
  revert H. apply (forOf_invariant (fun v => sameRest v t)); [|exact Hu].
  intros c v v' _ Hv H. unfold childStep in H. bind_inv H.
  injection H as <-. exact Hv.
Qed.

(** X22: a pass is idempotent: run again on the state it produced, with
    the host unchanged, it succeeds and produces that same state. *)
Theorem calculate_idempotent (env : Env) (this this' : This.t) :
  calculate env this = Ok this' -> calculate env this' = Ok this'.
Proof.
  intros Hcalc. pose proof (calculate_editor _ _ _ Hcalc) as Hed.
  unfold calculate in *. destruct (enabled env).
  - bind_inv Hcalc. rename a into final, Ha into Hrun.
    bind_inv Hrun. rename a into ed, Ha into Hderef.
    cbn [This.editor This.set_lines] in Hderef.
    rewrite updateDom_rendered in Hcalc. injection Hcalc as Hthis'.
    cbn [This.editor This.set_lines]. rewrite Hed, Hderef. cbn [bind].
    destruct (parseRange env _ _) as [h lists].
    bind_inv Hrun. rename a into r1, Ha into Hloop.
    injection Hrun as <-.
    change (forOf lists (rootStep env h)
              (This.set_heap h (This.set_lines [] this)) = Ok r1) in Hloop.
    change ((r2 <-- (looped <-- forOf lists (rootStep env h)
                       (This.set_heap h (This.set_lines [] this')) ;;
                     Ok (This.set_lines
                           (sort compareLines (This.lines looped)) looped)) ;;
             updateDom env r2) = Ok this').
    pose proof (roots_rest _ _ _ _ _ Hloop) as Hrest1.
    destruct (roots_sim env h lists
                (This.set_heap h (This.set_lines [] this))
                (This.set_heap h (This.set_lines [] this')) r1)
      as (r2 & Hr2 & HR); trivial.
    { simpl. by rewrite Hed. }
    { by rewrite <- Hthis'. }
    pose proof (roots_rest _ _ _ _ _ Hr2) as Hrest2.
    rewrite Hr2. cbn [bind]. rewrite updateDom_rendered. f_equal.
    destruct HR as (HRed & HRlines & HRlast).
    destruct Hrest1 as (H1a & H1b & H1c & H1d & H1e & H1f).
    destruct Hrest2 as (H2a & H2b & H2c & H2d & H2e & H2f).
    simpl in *.
    apply This_eq; unfold sameComputed, sameRest; rewrite <- Hthis'; simpl;
      rewrite <- ?HRlines, ?H2a, ?H2b, ?H1a, ?H1b.
    + by repeat split.
    + rewrite <- Hthis'. simpl. rewrite H1b.
      repeat split; trivial. apply rendered_rendered.
  - cbn [bind] in *. rewrite updateDom_rendered in *.
    injection Hcalc as Hthis'. f_equal.
    apply This_eq; unfold sameComputed, sameRest; rewrite <- Hthis'; simpl.
    + by repeat split.
    + repeat split; trivial. apply rendered_rendered.
Qed.

Lemma calculate_idempotent_witness :
  calculate (Doc.env Nested.doc None (Nested.forest false))
    (after (calculate (Doc.env Nested.doc None (Nested.forest false))
              (Doc.this (Some (Doc.editor Nested.doc None)))))
  = Ok (after (calculate (Doc.env Nested.doc None (Nested.forest false))
                 (Doc.this (Some (Doc.editor Nested.doc None))))).
Proof.
  apply (calculate_idempotent
           (Doc.env Nested.doc None (Nested.forest false))
           (Doc.this (Some (Doc.editor Nested.doc None)))).
  vm_compute. reflexivity.
Defined.
